(** * GK_GATE: the request-forwarding core of the gateway, embedded in Rocq

    Each module below embeds one service of [src/gateway]: the functions
    are transcribed from the TypeScript sources, with the mutable maps of
    the services passed explicitly and every reading of [Date.now()] taken
    as an argument.  Numbers that the code uses as integers (timestamps in
    milliseconds, counters, limits, sizes in bytes) are modelled in [Z];
    the number that is parsed from a header is rounded to a double
    ([Cache.toDouble]). *)

From Stdlib Require Import ZArith Lia List String Ascii.
From Stdlib Require Import DecimalString HexadecimalString HexadecimalN HexadecimalPos.
From Stdlib Require Import DecimalN DecimalPos Sorted.
From stdpp Require Import gmap strings list fin_maps.

Local Open Scope Z_scope.

(* ===================================================================== *)
(** * JavaScript primitives used by the services                          *)
(* ===================================================================== *)

(** [Math.ceil(a / b)] for a positive integer divisor [b]. *)
Definition Math_ceil_div (a b : Z) : Z := - ((- a) / b).

(** [s.startsWith(p)] *)
Fixpoint startsWith (p s : string) : bool :=
  match p, s with
  | EmptyString, _ => true
  | String a p', String b s' => Ascii.eqb a b && startsWith p' s'
  | String _ _, EmptyString => false
  end.

(** [s.includes(sub)] *)
Fixpoint includes (sub s : string) : bool :=
  startsWith sub s ||
  match s with
  | EmptyString => false
  | String _ s' => includes sub s'
  end.

(** Truthiness of [obj[name]] for a string-valued property: defined and
    not the empty string. *)
Definition truthy (v : option string) : bool :=
  match v with
  | Some (String _ _) => true
  | _ => false
  end.

(** [v || d] for an optional string [v]. *)
Definition orElse (v : option string) (d : string) : string :=
  match v with
  | Some (String a s) => String a s
  | _ => d
  end.

(** [ToInt32]: the signed 32-bit value of an integer. *)
Definition toInt32 (x : Z) : Z := (x + 2 ^ 31) mod 2 ^ 32 - 2 ^ 31.

(** [n.toString(16)] and [n.toString()] for a non-negative integer. *)
Definition toString16 (n : Z) : string :=
  HexadecimalString.NilZero.string_of_uint (N.to_hex_uint (Z.to_N n)).

Definition toString10 (n : Z) : string :=
  DecimalString.NilZero.string_of_uint (N.to_uint (Z.to_N n)).

(** [s.charCodeAt(i)] over the characters of [s], for strings of
    one-byte characters. *)
Definition charCodes (s : string) : list Z :=
  List.map (fun c => Z.of_nat (nat_of_ascii c)) (list_ascii_of_string s).

(** What [includes] and [startsWith] decide. *)
Definition Contains (sub s : string) : Prop :=
  exists before after, s = before +:+ sub +:+ after.

Lemma startsWith_spec p s : startsWith p s = true <-> exists after, s = p +:+ after.
Proof.
  revert s. induction p as [|a p IH]; intros s; cbn.
  - split; eauto.
  - destruct s as [|b s]; cbn.
    + split; [discriminate|]. intros [after [=]].
    + rewrite andb_true_iff, IH, Ascii.eqb_eq. split.
      * intros [-> [after ->]]. eauto.
      * intros [after [= -> ->]]. eauto.
Qed.

Lemma includes_spec sub s : includes sub s = true <-> Contains sub s.
Proof.
  unfold Contains. induction s as [|b s IH]; cbn.
  - rewrite orb_false_r, startsWith_spec. split.
    + intros [after ->]. exists "", after. done.
    + intros (before & after & Heq). exists after.
      destruct before; cbn in *; [done|discriminate].
  - rewrite orb_true_iff, startsWith_spec, IH. split.
    + intros [[after ->]|(before & after & ->)].
      * exists "", after. done.
      * exists (String b before), after. done.
    + intros (before & after & Heq). destruct before as [|c before]; cbn in *.
      * left. eauto.
      * right. injection Heq as -> ->. eauto.
Qed.

Lemma string_app_inv_head (p s1 s2 : string) : p +:+ s1 = p +:+ s2 -> s1 = s2.
Proof. induction p as [|a p IH]; cbn; [done|]. intros [= H]. auto. Qed.

Lemma toString16_inj (m n : Z) : 0 <= m -> 0 <= n -> toString16 m = toString16 n -> m = n.
Proof.
  intros Hm Hn Heq. unfold toString16 in Heq.
  assert (Hnonnil : forall k, N.to_hex_uint k <> Hexadecimal.Nil).
  { intros [|q]; cbn; [discriminate|apply HexadecimalPos.Unsigned.to_uint_nonnil]. }
  assert (Huint : N.to_hex_uint (Z.to_N m) = N.to_hex_uint (Z.to_N n)).
  { pose proof (HexadecimalString.NilZero.usu _ (Hnonnil (Z.to_N m))) as H1.
    pose proof (HexadecimalString.NilZero.usu _ (Hnonnil (Z.to_N n))) as H2.
    rewrite Heq in H1. congruence. }
  apply HexadecimalN.Unsigned.to_uint_inj in Huint. lia.
Qed.

(* ===================================================================== *)
(** * Rate limiter: [rate-limit/advanced-rate-limit.service.ts]           *)
(* ===================================================================== *)
Module RateLimit.

(** [interface RateLimitWindow] *)
Record RateLimitWindow := mkWindow {
  count : Z;
  resetTime : Z;
  firstRequest : Z;
}.

(** [remainingHits] starts at [Infinity] in [checkRateLimit]. *)
Inductive hits :=
| Finite (n : Z)
| Infinity.

(** [a < b] on [hits], as JavaScript compares numbers with [Infinity]. *)
Definition hits_ltb (a b : hits) : bool :=
  match a, b with
  | Finite x, Finite y => x <? y
  | Finite _, Infinity => true
  | Infinity, _ => false
  end.

(** [interface RateLimitResult]; [retryAfter] is optional. *)
Record RateLimitResult := mkResult {
  allowed : bool;
  totalHits : Z;
  remainingHits : hits;
  res_resetTime : Z;
  retryAfter : option Z;
}.

Section Service.

(** The request and the key derivation of [generateKey] stay abstract:
    no property below depends on how a key pattern is instantiated. *)
Context {Request : Type}.
Variable generateKey : Request -> string -> string.

(** [interface RateLimitRule] *)
Record RateLimitRule := mkRule {
  key : string;
  limit : Z;
  window : Z;
  skipIf : option (Request -> bool);
}.

(** [checkSingleRule(key, rule, now)], over the [windows] map. *)
Definition checkSingleRule (windows : gmap string RateLimitWindow)
    (k : string) (rule : RateLimitRule) (now : Z)
  : RateLimitResult * gmap string RateLimitWindow :=
  let fresh := mkWindow 0 (now + window rule) now in
  let '(w, windows1) :=
    match windows !! k with
    | Some w =>
        if resetTime w <=? now then (fresh, <[k := fresh]> windows)
        else (w, windows)
    | None => (fresh, <[k := fresh]> windows)
    end in
  if limit rule <=? count w then
    (mkResult false (count w) (Finite 0) (resetTime w)
       (Some (Math_ceil_div (resetTime w - now) 1000)),
     windows1)
  else
    let w' := mkWindow (count w + 1) (resetTime w) (firstRequest w) in
    (mkResult true (count w') (Finite (limit rule - count w')) (resetTime w') None,
     <[k := w']> windows1).

(** [rule.skipIf && rule.skipIf(request)] *)
Definition skipped (rule : RateLimitRule) (request : Request) : bool :=
  match skipIf rule with
  | Some p => p request
  | None => false
  end.

(** The loop of [checkRateLimit] over the remaining rules. *)
Fixpoint checkRules (windows : gmap string RateLimitWindow) (request : Request)
    (rules : list RateLimitRule) (now : Z) (mostRestrictive : RateLimitResult)
  : RateLimitResult * gmap string RateLimitWindow :=
  match rules with
  | [] => (mostRestrictive, windows)
  | rule :: rest =>
      if skipped rule request then
        checkRules windows request rest now mostRestrictive
      else
        let '(result, windows') :=
          checkSingleRule windows (generateKey request (key rule)) rule now in
        if negb (allowed result) then (result, windows')
        else
          checkRules windows' request rest now
            (if hits_ltb (remainingHits result) (remainingHits mostRestrictive)
             then result else mostRestrictive)
  end.

(** [checkRateLimit(request, rules)] with [now = Date.now()]. *)
Definition checkRateLimit (windows : gmap string RateLimitWindow)
    (request : Request) (rules : list RateLimitRule) (now : Z)
  : RateLimitResult * gmap string RateLimitWindow :=
  checkRules windows request rules now (mkResult true 0 Infinity now None).

(** A call evaluates [rule] on the window [k] when the rule is not skipped
    for the request and the request's key is [k]. *)
Definition evaluates (rule : RateLimitRule) (k : string) (request : Request) : bool :=
  negb (skipped rule request) && bool_decide (generateKey request (key rule) = k).

(** A call touches the window [k] when one of its rules evaluates on it. *)
Definition touches (rules : list RateLimitRule) (k : string) (request : Request) : bool :=
  existsb (fun rule => evaluates rule k request) rules.

(** The number of calls, in a sequence of [checkRateLimit] calls with the
    rules [rules], that evaluate [rule] on the window [k] and are allowed. *)
Fixpoint allowedHits (windows : gmap string RateLimitWindow)
    (rules : list RateLimitRule) (rule : RateLimitRule)
    (k : string) (calls : list (Request * Z)) : nat :=
  match calls with
  | [] => 0%nat
  | (request, now) :: rest =>
      let '(result, windows') := checkRateLimit windows request rules now in
      ((if evaluates rule k request && allowed result then 1 else 0)
       + allowedHits windows' rules rule k rest)%nat
  end.

(** The window map after a sequence of [checkRateLimit] calls. *)
Fixpoint runChecks (windows : gmap string RateLimitWindow) (rules : list RateLimitRule)
    (calls : list (Request * Z)) : gmap string RateLimitWindow :=
  match calls with
  | [] => windows
  | (request, now) :: rest =>
      runChecks (snd (checkRateLimit windows request rules now)) rules rest
  end.

(** ** Properties of one rule's window *)

Lemma checkSingleRule_finite windows k rule now :
  exists n, remainingHits (fst (checkSingleRule windows k rule now)) = Finite n.
Proof.
  unfold checkSingleRule.
  destruct (windows !! k) as [w|]; [destruct (resetTime w <=? now)|];
    cbn; match goal with |- context [if ?b then _ else _] => destruct b end;
    cbn; eauto.
Qed.

Lemma checkRateLimit_single windows request rule now :
  checkRateLimit windows request [rule] now =
  if skipped rule request then (mkResult true 0 Infinity now None, windows)
  else checkSingleRule windows (generateKey request (key rule)) rule now.
Proof.
  unfold checkRateLimit; cbn [checkRules].
  destruct (skipped rule request); [reflexivity|].
  pose proof (checkSingleRule_finite windows (generateKey request (key rule)) rule now)
    as [n Hn].
  destruct (checkSingleRule _ _ _ _) as [result windows']; cbn in *.
  destruct (allowed result); cbn; [|reflexivity].
  rewrite Hn; reflexivity.
Qed.

Lemma checkSingleRule_denied windows k rule now w :
  windows !! k = Some w -> now < resetTime w -> limit rule <= count w ->
  checkSingleRule windows k rule now =
  (mkResult false (count w) (Finite 0) (resetTime w)
     (Some (Math_ceil_div (resetTime w - now) 1000)), windows).
Proof.
  intros Hw Hnow Hfull. unfold checkSingleRule. rewrite Hw.
  destruct (Z.leb_spec (resetTime w) now); [lia|].
  destruct (Z.leb_spec (limit rule) (count w)); [reflexivity|lia].
Qed.

Lemma checkSingleRule_counted windows k rule now w :
  windows !! k = Some w -> now < resetTime w -> count w < limit rule ->
  checkSingleRule windows k rule now =
  (mkResult true (count w + 1) (Finite (limit rule - (count w + 1))) (resetTime w) None,
   <[k := mkWindow (count w + 1) (resetTime w) (firstRequest w)]> windows).
Proof.
  intros Hw Hnow Hroom. unfold checkSingleRule. rewrite Hw.
  destruct (Z.leb_spec (resetTime w) now); [lia|].
  destruct (Z.leb_spec (limit rule) (count w)); [lia|reflexivity].
Qed.

(** The window found by a check is a fresh one when none is stored or the
    stored one has reached its [resetTime]. *)
Definition expired (windows : gmap string RateLimitWindow) (k : string) (now : Z) : Prop :=
  match windows !! k with
  | Some w => resetTime w <= now
  | None => True
  end.

Lemma checkSingleRule_fresh windows k rule now :
  expired windows k now ->
  checkSingleRule windows k rule now =
  if limit rule <=? 0 then
    (mkResult false 0 (Finite 0) (now + window rule)
       (Some (Math_ceil_div (now + window rule - now) 1000)),
     <[k := mkWindow 0 (now + window rule) now]> windows)
  else
    (mkResult true 1 (Finite (limit rule - 1)) (now + window rule) None,
     <[k := mkWindow 1 (now + window rule) now]> windows).
Proof.
  unfold expired, checkSingleRule. intros Hexp.
  destruct (windows !! k) as [w|].
  - destruct (Z.leb_spec (resetTime w) now); [|lia].
    cbn. destruct (limit rule <=? 0); [reflexivity|].
    cbn. by rewrite insert_insert_eq.
  - cbn. destruct (limit rule <=? 0); [reflexivity|].
    cbn. by rewrite insert_insert_eq.
Qed.

Lemma checkSingleRule_other windows k k' rule now :
  k' <> k -> snd (checkSingleRule windows k' rule now) !! k = windows !! k.
Proof.
  intros Hne. unfold checkSingleRule.
  destruct (windows !! k') as [w|]; [destruct (resetTime w <=? now)|];
    cbn; match goal with |- context [if ?b then _ else _] => destruct b end;
    cbn; rewrite ?lookup_insert_ne by done; reflexivity.
Qed.

Lemma evaluates_true rule k request :
  evaluates rule k request = true ->
  skipped rule request = false /\ generateKey request (key rule) = k.
Proof.
  unfold evaluates. intros [Hs Hk]%andb_prop. split.
  - by destruct (skipped rule request).
  - by apply bool_decide_eq_true in Hk.
Qed.

Lemma evaluates_skipped rule k request :
  skipped rule request = true -> evaluates rule k request = false.
Proof. unfold evaluates. by intros ->. Qed.

Lemma evaluates_other rule k request :
  generateKey request (key rule) <> k -> evaluates rule k request = false.
Proof.
  intros Hne. unfold evaluates. rewrite bool_decide_eq_false_2 by done.
  apply andb_false_r.
Qed.

(** One [checkRateLimit] call with any list of rules, seen from a stored
    window [w] of key [k] that the call does not find expired: the window
    is kept with a count that has not decreased; and if the call is
    allowed, every rule of the list that evaluates on [k] had room left
    when the call began and has been counted. *)
Lemma checkRules_window k request now rules : forall windows w mostRestrictive,
  windows !! k = Some w ->
  (touches rules k request = true -> now < resetTime w) ->
  exists w',
    snd (checkRules windows request rules now mostRestrictive) !! k = Some w' /\
    resetTime w' = resetTime w /\ count w <= count w' /\
    (allowed (fst (checkRules windows request rules now mostRestrictive)) = true ->
     forall rule, In rule rules -> evaluates rule k request = true ->
                  count w < limit rule /\ count w < count w').
Proof.
  induction rules as [|r rest IH]; intros windows w mr Hw Hnow; cbn [checkRules].
  - exists w. cbn. split; [done|]. split; [done|]. split; [lia|]. by intros _ rule [].
  - cbn [touches existsb] in Hnow. fold (touches rest k request) in Hnow.
    destruct (skipped r request) eqn:Hskip.
    + rewrite (evaluates_skipped r k request Hskip) in Hnow.
      destruct (IH windows w mr Hw Hnow) as (w' & Hw' & Hreset & Hcount & Hall).
      exists w'. split; [done|]. split; [done|]. split; [done|].
      intros Hallowed rule [<-|Hin] Hev;
        [by rewrite (evaluates_skipped _ k request Hskip) in Hev
        |by apply (Hall Hallowed rule Hin Hev)].
    + destruct (decide (generateKey request (key r) = k)) as [Hk|Hk].
      * assert (Hev : evaluates r k request = true).
        { unfold evaluates. rewrite Hskip. by rewrite bool_decide_eq_true_2. }
        rewrite Hev in Hnow. specialize (Hnow eq_refl) as Hbefore. rewrite Hk.
        destruct (Z.le_gt_cases (limit r) (count w)) as [Hfull|Hroom].
        -- rewrite (checkSingleRule_denied _ _ _ _ w) by done. cbn.
           exists w. split; [done|]. split; [done|]. split; [lia|]. discriminate.
        -- rewrite (checkSingleRule_counted _ _ _ _ w) by done. cbn [allowed negb].
           set (w1 := mkWindow (count w + 1) (resetTime w) (firstRequest w)).
           destruct (IH (<[k := w1]> windows) w1
                       (if hits_ltb (Finite (limit r - (count w + 1))) (remainingHits mr)
                        then mkResult true (count w + 1)
                               (Finite (limit r - (count w + 1))) (resetTime w) None
                        else mr)
                       (lookup_insert_eq windows k w1) (fun _ => Hbefore))
             as (w' & Hw' & Hreset & Hcount & Hall).
           cbn [count resetTime w1] in *.
           exists w'. split; [exact Hw'|]. split; [exact Hreset|]. split; [lia|].
           intros Hallowed rule [<-|Hin] Hev'; [lia|].
           destruct (Hall Hallowed rule Hin Hev'). lia.
      * rewrite (evaluates_other r k request Hk) in Hnow.
        pose proof (checkSingleRule_other windows k _ r now Hk) as Hsame.
        destruct (checkSingleRule windows (generateKey request (key r)) r now)
          as [result windows1]. cbn [snd] in Hsame. rewrite Hw in Hsame.
        destruct (allowed result) eqn:Hres; cbn [negb].
        -- destruct (IH windows1 w
                       (if hits_ltb (remainingHits result) (remainingHits mr)
                        then result else mr) Hsame Hnow)
             as (w' & Hw' & Hreset & Hcount & Hall).
           exists w'. split; [done|]. split; [done|]. split; [done|].
           intros Hallowed rule [<-|Hin] Hev;
             [by rewrite (evaluates_other _ k request Hk) in Hev
             |by apply (Hall Hallowed rule Hin Hev)].
        -- exists w. cbn. split; [done|]. split; [done|]. split; [lia|].
           intros Hallowed. congruence.
Qed.

(** Inside one window the allowed calls are bounded by the room left,
    whatever the other rules of the calls. *)
Lemma allowedHits_within rules rule k calls : forall windows w,
  In rule rules ->
  windows !! k = Some w ->
  Forall (fun call => touches rules k (fst call) = true -> snd call < resetTime w) calls ->
  Z.of_nat (allowedHits windows rules rule k calls) <= Z.max 0 (limit rule - count w).
Proof.
  induction calls as [|[request now] calls IH]; intros windows w Hin Hw Hcalls.
  - cbn. lia.
  - apply Forall_cons in Hcalls as [Hnow Hcalls]. cbn [allowedHits fst snd] in *.
    destruct (checkRules_window k request now rules windows w
                (mkResult true 0 Infinity now None) Hw Hnow)
      as (w' & Hw' & Hreset & Hcount & Hall).
    fold (checkRateLimit windows request rules now) in Hw', Hall.
    destruct (checkRateLimit windows request rules now) as [result windows'].
    cbn [fst snd] in *. rewrite <- Hreset in Hcalls.
    specialize (IH windows' w' Hin Hw' Hcalls).
    destruct (evaluates rule k request && allowed result) eqn:Hhit.
    + apply andb_prop in Hhit as [Hev Hallowed].
      destruct (Hall Hallowed rule Hin Hev). lia.
    + lia.
Qed.

Lemma evaluates_touches rules rule k request :
  In rule rules -> evaluates rule k request = true -> touches rules k request = true.
Proof. intros Hin Hev. apply existsb_exists. eauto. Qed.

(** A call that no rule evaluates on [k] leaves the window of [k] alone. *)
Lemma checkRules_untouched k request now rules : forall windows mostRestrictive,
  touches rules k request = false ->
  snd (checkRules windows request rules now mostRestrictive) !! k = windows !! k.
Proof.
  induction rules as [|r rest IH]; intros windows mr Hno; cbn [checkRules]; [done|].
  cbn [touches existsb] in Hno. fold (touches rest k request) in Hno.
  apply orb_false_elim in Hno as [Hr Hrest].
  destruct (skipped r request) eqn:Hskip; [by apply IH|].
  assert (Hk : generateKey request (key r) <> k).
  { intros Hk. unfold evaluates in Hr. rewrite Hskip in Hr.
    by rewrite bool_decide_eq_true_2 in Hr. }
  pose proof (checkSingleRule_other windows k _ r now Hk) as Hsame.
  destruct (checkSingleRule windows (generateKey request (key r)) r now)
    as [result windows1]. cbn [snd] in Hsame.
  destruct (allowed result); cbn [negb snd]; [|done].
  by rewrite IH.
Qed.

(** The stored window of a key that a check of any list of rules does not
    find expired keeps its [resetTime] and [firstRequest], and is counted
    at most once for each rule of the list. *)
Lemma checkRules_kept k request now rules : forall windows w mostRestrictive,
  windows !! k = Some w -> now < resetTime w ->
  exists w',
    snd (checkRules windows request rules now mostRestrictive) !! k = Some w' /\
    resetTime w' = resetTime w /\ firstRequest w' = firstRequest w /\
    count w <= count w' <= count w + Z.of_nat (length rules).
Proof.
  induction rules as [|r rest IH]; intros windows w mr Hw Hnow; cbn [checkRules].
  - exists w. cbn. repeat split; (done || lia).
  - destruct (skipped r request).
    + destruct (IH windows w mr Hw Hnow) as (w' & Hw' & Hreset & Hfirst & Hcount).
      exists w'. cbn [length]. repeat split; (done || lia).
    + destruct (decide (generateKey request (key r) = k)) as [Hk|Hk].
      * rewrite Hk. destruct (Z.le_gt_cases (limit r) (count w)) as [Hfull|Hroom].
        -- rewrite (checkSingleRule_denied _ _ _ _ w) by done. cbn.
           exists w. repeat split; (done || lia).
        -- rewrite (checkSingleRule_counted _ _ _ _ w) by done. cbn [allowed negb].
           set (w1 := mkWindow (count w + 1) (resetTime w) (firstRequest w)).
           destruct (IH (<[k := w1]> windows) w1
                       (if hits_ltb (Finite (limit r - (count w + 1))) (remainingHits mr)
                        then mkResult true (count w + 1)
                               (Finite (limit r - (count w + 1))) (resetTime w) None
                        else mr)
                       (lookup_insert_eq windows k w1) Hnow)
             as (w' & Hw' & Hreset & Hfirst & Hcount).
           cbn [count resetTime firstRequest w1 length] in *.
           exists w'. repeat split; (done || lia).
      * pose proof (checkSingleRule_other windows k _ r now Hk) as Hsame.
        destruct (checkSingleRule windows (generateKey request (key r)) r now)
          as [result windows1]. cbn [snd] in Hsame. rewrite Hw in Hsame.
        destruct (allowed result); cbn [negb].
        -- destruct (IH windows1 w
                       (if hits_ltb (remainingHits result) (remainingHits mr)
                        then result else mr) Hsame Hnow)
             as (w' & Hw' & Hreset & Hfirst & Hcount).
           exists w'. cbn [length]. repeat split; (done || lia).
        -- exists w. cbn. repeat split; (done || lia).
Qed.

(** The rule and the window behind a denial of [checkSingleRule]. *)
Lemma checkSingleRule_denial windows k rule now :
  allowed (fst (checkSingleRule windows k rule now)) = false ->
  exists w,
    snd (checkSingleRule windows k rule now) !! k = Some w /\
    limit rule <= count w /\
    (0 < window rule -> now < resetTime w) /\
    fst (checkSingleRule windows k rule now) =
    mkResult false (count w) (Finite 0) (resetTime w)
      (Some (Math_ceil_div (resetTime w - now) 1000)).
Proof.
  unfold checkSingleRule.
  destruct (windows !! k) as [w|] eqn:Hw;
    [destruct (Z.leb_spec (resetTime w) now)|];
    match goal with |- context [limit rule <=? ?c] => destruct (Z.leb_spec (limit rule) c) end;
    cbn; try discriminate; intros _; eexists;
    (split; [first [apply lookup_insert_eq | exact Hw]|]);
    cbn; (split; [done|]); (split; [lia|done]).
Qed.

(** A denial of [checkRateLimit] is the denial of one rule of the list:
    the result is the state of the window on which that rule was
    evaluated, which is stored and full. *)
Lemma checkRules_denial request now rules : forall windows mostRestrictive,
  allowed mostRestrictive = true ->
  allowed (fst (checkRules windows request rules now mostRestrictive)) = false ->
  exists rule k w,
    In rule rules /\ evaluates rule k request = true /\
    snd (checkRules windows request rules now mostRestrictive) !! k = Some w /\
    limit rule <= count w /\
    (0 < window rule -> now < resetTime w) /\
    fst (checkRules windows request rules now mostRestrictive) =
    mkResult false (count w) (Finite 0) (resetTime w)
      (Some (Math_ceil_div (resetTime w - now) 1000)).
Proof.
  induction rules as [|r rest IH]; intros windows mr Hmr; cbn [checkRules].
  - cbn. congruence.
  - destruct (skipped r request) eqn:Hskip.
    + intros Hdenied. destruct (IH windows mr Hmr Hdenied) as (rule & k & w & Hin & H).
      exists rule, k, w. split; [by right|exact H].
    + pose proof (checkSingleRule_denial windows (generateKey request (key r)) r now)
        as Hsingle.
      destruct (checkSingleRule windows (generateKey request (key r)) r now)
        as [result windows1]. cbn [fst snd] in Hsingle.
      destruct (allowed result) eqn:Hres; cbn [negb].
      * intros Hdenied.
        destruct (IH windows1 (if hits_ltb (remainingHits result) (remainingHits mr)
                               then result else mr)) as (rule & k & w & Hin & H);
          [by destruct (hits_ltb _ _)|exact Hdenied|].
        exists rule, k, w. split; [by right|exact H].
      * intros _. destruct (Hsingle eq_refl) as (w & Hw & Hfull & Hlive & Hresult).
        exists r, (generateKey request (key r)), w. split; [by left|].
        split; [|done]. unfold evaluates. rewrite Hskip.
        by rewrite bool_decide_eq_true_2.
Qed.

(** A stored window of key [k] seen from a time [now0]: it has reached its
    [resetTime] by [now0], or it lasts for [W] from [now0] on. *)
Definition opening (now0 W : Z) (windows : gmap string RateLimitWindow) (k : string)
  : Prop :=
  forall w, windows !! k = Some w ->
    resetTime w <= now0 \/ (now0 + W <= resetTime w /\ 0 <= count w).

Lemma expired_opening now0 W windows k :
  expired windows k now0 -> opening now0 W windows k.
Proof. unfold expired, opening. intros Hexp w Hw. rewrite Hw in Hexp. by left. Qed.

(** One rule with a window of at least [W], checked during the [W] after
    [now0]: the window that it leaves stored lasts through these [W], and
    if the check is allowed the rule has a limit of at least one and the
    window has been counted. *)
Lemma checkSingleRule_opening windows k rule now now0 W :
  opening now0 W windows k -> now0 <= now < now0 + W -> W <= window rule ->
  exists w1,
    snd (checkSingleRule windows k rule now) !! k = Some w1 /\
    now0 + W <= resetTime w1 /\ 0 <= count w1 /\
    (allowed (fst (checkSingleRule windows k rule now)) = true ->
     1 <= limit rule /\ 1 <= count w1).
Proof.
  intros Hop Hnow HW.
  destruct (windows !! k) as [w|] eqn:Hw.
  - destruct (Z.le_gt_cases (resetTime w) now) as [Hexp|Hlive].
    + rewrite checkSingleRule_fresh by (unfold expired; by rewrite Hw).
      destruct (Z.leb_spec (limit rule) 0); cbn; eexists;
        (split; [apply lookup_insert_eq|]); cbn; repeat split; (lia || discriminate).
    + destruct (Hop w Hw) as [?|[Hreset Hcount]]; [lia|].
      destruct (Z.le_gt_cases (limit rule) (count w)) as [Hfull|Hroom].
      * rewrite (checkSingleRule_denied _ _ _ _ w) by done. cbn.
        exists w. repeat split; (done || lia || discriminate).
      * rewrite (checkSingleRule_counted _ _ _ _ w) by done. cbn.
        eexists. split; [apply lookup_insert_eq|]. cbn. repeat split; lia.
  - rewrite checkSingleRule_fresh by (unfold expired; by rewrite Hw).
    destruct (Z.leb_spec (limit rule) 0); cbn; eexists;
      (split; [apply lookup_insert_eq|]); cbn; repeat split; (lia || discriminate).
Qed.

(** One [checkRateLimit] call with any list of rules, made during the [W]
    after [now0], when every rule of the list that is evaluated on [k] has
    a window of at least [W]: the stored window of [k] stays expired at
    [now0] or lasts through these [W]; and if the call is allowed, every
    rule evaluated on [k] has a limit of at least one and the window has
    been opened and counted. *)
Lemma checkRules_opening k request now now0 W rules : forall windows mostRestrictive,
  (forall r, In r rules -> evaluates r k request = true -> W <= window r) ->
  (touches rules k request = true -> now0 <= now < now0 + W) ->
  opening now0 W windows k ->
  opening now0 W (snd (checkRules windows request rules now mostRestrictive)) k /\
  (allowed (fst (checkRules windows request rules now mostRestrictive)) = true ->
   forall rule, In rule rules -> evaluates rule k request = true ->
     1 <= limit rule /\
     exists w',
       snd (checkRules windows request rules now mostRestrictive) !! k = Some w' /\
       now0 + W <= resetTime w' /\ 1 <= count w').
Proof.
  induction rules as [|r rest IH]; intros windows mr Hwin Hnow Hop; cbn [checkRules].
  - split; [exact Hop|]. by intros _ rule [].
  - cbn [touches existsb] in Hnow. fold (touches rest k request) in Hnow.
    assert (Hwin' : forall r', In r' rest -> evaluates r' k request = true -> W <= window r')
      by (intros r' Hin; apply Hwin; by right).
    destruct (skipped r request) eqn:Hskip.
    + rewrite (evaluates_skipped r k request Hskip) in Hnow.
      destruct (IH windows mr Hwin' Hnow Hop) as [Hop' Hall].
      split; [exact Hop'|].
      intros Hallowed rule [<-|Hin] Hev;
        [by rewrite (evaluates_skipped _ k request Hskip) in Hev
        |by apply (Hall Hallowed rule Hin Hev)].
    + destruct (decide (generateKey request (key r) = k)) as [Hk|Hk].
      * assert (Hev : evaluates r k request = true).
        { unfold evaluates. rewrite Hskip. by rewrite bool_decide_eq_true_2. }
        rewrite Hev in Hnow. specialize (Hnow eq_refl) as Hduring. rewrite Hk.
        destruct (checkSingleRule_opening windows k r now now0 W Hop Hduring
                    (Hwin r (or_introl eq_refl) Hev))
          as (w1 & Hw1 & Hreset1 & Hcount1 & Hall1).
        destruct (checkSingleRule windows k r now) as [result windows1].
        cbn [fst snd] in *.
        assert (Hop1 : opening now0 W windows1 k).
        { intros w Hw. right. assert (w = w1) as -> by congruence. done. }
        destruct (allowed result) eqn:Hres; cbn [negb];
          [|cbn [fst snd]; split; [exact Hop1|intros; congruence]].
        destruct (IH windows1 (if hits_ltb (remainingHits result) (remainingHits mr)
                               then result else mr) Hwin' (fun _ => Hduring) Hop1)
          as [Hop' Hall].
        split; [exact Hop'|].
        intros Hallowed rule [<-|Hin] Hev'; [|by apply (Hall Hallowed rule Hin Hev')].
        destruct (Hall1 eq_refl) as [Hlimit Hcounted]. split; [exact Hlimit|].
        destruct (checkRules_kept k request now rest windows1 w1
                    (if hits_ltb (remainingHits result) (remainingHits mr)
                     then result else mr) Hw1 ltac:(lia))
          as (w' & Hw' & Hreset & _ & Hcount).
        exists w'. split; [exact Hw'|]. lia.
      * rewrite (evaluates_other r k request Hk) in Hnow.
        pose proof (checkSingleRule_other windows k _ r now Hk) as Hsame.
        destruct (checkSingleRule windows (generateKey request (key r)) r now)
          as [result windows1]. cbn [snd] in Hsame.
        assert (Hop1 : opening now0 W windows1 k).
        { intros w Hw. apply Hop. by rewrite <- Hsame. }
        destruct (allowed result) eqn:Hres; cbn [negb];
          [|cbn [fst snd]; split; [exact Hop1|intros; congruence]].
        destruct (IH windows1 (if hits_ltb (remainingHits result) (remainingHits mr)
                               then result else mr) Hwin' Hnow Hop1)
          as [Hop' Hall].
        split; [exact Hop'|].
        intros Hallowed rule [<-|Hin] Hev;
          [by rewrite (evaluates_other _ k request Hk) in Hev
          |by apply (Hall Hallowed rule Hin Hev)].
Qed.

(** From a time [now0] at which the window of [k] is expired or lasts for
    [W] more, the calls made during the [W] after [now0] with any list of
    rules holding [rule], in which the rules evaluated on [k] have windows
    of at least [W], are allowed at most [limit rule] times on [k]. *)
Lemma allowedHits_opening rules rule k now0 W calls : forall windows,
  0 <= limit rule ->
  In rule rules ->
  (forall r request, In r rules -> evaluates r k request = true -> W <= window r) ->
  opening now0 W windows k ->
  Forall (fun call => touches rules k (fst call) = true ->
                      now0 <= snd call < now0 + W) calls ->
  Z.of_nat (allowedHits windows rules rule k calls) <= limit rule.
Proof.
  induction calls as [|[request now] calls IH]; intros windows HL Hin Hwin Hop Hcalls.
  - cbn. lia.
  - apply Forall_cons in Hcalls as [Hnow Hcalls]. cbn [allowedHits fst snd] in *.
    destruct (checkRules_opening k request now now0 W rules windows
                (mkResult true 0 Infinity now None)
                (fun r Hr Hev => Hwin r request Hr Hev) Hnow Hop)
      as [Hop' Hall].
    fold (checkRateLimit windows request rules now) in Hop', Hall.
    destruct (checkRateLimit windows request rules now) as [result windows'].
    cbn [fst snd] in *.
    destruct (evaluates rule k request && allowed result) eqn:Hhit.
    + apply andb_prop in Hhit as [Hev Hallowed].
      destruct (Hall Hallowed rule Hin Hev) as (Hlimit & w' & Hw' & Hreset & Hcount).
      assert (Hrest : Forall (fun call => touches rules k (fst call) = true ->
                                          snd call < resetTime w') calls).
      { eapply Forall_impl; [exact Hcalls|]. intros call Hcall Ht.
        specialize (Hcall Ht). lia. }
      pose proof (allowedHits_within rules rule k calls windows' w' Hin Hw' Hrest). lia.
    + specialize (IH windows' HL Hin Hwin Hop' Hcalls). lia.
Qed.

(** A check that finds the window of [k] expired, with a list of rules in
    which [rule] is the first one evaluated on [k], and that is allowed:
    the window stored is a fresh one of [rule], counted once for [rule]
    and at most once for each rule after it. *)
Lemma checkRules_restart k request now rule after : forall before windows mostRestrictive,
  touches before k request = false ->
  evaluates rule k request = true ->
  0 < window rule ->
  expired windows k now ->
  allowed (fst (checkRules windows request (before ++ rule :: after) now mostRestrictive))
  = true ->
  exists w',
    snd (checkRules windows request (before ++ rule :: after) now mostRestrictive) !! k
    = Some w' /\
    resetTime w' = now + window rule /\ firstRequest w' = now /\
    1 <= count w' <= 1 + Z.of_nat (length after).
Proof.
  intros before. induction before as [|r rest IH];
    intros windows mr Hno Hev HW Hexp; cbn [app checkRules].
  - pose proof (evaluates_true _ _ _ Hev) as [Hskip Hkey]. rewrite Hskip, Hkey.
    rewrite (checkSingleRule_fresh _ _ _ _ Hexp).
    destruct (Z.leb_spec (limit rule) 0); cbn [allowed negb fst]; [discriminate|].
    intros _.
    set (w1 := mkWindow 1 (now + window rule) now).
    destruct (checkRules_kept k request now after (<[k := w1]> windows) w1
                (if hits_ltb (Finite (limit rule - 1)) (remainingHits mr)
                 then mkResult true 1 (Finite (limit rule - 1)) (now + window rule) None
                 else mr)
                (lookup_insert_eq windows k w1) ltac:(cbn; lia))
      as (w' & Hw' & Hreset & Hfirst & Hcount).
    cbn [count resetTime firstRequest w1] in *.
    exists w'. repeat split; (done || lia).
  - cbn [touches existsb] in Hno. fold (touches rest k request) in Hno.
    apply orb_false_elim in Hno as [Hr Hrest].
    destruct (skipped r request) eqn:Hskip; [by apply IH|].
    assert (Hk : generateKey request (key r) <> k).
    { intros Hk. unfold evaluates in Hr. rewrite Hskip in Hr.
      by rewrite bool_decide_eq_true_2 in Hr. }
    pose proof (checkSingleRule_other windows k _ r now Hk) as Hsame.
    destruct (checkSingleRule windows (generateKey request (key r)) r now)
      as [result windows1]. cbn [snd] in Hsame.
    destruct (allowed result) eqn:Hres; cbn [negb fst]; [|intros; congruence].
    apply IH; try done. unfold expired in *. by rewrite Hsame.
Qed.

(** C1 -- Rate-limit linearity.  For a rule with limit [L >= 0] and
    window [W], and the calls of [checkRateLimit] that evaluate the rule on
    one window key [k]:
    - from the check that opens a window (none stored, or the stored one
      has reached its [resetTime]) through every later check made before
      that window's [resetTime = now + W], whatever other calls are
      interleaved, at most [L] checks are allowed;
    - the same bound holds when the rule is checked together with any
      other rules: from any stored window on, as long as no call touching
      the window comes at or after its [resetTime], at most [L] calls that
      evaluate the rule are allowed;
    - once the stored count has reached [L], a check before [resetTime] is
      denied with [remainingHits = 0] and
      [retryAfter = ceil((resetTime - now) / 1000)], and leaves the window
      as it was, so that every further such check is denied too;
    - a check at or after [resetTime] (or with no window stored) stores a
      fresh window with [resetTime = now + W], [firstRequest = now] and a
      count restarted from zero (1 after this check is counted, 0 when
      [L = 0] denies it);
    and with any list of rules that holds the rule, as the interceptor
    passes them:
    - from a time [now0] at which no live window of [k] is stored, the
      calls made during the [W'] that follow are allowed at most [L] times
      for the rule, whatever rules come before and after it in the list
      and whichever of them deny; [W'] is [W] when the rule is the only
      one evaluated on [k], and in general any length that the windows of
      the rules evaluated on [k] all reach (the stored window is opened by
      the first of them that is checked, with its own length);
    - once the stored count has reached [L], a check before [resetTime] is
      denied, with [remainingHits = 0] and [retryAfter] the seconds up to
      the [resetTime] of the result, and the window of [k] is kept with
      its [resetTime] and a count still at [L] or above;
    - an allowed check in which the rule is the first of the list
      evaluated on [k], and that finds no live window, stores a window
      with [resetTime = now + W], [firstRequest = now] and a count
      restarted: one for the rule, and at most one for each rule after
      it. *)
Theorem C1_rate_limit_linearity (rule : RateLimitRule) (k : string) :
  0 <= limit rule ->
  (forall windows request now calls,
      evaluates rule k request = true ->
      expired windows k now ->
      Forall (fun call => evaluates rule k (fst call) = true ->
                          snd call < now + window rule) calls ->
      Z.of_nat (allowedHits windows [rule] rule k ((request, now) :: calls))
      <= limit rule)
  /\
  (forall rules windows w calls,
      In rule rules ->
      windows !! k = Some w -> 0 <= count w ->
      Forall (fun call => touches rules k (fst call) = true ->
                          snd call < resetTime w) calls ->
      Z.of_nat (allowedHits windows rules rule k calls) <= limit rule)
  /\
  (forall windows request now w,
      evaluates rule k request = true ->
      windows !! k = Some w -> now < resetTime w -> limit rule <= count w ->
      checkRateLimit windows request [rule] now =
      (mkResult false (count w) (Finite 0) (resetTime w)
         (Some (Math_ceil_div (resetTime w - now) 1000)), windows))
  /\
  (forall windows request now,
      evaluates rule k request = true ->
      expired windows k now ->
      snd (checkRateLimit windows request [rule] now) !! k =
      Some (mkWindow (if limit rule <=? 0 then 0 else 1) (now + window rule) now))
  /\
  (forall rules windows now0 W calls,
      In rule rules ->
      (forall r request, In r rules -> evaluates r k request = true -> W <= window r) ->
      expired windows k now0 ->
      Forall (fun call => touches rules k (fst call) = true ->
                          now0 <= snd call < now0 + W) calls ->
      Z.of_nat (allowedHits windows rules rule k calls) <= limit rule)
  /\
  (forall rules windows request now w,
      In rule rules ->
      evaluates rule k request = true ->
      windows !! k = Some w -> now < resetTime w -> limit rule <= count w ->
      allowed (fst (checkRateLimit windows request rules now)) = false /\
      remainingHits (fst (checkRateLimit windows request rules now)) = Finite 0 /\
      retryAfter (fst (checkRateLimit windows request rules now)) =
      Some (Math_ceil_div
              (res_resetTime (fst (checkRateLimit windows request rules now)) - now) 1000) /\
      exists w',
        snd (checkRateLimit windows request rules now) !! k = Some w' /\
        resetTime w' = resetTime w /\ firstRequest w' = firstRequest w /\
        limit rule <= count w')
  /\
  (forall before after windows request now,
      touches before k request = false ->
      evaluates rule k request = true ->
      0 < window rule ->
      expired windows k now ->
      allowed (fst (checkRateLimit windows request (before ++ rule :: after) now)) = true ->
      exists w',
        snd (checkRateLimit windows request (before ++ rule :: after) now) !! k = Some w' /\
        resetTime w' = now + window rule /\ firstRequest w' = now /\
        1 <= count w' <= 1 + Z.of_nat (length after)).
Proof.
  intros HL. split; [|split; [|split; [|split; [|split; [|split]]]]].
  - intros windows request now calls Hev Hexp Hcalls.
    assert (Hcalls' : forall w, resetTime w = now + window rule ->
              Forall (fun call => touches [rule] k (fst call) = true ->
                                  snd call < resetTime w) calls).
    { intros w ->. eapply Forall_impl; [exact Hcalls|].
      intros call Hcall. cbn. by rewrite orb_false_r. }
    cbn [allowedHits]. rewrite Hev.
    apply evaluates_true in Hev as [Hskip Hkey].
    rewrite checkRateLimit_single, Hskip, Hkey.
    rewrite (checkSingleRule_fresh _ _ _ _ Hexp).
    destruct (Z.leb_spec (limit rule) 0) as [Hzero|Hpos]; cbn [allowed andb].
    + pose proof (allowedHits_within [rule] rule k calls _
                    (mkWindow 0 (now + window rule) now) (or_introl eq_refl)
                    (lookup_insert_eq windows k _)
                    (Hcalls' (mkWindow 0 (now + window rule) now) eq_refl)) as Hbound.
      cbn [count] in Hbound. lia.
    + pose proof (allowedHits_within [rule] rule k calls _
                    (mkWindow 1 (now + window rule) now) (or_introl eq_refl)
                    (lookup_insert_eq windows k _)
                    (Hcalls' (mkWindow 1 (now + window rule) now) eq_refl)) as Hbound.
      cbn [count] in Hbound. lia.
  - intros rules windows w calls Hin Hw Hcount Hcalls.
    pose proof (allowedHits_within rules rule k calls windows w Hin Hw Hcalls). lia.
  - intros windows request now w Hev Hw Hnow Hfull.
    apply evaluates_true in Hev as [Hskip Hkey].
    rewrite checkRateLimit_single, Hskip, Hkey.
    by apply checkSingleRule_denied.
  - intros windows request now Hev Hexp.
    apply evaluates_true in Hev as [Hskip Hkey].
    rewrite checkRateLimit_single, Hskip, Hkey.
    rewrite (checkSingleRule_fresh _ _ _ _ Hexp).
    destruct (limit rule <=? 0); cbn; apply lookup_insert_eq.
  - intros rules windows now0 W calls Hin Hwin Hexp Hcalls.
    apply (allowedHits_opening rules rule k now0 W calls windows HL Hin Hwin);
      [|exact Hcalls].
    by apply expired_opening.
  - intros rules windows request now w Hin Hev Hw Hnow Hfull.
    destruct (checkRules_window k request now rules windows w
                (mkResult true 0 Infinity now None) Hw (fun _ => Hnow))
      as (w1 & _ & _ & _ & Hall).
    destruct (checkRules_kept k request now rules windows w
                (mkResult true 0 Infinity now None) Hw Hnow)
      as (w' & Hw' & Hreset & Hfirst & Hcount).
    fold (checkRateLimit windows request rules now) in Hall, Hw'.
    assert (Hdenied : allowed (fst (checkRateLimit windows request rules now)) = false).
    { destruct (allowed (fst (checkRateLimit windows request rules now))); [|done].
      destruct (Hall eq_refl rule Hin Hev). lia. }
    destruct (checkRules_denial request now rules windows
                (mkResult true 0 Infinity now None) eq_refl Hdenied)
      as (r & k' & w2 & _ & _ & _ & _ & _ & Hresult).
    fold (checkRateLimit windows request rules now) in Hresult.
    split; [exact Hdenied|]. rewrite Hresult. cbn.
    split; [done|]. split; [done|].
    exists w'. repeat split; (done || lia).
  - intros before after windows request now Hno Hev HW Hexp Hallowed.
    by apply checkRules_restart.
Qed.

(** ** Sweep and reset of the windows *)

(** [cleanupExpiredWindows()]: the windows with [now >= resetTime] are
    deleted. *)
Definition cleanupExpiredWindows (windows : gmap string RateLimitWindow) (now : Z)
  : gmap string RateLimitWindow :=
  filter (fun kw => now < resetTime kw.2) windows.

(** [resetRateLimit(key)]: the result of [Map.delete]. *)
Definition resetRateLimit (windows : gmap string RateLimitWindow) (k : string)
  : bool * gmap string RateLimitWindow :=
  (bool_decide (is_Some (windows !! k)), delete k windows).

(** [resetAllRateLimits()] *)
Definition resetAllRateLimits (windows : gmap string RateLimitWindow)
  : gmap string RateLimitWindow := ∅.

(** The results of a sequence of [checkRateLimit] calls. *)
Fixpoint checkAll (windows : gmap string RateLimitWindow) (rules : list RateLimitRule)
    (calls : list (Request * Z)) : list RateLimitResult :=
  match calls with
  | [] => []
  | (request, now) :: rest =>
      let '(result, windows') := checkRateLimit windows request rules now in
      result :: checkAll windows' rules rest
  end.

(** The window that a check at [now] finds under a key: a stored window
    that has reached its [resetTime] counts for none. *)
Definition live (now : Z) (stored : option RateLimitWindow) : option RateLimitWindow :=
  match stored with
  | Some w => if resetTime w <=? now then None else Some w
  | None => None
  end.

(** Two maps that a check at [now] cannot tell apart. *)
Definition agree (now : Z) (m1 m2 : gmap string RateLimitWindow) : Prop :=
  forall k, live now (m1 !! k) = live now (m2 !! k).

Lemma agree_insert now m1 m2 k w :
  agree now m1 m2 -> agree now (<[k := w]> m1) (<[k := w]> m2).
Proof.
  intros Hm k'. destruct (decide (k = k')) as [->|Hne].
  - by rewrite !lookup_insert_eq.
  - by rewrite !lookup_insert_ne.
Qed.

Lemma agree_later now now' m1 m2 : now <= now' -> agree now m1 m2 -> agree now' m1 m2.
Proof.
  intros Hle Hm k. specialize (Hm k). unfold live in *.
  destruct (m1 !! k) as [w1|], (m2 !! k) as [w2|];
    repeat match goal with
           | H : context [resetTime ?w <=? ?t] |- _ => destruct (Z.leb_spec (resetTime w) t)
           | |- context [resetTime ?w <=? ?t] => destruct (Z.leb_spec (resetTime w) t)
           end; try congruence; try lia.
  - injection Hm as ->. lia.
  - injection Hm as ->. lia.
Qed.

Lemma agree_cleanup windows now : agree now (cleanupExpiredWindows windows now) windows.
Proof.
  intros k. unfold cleanupExpiredWindows, live.
  destruct (windows !! k) as [w|] eqn:Hw.
  - destruct (Z.leb_spec (resetTime w) now) as [Hexp|Hlive].
    + rewrite map_lookup_filter_None_2; [done|]. right. intros w' Hw'. cbn.
      assert (w' = w) as -> by congruence. lia.
    + rewrite (map_lookup_filter_Some_2 _ _ _ w) by done.
      destruct (Z.leb_spec (resetTime w) now); [lia|done].
  - rewrite map_lookup_filter_None_2; [done|]. by left.
Qed.

Lemma checkSingleRule_agree now m1 m2 k rule :
  agree now m1 m2 ->
  fst (checkSingleRule m1 k rule now) = fst (checkSingleRule m2 k rule now) /\
  agree now (snd (checkSingleRule m1 k rule now)) (snd (checkSingleRule m2 k rule now)).
Proof.
  intros Hm. pose proof (Hm k) as Hk. unfold checkSingleRule, live in *.
  destruct (m1 !! k) as [w1|], (m2 !! k) as [w2|];
    repeat match goal with
           | H : context [resetTime ?w <=? now] |- _ =>
               destruct (Z.leb_spec (resetTime w) now)
           end; try discriminate; try (injection Hk as ->);
    cbn; repeat match goal with
           | |- context [if ?b then _ else _] => destruct b
           end; cbn; auto using agree_insert.
Qed.

Lemma checkRules_agree now request rules : forall m1 m2 mostRestrictive,
  agree now m1 m2 ->
  fst (checkRules m1 request rules now mostRestrictive) =
  fst (checkRules m2 request rules now mostRestrictive) /\
  agree now (snd (checkRules m1 request rules now mostRestrictive))
    (snd (checkRules m2 request rules now mostRestrictive)).
Proof.
  induction rules as [|rule rest IH]; intros m1 m2 mr Hm; cbn [checkRules].
  - by split.
  - destruct (skipped rule request); [by apply IH|].
    destruct (checkSingleRule_agree now m1 m2 (generateKey request (key rule)) rule Hm)
      as [Hres Hout].
    destruct (checkSingleRule m1 _ rule now) as [r1 o1],
             (checkSingleRule m2 _ rule now) as [r2 o2].
    cbn [fst snd] in *. subst r2.
    destruct (allowed r1); cbn [negb]; [by apply IH|by split].
Qed.

(** X1 -- the periodic sweep is invisible to the callers: after
    [cleanupExpiredWindows] at [now], any sequence of [checkRateLimit]
    calls made at non-decreasing times from [now] on gets the results it
    would have got without the sweep. *)
Theorem cleanup_preserves_decisions (rules : list RateLimitRule)
    (windows : gmap string RateLimitWindow) (now : Z) (calls : list (Request * Z)) :
  Sorted Z.le (now :: List.map snd calls) ->
  checkAll (cleanupExpiredWindows windows now) rules calls = checkAll windows rules calls.
Proof.
  pose proof (agree_cleanup windows now) as Hm. revert Hm.
  generalize (cleanupExpiredWindows windows now). intros m1. revert m1 windows now.
  induction calls as [|[request t] calls IH]; intros m1 m2 now Hm Hsorted; cbn; [done|].
  apply Sorted_inv in Hsorted as [Hsorted Hfirst]. cbn in Hfirst.
  apply HdRel_inv in Hfirst.
  destruct (checkRules_agree t request rules m1 m2 (mkResult true 0 Infinity t None)
              (agree_later _ _ _ _ Hfirst Hm)) as [Hres Hout].
  fold (checkRateLimit m1 request rules t) in Hres, Hout.
  fold (checkRateLimit m2 request rules t) in Hres, Hout.
  destruct (checkRateLimit m1 request rules t) as [r1 o1],
           (checkRateLimit m2 request rules t) as [r2 o2].
  cbn [fst snd] in *. subst r2. f_equal. by apply (IH o1 o2 t).
Qed.

(** [Math.ceil(x / 1000)] seconds cover [x] milliseconds, and no more than
    needed. *)
Lemma Math_ceil_div_1000 x :
  x <= 1000 * Math_ceil_div x 1000 < x + 1000.
Proof. unfold Math_ceil_div. Z.div_mod_to_equations. lia. Qed.

(** Calls that come before the [resetTime] of a stored window, when they
    are evaluated on it, leave it stored with its [resetTime]. *)
Lemma runChecks_kept rules k calls : forall windows w,
  windows !! k = Some w ->
  Forall (fun call => touches rules k (fst call) = true -> snd call < resetTime w) calls ->
  exists w', runChecks windows rules calls !! k = Some w' /\ resetTime w' = resetTime w.
Proof.
  induction calls as [|[request now] calls IH]; intros windows w Hw Hcalls.
  - exists w. by split.
  - apply Forall_cons in Hcalls as [Hnow Hcalls]. cbn [runChecks fst snd] in *.
    destruct (checkRules_window k request now rules windows w
                (mkResult true 0 Infinity now None) Hw Hnow)
      as (w1 & Hw1 & Hreset1 & _).
    fold (checkRateLimit windows request rules now) in Hw1.
    rewrite <- Hreset1 in Hcalls.
    destruct (IH _ w1 Hw1 Hcalls) as (w' & Hw' & Hreset').
    exists w'. split; [exact Hw'|]. congruence.
Qed.

(** X2 -- the [retryAfter] of a denial reaches the reset of the window
    that denied.  A denial of [checkRateLimit], with any list of rules,
    is the denial of one rule of the list: the window on which that rule
    was evaluated is stored and full, and the result carries its count and
    its [resetTime].  [retryAfter] seconds after the denial that
    [resetTime] has been reached, by less than a second, and the wait is
    of at least one second when the rule's window is positive.  Whatever
    calls are made in between, as long as those evaluated on that window
    come before its [resetTime], the window is then expired, and the check
    of the rule that denied opens a fresh window and is allowed as its
    first hit when the limit is at least one.  Nothing is said of the
    other rules of the list: they are checked again by the retry and any
    of them may deny it. *)
Theorem retryAfter_reaches_reset (rules : list RateLimitRule)
    (windows : gmap string RateLimitWindow) (request : Request) (now : Z) :
  allowed (fst (checkRateLimit windows request rules now)) = false ->
  exists rule k w seconds,
    In rule rules /\ evaluates rule k request = true /\
    snd (checkRateLimit windows request rules now) !! k = Some w /\
    limit rule <= count w /\
    fst (checkRateLimit windows request rules now) =
    mkResult false (count w) (Finite 0) (resetTime w) (Some seconds) /\
    resetTime w <= now + 1000 * seconds < resetTime w + 1000 /\
    (0 < window rule -> 1 <= seconds) /\
    forall between later,
      Forall (fun call => touches rules k (fst call) = true ->
                          snd call < resetTime w) between ->
      now + 1000 * seconds <= later ->
      let windows' :=
        runChecks (snd (checkRateLimit windows request rules now)) rules between in
      expired windows' k later /\
      (1 <= limit rule ->
       checkSingleRule windows' k rule later =
       (mkResult true 1 (Finite (limit rule - 1)) (later + window rule) None,
        <[k := mkWindow 1 (later + window rule) later]> windows')).
Proof.
  intros Hdenied.
  destruct (checkRules_denial request now rules windows
              (mkResult true 0 Infinity now None) eq_refl Hdenied)
    as (rule & k & w & Hin & Hev & Hw & Hfull & Hlive & Hresult).
  fold (checkRateLimit windows request rules now) in Hw, Hresult.
  pose proof (Math_ceil_div_1000 (resetTime w - now)) as Hceil.
  exists rule, k, w, (Math_ceil_div (resetTime w - now) 1000).
  split; [exact Hin|]. split; [exact Hev|]. split; [exact Hw|]. split; [exact Hfull|].
  split; [exact Hresult|]. split; [lia|]. split; [intros HW; specialize (Hlive HW); lia|].
  intros between later Hbetween Hlater windows'.
  assert (Hexp : expired windows' k later).
  { destruct (runChecks_kept rules k between _ w Hw Hbetween) as (w' & Hw' & Hreset).
    unfold expired, windows'. rewrite Hw'. lia. }
  split; [exact Hexp|]. intros Hlimit.
  rewrite (checkSingleRule_fresh _ _ _ _ Hexp).
  destruct (Z.leb_spec (limit rule) 0); [lia|done].
Qed.

(** X3 -- [resetRateLimit(key)] answers whether a window was stored,
    leaves the other keys alone, and gives the key its full quota back:
    the next check of a rule with a limit of at least one on that key is
    allowed as the first hit of a fresh window, whatever the count was. *)
Theorem resetRateLimit_restores_quota (rule : RateLimitRule) (k : string)
    (windows : gmap string RateLimitWindow) (request : Request) (now : Z) :
  evaluates rule k request = true ->
  1 <= limit rule ->
  (fst (resetRateLimit windows k) = true <-> is_Some (windows !! k)) /\
  (forall k', k' <> k -> snd (resetRateLimit windows k) !! k' = windows !! k') /\
  fst (checkRateLimit (snd (resetRateLimit windows k)) request [rule] now) =
  mkResult true 1 (Finite (limit rule - 1)) (now + window rule) None.
Proof.
  intros Hev Hlimit. pose proof (evaluates_true _ _ _ Hev) as [Hskip Hkey].
  split; [apply bool_decide_eq_true|]. split.
  - intros k' Hne. cbn. by rewrite lookup_delete_ne.
  - rewrite checkRateLimit_single, Hskip, Hkey. cbn [resetRateLimit snd].
    rewrite checkSingleRule_fresh.
    + destruct (Z.leb_spec (limit rule) 0); [lia|done].
    + unfold expired. by rewrite lookup_delete_eq.
Qed.


End Service.

Arguments mkRule {Request} _ _ _ _.
Arguments key {Request} _.
Arguments limit {Request} _.
Arguments window {Request} _.
Arguments skipIf {Request} _.

(** A rule of 2 requests per minute on the literal key [global]. *)
Definition global2 : RateLimitRule (Request := unit) := mkRule "global" 2 60000 None.

Example global2_third_denied :
  fst (checkRateLimit (fun _ p => p)
         (runChecks (fun _ p => p) ∅ [global2] [(tt, 0); (tt, 10)]) tt [global2] 20)
  = mkResult false 2 (Finite 0) 60000 (Some 60).
Proof. vm_compute. reflexivity. Qed.

Example global2_after_reset :
  fst (checkRateLimit (fun _ p => p)
         (runChecks (fun _ p => p) ∅ [global2] [(tt, 0); (tt, 10)]) tt [global2] 60000)
  = mkResult true 1 (Finite 1) 120000 None.
Proof. vm_compute. reflexivity. Qed.

(** A second rule, on another key, checked before [global2]. *)
Definition perIp5 : RateLimitRule (Request := unit) := mkRule "ip" 5 1000 None.

Example global2_with_perIp5 :
  List.map allowed
    (checkAll (fun _ p => p) ∅ [perIp5; global2]
       [(tt, 0); (tt, 10); (tt, 20); (tt, 59999)]) = [true; true; false; false].
Proof. vm_compute. reflexivity. Qed.

Lemma C1_rate_limit_linearity_witness :
  Z.of_nat (allowedHits (fun _ p => p) ∅ [global2] global2 "global"
              [(tt, 0); (tt, 10); (tt, 20); (tt, 59999)]) <= 2 /\
  Z.of_nat (allowedHits (fun _ p => p) ∅ [perIp5; global2] global2 "global"
              [(tt, 0); (tt, 10); (tt, 20); (tt, 59999)]) <= 2.
Proof.
  pose proof (C1_rate_limit_linearity (fun _ p => p) global2 "global"
                ltac:(cbn; lia)) as (Hsingle & _ & _ & _ & Hlist & _).
  split.
  - apply Hsingle.
    + reflexivity.
    + exact I.
    + repeat constructor; cbn; lia.
  - apply (Hlist [perIp5; global2] ∅ 0 60000).
    + right. by left.
    + intros r [] [<-|[<-|[]]]; cbn; (discriminate || lia).
    + exact I.
    + repeat constructor; cbn; lia.
Defined.

(** The window of [global2] after two hits at 0 and 10 ms. *)
Definition global2_full : gmap string RateLimitWindow :=
  runChecks (fun _ p => p) ∅ [global2] [(tt, 0); (tt, 10)].

Lemma cleanup_preserves_decisions_witness :
  checkAll (fun _ p => p) (cleanupExpiredWindows global2_full 60000) [global2]
    [(tt, 60000); (tt, 60001); (tt, 60002)] =
  checkAll (fun _ p => p) global2_full [global2]
    [(tt, 60000); (tt, 60001); (tt, 60002)].
Proof.
  apply cleanup_preserves_decisions.
  repeat (constructor; try (cbn; lia)).
Defined.

(** A rule with a short window before one with a long window: two hits
    at 0 and 10 ms, the second denied by the short rule. *)
Definition burst1 : RateLimitRule (Request := unit) := mkRule "burst" 1 1000 None.
Definition minute1 : RateLimitRule (Request := unit) := mkRule "minute" 1 60000 None.

Definition burst_hit : gmap string RateLimitWindow :=
  runChecks (fun _ p => p) ∅ [burst1; minute1] [(tt, 0)].

Lemma retryAfter_reaches_reset_witness :
  exists rule k w seconds,
    In rule [burst1; minute1] /\ evaluates (fun _ p => p) rule k tt = true /\
    snd (checkRateLimit (fun _ p => p) burst_hit tt [burst1; minute1] 10) !! k = Some w /\
    limit rule <= count w /\
    fst (checkRateLimit (fun _ p => p) burst_hit tt [burst1; minute1] 10) =
    mkResult false (count w) (Finite 0) (resetTime w) (Some seconds) /\
    resetTime w <= 10 + 1000 * seconds < resetTime w + 1000 /\
    (0 < window rule -> 1 <= seconds) /\
    forall between later,
      Forall (fun call => touches (fun _ p => p) [burst1; minute1] k (fst call) = true ->
                          snd call < resetTime w) between ->
      10 + 1000 * seconds <= later ->
      let windows' :=
        runChecks (fun _ p => p)
          (snd (checkRateLimit (fun _ p => p) burst_hit tt [burst1; minute1] 10))
          [burst1; minute1] between in
      expired windows' k later /\
      (1 <= limit rule ->
       checkSingleRule windows' k rule later =
       (mkResult true 1 (Finite (limit rule - 1)) (later + window rule) None,
        <[k := mkWindow 1 (later + window rule) later]> windows')).
Proof.
  apply (retryAfter_reaches_reset (fun _ p => p) [burst1; minute1] burst_hit tt 10).
  reflexivity.
Defined.

(** The denial at 10 ms asks for one second; the retry at 1010 ms passes
    the rule that denied and is denied by the other rule of the list, for
    59 seconds more, after it has been counted in the fresh window of the
    first rule. *)
Example retry_denied_by_other_rule :
  fst (checkRateLimit (fun _ p => p) burst_hit tt [burst1; minute1] 10) =
  mkResult false 1 (Finite 0) 1000 (Some 1) /\
  fst (checkRateLimit (fun _ p => p)
         (snd (checkRateLimit (fun _ p => p) burst_hit tt [burst1; minute1] 10))
         tt [burst1; minute1] 1010) =
  mkResult false 1 (Finite 0) 60000 (Some 59) /\
  snd (checkRateLimit (fun _ p => p)
         (snd (checkRateLimit (fun _ p => p) burst_hit tt [burst1; minute1] 10))
         tt [burst1; minute1] 1010) !! "burst" = Some (mkWindow 1 2010 1010).
Proof. vm_compute. repeat split; reflexivity. Qed.

Lemma resetRateLimit_restores_quota_witness :
  fst (checkRateLimit (fun _ p => p) (snd (resetRateLimit global2_full "global"))
         tt [global2] 20) =
  mkResult true 1 (Finite (2 - 1)) (20 + 60000) None.
Proof.
  apply (resetRateLimit_restores_quota (fun _ p => p) global2 "global" global2_full tt 20).
  - reflexivity.
  - cbn. lia.
Defined.


(** ** Keys and rules *)

(** [interface FastifyRequest], the parts that the limiter reads.  Header
    values are the strings that Node gives for single headers; [user] is
    the object attached by the authentication guard. *)
Record User := mkUser { sub : option string }.

Record FastifyRequest := mkRequest {
  url : string;
  method : string;
  headers : gmap string string;
  ip : option string;
  user : option User;
}.

(** [s.split(sep)[0]] *)
Fixpoint splitFirst (sep : ascii) (s : string) : string :=
  match s with
  | EmptyString => EmptyString
  | String c s' => if Ascii.eqb c sep then EmptyString else String c (splitFirst sep s')
  end.

(** The white space and line terminators of [trim] among one-byte
    characters: tab to carriage return, space and no-break space. *)
Definition isSpace (c : ascii) : bool :=
  let n := nat_of_ascii c in
  ((9 <=? n)%nat && (n <=? 13)%nat) || (n =? 32)%nat || (n =? 160)%nat.

Fixpoint trimStart (s : string) : string :=
  match s with
  | EmptyString => EmptyString
  | String c s' => if isSpace c then trimStart s' else s
  end.

Fixpoint trimEnd (s : string) : string :=
  match s with
  | EmptyString => EmptyString
  | String c s' =>
      match trimEnd s' with
      | EmptyString => if isSpace c then EmptyString else String c EmptyString
      | kept => String c kept
      end
  end.

(** [s.trim()] *)
Definition trim (s : string) : string := trimEnd (trimStart s).

(** [getClientIp(request)] *)
Definition getClientIp (request : FastifyRequest) : string :=
  match headers request !! "x-forwarded-for" with
  | Some (String a s) => orElse (Some (trim (splitFirst "," (String a s)))) "unknown"
  | _ =>
      match headers request !! "x-real-ip" with
      | Some (String a s) => String a s
      | _ => orElse (ip request) "unknown"
      end
  end.

(** [key.replace(new RegExp(escaped, 'g'), value)] for a pattern without
    metacharacters left: every occurrence of [pattern], from left to right
    and without overlap, becomes [value]; [skip] counts the characters of a
    matched occurrence still to pass.  JavaScript expands the [$]
    sequences of a replacement, so [value] is inserted as it is only when
    it holds no [$]. *)
Fixpoint replaceFrom (pattern value : string) (skip : nat) (s : string) : string :=
  match s with
  | EmptyString => EmptyString
  | String c s' =>
      match skip with
      | S skip' => replaceFrom pattern value skip' s'
      | O =>
          if startsWith pattern s
          then value +:+ replaceFrom pattern value (String.length pattern - 1) s'
          else String c (replaceFrom pattern value 0 s')
      end
  end.

Definition replaceAll (pattern value s : string) : string := replaceFrom pattern value 0 s.

(** [request.user?.sub || 'anonymous'] *)
Definition userOf (request : FastifyRequest) : string :=
  orElse (match user request with Some u => sub u | None => None end) "anonymous".

(** [request.url.split('?')[0] || '/'] *)
Definition pathOf (request : FastifyRequest) : string :=
  orElse (Some (splitFirst "?" (url request))) "/".

(** [generateKey(request, keyPattern)]: the five replacements, in the
    order of the entries of [replacements]. *)
Definition generateKey (request : FastifyRequest) (keyPattern : string) : string :=
  let key1 := replaceAll "{ip}" (getClientIp request) keyPattern in
  let key2 := replaceAll "{user}" (userOf request) key1 in
  let key3 := replaceAll "{path}" (pathOf request) key2 in
  let key4 := replaceAll "{method}" (method request) key3 in
  replaceAll "{user-agent}" (orElse (headers request !! "user-agent") "unknown") key4.

(** The argument of [createRules]: a limit and a window for each kind. *)
Record RulesConfig := mkRulesConfig {
  global : option (Z * Z);
  perUser : option (Z * Z);
  perIP : option (Z * Z);
  perEndpoint : option (Z * Z);
}.

(** [createRules(config)] *)
Definition createRules (config : RulesConfig) : list (RateLimitRule (Request := FastifyRequest)) :=
  (match global config with
   | Some (l, w) => [mkRule "global" l w None]
   | None => []
   end) ++
  (match perUser config with
   | Some (l, w) =>
       [mkRule "user:{user}" l w
          (Some (fun request => negb (bool_decide (is_Some (user request)))))]
   | None => []
   end) ++
  (match perIP config with
   | Some (l, w) => [mkRule "ip:{ip}" l w None]
   | None => []
   end) ++
  (match perEndpoint config with
   | Some (l, w) => [mkRule "endpoint:{method}:{path}" l w None]
   | None => []
   end).

(** [createEndpointRules(endpointRules)], over the entries of the object
    in their order. *)
Definition createEndpointRules (endpointRules : list (string * (Z * Z)))
  : list (RateLimitRule (Request := FastifyRequest)) :=
  List.map
    (fun entry =>
       mkRule ("endpoint:" +:+ fst entry) (fst (snd entry)) (snd (snd entry))
         (Some (fun request => negb (startsWith (fst entry) (url request)))))
    endpointRules.

(** *** The interceptor: [rate-limit/rate-limit.interceptor.ts] *)

(** [shouldSkipRateLimit(url)] *)
Definition shouldSkipRateLimit (url : string) : bool :=
  existsb (fun p => startsWith p url) ["/health"; "/metrics"; "/favicon.ico"].

(** The endpoint limits of [getRateLimitRules]. *)
Definition endpointLimits : list (string * (Z * Z)) :=
  [("/api/v1/auth/login", (5, 300000));
   ("/api/v1/auth/register", (3, 300000));
   ("/api/users", (50, 60000));
   ("/api/orders", (30, 60000))].

(** [getRateLimitRules(request)] *)
Definition getRateLimitRules : list (RateLimitRule (Request := FastifyRequest)) :=
  createRules (mkRulesConfig (Some (1000, 60000)) (Some (200, 60000)) (Some (100, 60000)) None)
  ++ createEndpointRules endpointLimits.

(** What [intercept] does with the request: it lets the handler run, or
    answers 429 with the [retryAfter] of the result. *)
Inductive Intercepted :=
| Handled
| TooManyRequests (seconds : option Z).

(** [intercept(context, next)] with [now = Date.now()]. *)
Definition intercept (windows : gmap string RateLimitWindow) (request : FastifyRequest)
    (now : Z) : Intercepted * gmap string RateLimitWindow :=
  if shouldSkipRateLimit (url request) then (Handled, windows)
  else
    let '(rateLimitResult, windows') :=
      checkRateLimit generateKey windows request getRateLimitRules now in
    if negb (allowed rateLimitResult)
    then (TooManyRequests (retryAfter rateLimitResult), windows')
    else (Handled, windows').

(** *** Replacement *)

Fixpoint allChars (p : ascii -> bool) (s : string) : bool :=
  match s with
  | EmptyString => true
  | String c s' => p c && allChars p s'
  end.

(** No opening brace: nothing for a later replacement to find. *)
Definition braceFree (s : string) : Prop :=
  allChars (fun c => negb (Ascii.eqb c "{")) s = true.

(** Neither an opening brace nor a [$]. *)
Definition clean (s : string) : Prop :=
  allChars (fun c => negb (Ascii.eqb c "{") && negb (Ascii.eqb c "$")) s = true.

(** Neither white space nor a comma. *)
Definition token (s : string) : Prop :=
  allChars (fun c => negb (isSpace c) && negb (Ascii.eqb c ",")) s = true.

Lemma allChars_app p s1 s2 :
  allChars p (s1 +:+ s2) = allChars p s1 && allChars p s2.
Proof.
  induction s1 as [|c s1 IH]; [done|].
  change (String c s1 +:+ s2) with (String c (s1 +:+ s2)).
  cbn [allChars]. by rewrite IH, andb_assoc.
Qed.

Lemma allChars_impl (p q : ascii -> bool) s :
  (forall c, p c = true -> q c = true) -> allChars p s = true -> allChars q s = true.
Proof.
  intros Hpq. induction s as [|c s IH]; [done|]. cbn [allChars].
  intros [Hc Hs]%andb_prop. by rewrite (Hpq c Hc), IH.
Qed.

Lemma clean_braceFree s : clean s -> braceFree s.
Proof. apply allChars_impl. by intros c [? _]%andb_prop. Qed.

Lemma string_app_nil_r (s : string) : s +:+ "" = s.
Proof.
  induction s as [|c s IH]; [done|].
  change (String c s +:+ "") with (String c (s +:+ "")). by rewrite IH.
Qed.

Lemma string_app_assoc (s1 s2 s3 : string) : (s1 +:+ s2) +:+ s3 = s1 +:+ (s2 +:+ s3).
Proof.
  induction s1 as [|c s1 IH]; [done|].
  change ((String c s1 +:+ s2) +:+ s3) with (String c ((s1 +:+ s2) +:+ s3)).
  change (String c s1 +:+ (s2 +:+ s3)) with (String c (s1 +:+ (s2 +:+ s3))).
  by rewrite IH.
Qed.

(** A replacement of a placeholder passes over a text without brace. *)
Lemma replaceAll_prefix pattern value prefix s :
  braceFree prefix ->
  replaceAll (String "{" pattern) value (prefix +:+ s) =
  prefix +:+ replaceAll (String "{" pattern) value s.
Proof.
  unfold braceFree, replaceAll. induction prefix as [|c prefix IH]; [done|].
  cbn [allChars]. intros [Hc Hp]%andb_prop. apply negb_true_iff in Hc.
  change (String c prefix +:+ s) with (String c (prefix +:+ s)).
  change (String c prefix +:+ replaceFrom (String "{" pattern) value 0 s)
    with (String c (prefix +:+ replaceFrom (String "{" pattern) value 0 s)).
  cbn [replaceFrom startsWith]. rewrite Ascii.eqb_sym, Hc. cbn [andb].
  by rewrite IH.
Qed.

Lemma replaceAll_braceFree pattern value s :
  braceFree s -> replaceAll (String "{" pattern) value s = s.
Proof.
  intros Hs. rewrite <- (string_app_nil_r s) at 1.
  rewrite replaceAll_prefix by done. by rewrite string_app_nil_r.
Qed.

Lemma replaceFrom_skip pattern value passed s :
  replaceFrom pattern value (String.length passed) (passed +:+ s) =
  replaceFrom pattern value 0 s.
Proof.
  induction passed as [|c passed IH]; [done|].
  change (String c passed +:+ s) with (String c (passed +:+ s)).
  cbn [String.length replaceFrom]. exact IH.
Qed.

(** At an occurrence of the placeholder. *)
Lemma replaceAll_match c pattern value s :
  replaceAll (String c pattern) value (String c pattern +:+ s) =
  value +:+ replaceAll (String c pattern) value s.
Proof.
  unfold replaceAll.
  change (String c pattern +:+ s) with (String c (pattern +:+ s)).
  cbn [replaceFrom].
  assert (Hstart : startsWith (String c pattern) (String c (pattern +:+ s)) = true).
  { apply startsWith_spec. by exists s. }
  assert (Hlen : (String.length (String c pattern) - 1)%nat = String.length pattern)
    by (cbn [String.length]; lia).
  rewrite Hstart, Hlen. by rewrite replaceFrom_skip.
Qed.

(** A key pattern without placeholder is its own key. *)
Lemma generateKey_literal request keyPattern :
  braceFree keyPattern -> generateKey request keyPattern = keyPattern.
Proof.
  intros Hk. unfold generateKey. cbn zeta.
  by rewrite !(replaceAll_braceFree _ _ keyPattern Hk).
Qed.

Lemma generateKey_user request :
  clean (userOf request) ->
  generateKey request "user:{user}" = "user:" +:+ userOf request.
Proof.
  intros Hu%clean_braceFree. unfold generateKey. cbn zeta.
  change (replaceAll "{ip}" (getClientIp request) "user:{user}") with "user:{user}".
  change "user:{user}" with ("user:" +:+ ("{user}" +:+ "")) at 1.
  rewrite replaceAll_prefix, replaceAll_match by done.
  change (replaceAll "{user}" (userOf request) "") with "".
  rewrite string_app_nil_r.
  assert (Hkey : braceFree ("user:" +:+ userOf request)).
  { unfold braceFree. by rewrite allChars_app, Hu. }
  by rewrite !(replaceAll_braceFree _ _ _ Hkey).
Qed.

Lemma generateKey_ip request :
  clean (getClientIp request) ->
  generateKey request "ip:{ip}" = "ip:" +:+ getClientIp request.
Proof.
  intros Ha%clean_braceFree. unfold generateKey. cbn zeta.
  change "ip:{ip}" with ("ip:" +:+ ("{ip}" +:+ "")) at 1.
  rewrite replaceAll_prefix, replaceAll_match by done.
  change (replaceAll "{ip}" (getClientIp request) "") with "".
  rewrite string_app_nil_r.
  assert (Hkey : braceFree ("ip:" +:+ getClientIp request)).
  { unfold braceFree. by rewrite allChars_app, Ha. }
  by rewrite !(replaceAll_braceFree _ _ _ Hkey).
Qed.

Lemma generateKey_endpoint request :
  clean (method request) -> clean (pathOf request) ->
  generateKey request "endpoint:{method}:{path}" =
  "endpoint:" +:+ method request +:+ ":" +:+ pathOf request.
Proof.
  intros Hm%clean_braceFree Hp%clean_braceFree. unfold generateKey. cbn zeta.
  change (replaceAll "{ip}" (getClientIp request) "endpoint:{method}:{path}")
    with "endpoint:{method}:{path}".
  change (replaceAll "{user}" (userOf request) "endpoint:{method}:{path}")
    with "endpoint:{method}:{path}".
  change (replaceAll "{path}" (pathOf request) "endpoint:{method}:{path}")
    with ("endpoint:" +:+ ("{method}" +:+ (":" +:+ (pathOf request +:+ "")))).
  rewrite string_app_nil_r.
  rewrite replaceAll_prefix, replaceAll_match by done.
  assert (Hrest : braceFree (":" +:+ pathOf request)).
  { unfold braceFree. by rewrite allChars_app, Hp. }
  rewrite (replaceAll_braceFree _ _ _ Hrest).
  assert (Hkey : braceFree ("endpoint:" +:+ method request +:+ ":" +:+ pathOf request)).
  { unfold braceFree. rewrite !allChars_app, Hm, Hp. done. }
  by rewrite (replaceAll_braceFree _ _ _ Hkey).
Qed.

(** X4 -- the keys of the rules of [createRules], for request values free
    of [{] and [$]: the global key is the same for every request, the
    per-user key is [user:] followed by the user, the per-address key
    [ip:] followed by the client address and the per-endpoint key
    [endpoint:], the method, a colon and the path; so two requests of
    different users are never counted in the same per-user window. *)
Theorem createRules_keys (request : FastifyRequest) :
  generateKey request "global" = "global" /\
  (clean (userOf request) ->
   generateKey request "user:{user}" = "user:" +:+ userOf request) /\
  (clean (getClientIp request) ->
   generateKey request "ip:{ip}" = "ip:" +:+ getClientIp request) /\
  (clean (method request) -> clean (pathOf request) ->
   generateKey request "endpoint:{method}:{path}" =
   "endpoint:" +:+ method request +:+ ":" +:+ pathOf request) /\
  (forall request',
     clean (userOf request) -> clean (userOf request') ->
     userOf request' <> userOf request ->
     generateKey request' "user:{user}" <> generateKey request "user:{user}").
Proof.
  split; [by apply generateKey_literal|].
  split; [apply generateKey_user|]. split; [apply generateKey_ip|].
  split; [apply generateKey_endpoint|].
  intros request' Hu Hu' Hdiff. rewrite !generateKey_user by done.
  intros Heq. by apply string_app_inv_head in Heq.
Qed.

(** *** The client address *)

Lemma splitFirst_token sep address rest :
  allChars (fun c => negb (Ascii.eqb c sep)) address = true ->
  rest = EmptyString \/ startsWith (String sep EmptyString) rest = true ->
  splitFirst sep (address +:+ rest) = address.
Proof.
  intros Ha Hrest. induction address as [|c address IH].
  - destruct Hrest as [->|Hrest]; [done|].
    destruct rest as [|c rest]; [done|]. cbn [startsWith] in Hrest.
    apply andb_prop in Hrest as [Hc _].
    change ("" +:+ String c rest) with (String c rest). cbn [splitFirst].
    by rewrite Ascii.eqb_sym, Hc.
  - cbn [allChars] in Ha. apply andb_prop in Ha as [Hc Ha]. apply negb_true_iff in Hc.
    change (String c address +:+ rest) with (String c (address +:+ rest)).
    cbn [splitFirst]. rewrite Hc. by rewrite IH.
Qed.

Lemma trimStart_token s :
  allChars (fun c => negb (isSpace c)) s = true -> trimStart s = s.
Proof.
  destruct s as [|c s]; [done|]. cbn [allChars trimStart].
  intros [Hc _]%andb_prop. apply negb_true_iff in Hc. by rewrite Hc.
Qed.

Lemma trimEnd_token s :
  allChars (fun c => negb (isSpace c)) s = true -> trimEnd s = s.
Proof.
  induction s as [|c s IH]; [done|]. cbn [allChars trimEnd].
  intros [Hc Hs]%andb_prop. apply negb_true_iff in Hc. rewrite (IH Hs), Hc.
  by destruct s.
Qed.

(** X5 -- the client address is whatever the request says it is: with an
    [x-forwarded-for] header whose first element is a non-empty token,
    [getClientIp] returns that token, whatever the address of the
    connection and the [x-real-ip] header; so the per-address key of a
    request is chosen by its sender, and requests with different first
    elements are counted in different windows even over one connection. *)
Theorem client_address_from_header (request : FastifyRequest) (address rest : string) :
  address <> EmptyString -> token address ->
  rest = EmptyString \/ startsWith "," rest = true ->
  headers request !! "x-forwarded-for" = Some (address +:+ rest) ->
  getClientIp request = address /\
  (clean address -> generateKey request "ip:{ip}" = "ip:" +:+ address) /\
  (forall request' address',
     clean address -> clean address' -> address' <> address ->
     getClientIp request' = address' ->
     generateKey request' "ip:{ip}" <> generateKey request "ip:{ip}").
Proof.
  intros Hne Htoken Hrest Hheader.
  assert (Hip : getClientIp request = address).
  { unfold getClientIp. rewrite Hheader.
    destruct address as [|a address]; [done|].
    change (String a address +:+ rest) with (String a (address +:+ rest)).
    cbv beta iota.
    change (String a (address +:+ rest)) with (String a address +:+ rest).
    rewrite splitFirst_token; [|eapply allChars_impl; [|exact Htoken]|done].
    - unfold trim. rewrite trimStart_token, trimEnd_token; [done| |];
        (eapply allChars_impl; [|exact Htoken]); by intros c [? _]%andb_prop.
    - by intros c [_ ?]%andb_prop. }
  split; [exact Hip|].
  assert (Hkey : forall r a, clean a -> getClientIp r = a ->
                             generateKey r "ip:{ip}" = "ip:" +:+ a).
  { intros r a Ha Hr. rewrite <- Hr. apply generateKey_ip. by rewrite Hr. }
  split; [intros Hclean; by apply Hkey|].
  intros request' address' Hclean Hclean' Hdiff Hip'.
  rewrite (Hkey request address Hclean Hip), (Hkey request' address' Hclean' Hip').
  intros Heq. by apply string_app_inv_head in Heq.
Qed.

(** *** Endpoint limits *)

(** X6 -- the endpoint limits of the interceptor are shared by all
    clients: the window of an endpoint is keyed by the endpoint alone, so
    once it holds as many hits as the limit, every request to that
    endpoint is answered 429 until the window's reset time, whoever sends
    it. *)
Theorem endpoint_limit_is_shared (windows : gmap string RateLimitWindow)
    (request : FastifyRequest) (now : Z) (endpoint : string) (limit' window' : Z)
    (w : RateLimitWindow) :
  (endpoint, (limit', window')) ∈ endpointLimits ->
  startsWith endpoint (url request) = true ->
  windows !! ("endpoint:" +:+ endpoint) = Some w ->
  now < resetTime w -> limit' <= count w ->
  exists seconds, fst (intercept windows request now) = TooManyRequests seconds.
Proof.
  intros Hentry Hurl Hw Hnow Hfull.
  set (rule := mkRule (Request := FastifyRequest) ("endpoint:" +:+ endpoint) limit' window'
                 (Some (fun request => negb (startsWith endpoint (url request))))).
  assert (Hrule : In rule getRateLimitRules).
  { unfold getRateLimitRules. apply in_or_app. right. unfold createEndpointRules.
    apply list_elem_of_In in Hentry.
    apply (in_map (fun entry =>
             mkRule ("endpoint:" +:+ fst entry) (fst (snd entry)) (snd (snd entry))
               (Some (fun request => negb (startsWith (fst entry) (url request))))))
      in Hentry. exact Hentry. }
  assert (Hfacts : shouldSkipRateLimit (url request) = false /\
                   braceFree ("endpoint:" +:+ endpoint)).
  { apply startsWith_spec in Hurl as [after ->].
    unfold endpointLimits in Hentry. rewrite !elem_of_cons, elem_of_nil in Hentry.
    destruct Hentry as [[= -> _ _]|[[= -> _ _]|[[= -> _ _]|[[= -> _ _]|[]]]]];
      by split. }
  destruct Hfacts as [Hskip Hbrace].
  assert (Hev : evaluates generateKey rule ("endpoint:" +:+ endpoint) request = true).
  { unfold evaluates, skipped. cbn [skipIf key rule]. rewrite Hurl. cbn [negb andb].
    apply bool_decide_eq_true. by apply generateKey_literal. }
  unfold intercept. rewrite Hskip.
  destruct (checkRules_window generateKey ("endpoint:" +:+ endpoint) request now
              getRateLimitRules windows w (mkResult true 0 Infinity now None) Hw
              (fun _ => Hnow)) as (w' & _ & _ & _ & Hall).
  fold (checkRateLimit generateKey windows request getRateLimitRules now) in Hall.
  destruct (checkRateLimit generateKey windows request getRateLimitRules now)
    as [rateLimitResult windows'].
  cbn [fst] in Hall. destruct (allowed rateLimitResult); cbn [negb fst]; [|eauto].
  destruct (Hall eq_refl rule Hrule Hev) as [Hroom _]. cbn [limit rule] in Hroom. lia.
Qed.

(** The seven rules that the interceptor passes have windows of a minute
    or more: from a time at which the window of a key is expired, the calls
    of the minute that follows are allowed at most [limit] times for any
    one of the rules on that key, whichever rules of the list deny. *)
Lemma interceptor_minute_limit rule k windows now0 calls :
  In rule getRateLimitRules ->
  expired windows k now0 ->
  Forall (fun call => touches generateKey getRateLimitRules k (fst call) = true ->
                      now0 <= snd call < now0 + 60000) calls ->
  Z.of_nat (allowedHits generateKey windows getRateLimitRules rule k calls) <= limit rule.
Proof.
  intros Hin Hexp Hcalls.
  apply (allowedHits_opening generateKey getRateLimitRules rule k now0 60000 calls windows).
  - cbn in Hin. repeat (destruct Hin as [<-|Hin]; [cbn; lia|]). destruct Hin.
  - exact Hin.
  - intros r request Hr _. cbn in Hr.
    repeat (destruct Hr as [<-|Hr]; [cbn; lia|]). destruct Hr.
  - by apply expired_opening.
  - exact Hcalls.
Qed.

(** A request of user [u-1] through a proxy, and one of [u-2]. *)
Definition viaProxy : FastifyRequest :=
  mkRequest "/api/v1/auth/login?next=home" "POST"
    {[ "x-forwarded-for" := "203.0.113.7, 10.0.0.1" ]} (Some "10.0.0.1")
    (Some (mkUser (Some "u-1"))).

Definition otherUser : FastifyRequest :=
  mkRequest "/api/users" "GET" ∅ (Some "10.0.0.1") (Some (mkUser (Some "u-2"))).

(** Seven login requests in seven milliseconds, through the seven rules of
    the interceptor: the endpoint rule admits five. *)
Example login_five_of_seven :
  List.map allowed
    (checkAll generateKey ∅ getRateLimitRules
       [(viaProxy, 0); (viaProxy, 1); (viaProxy, 2); (viaProxy, 3); (viaProxy, 4);
        (viaProxy, 5); (viaProxy, 6)])
  = [true; true; true; true; true; false; false] /\
  allowedHits generateKey ∅ getRateLimitRules
    (mkRule "endpoint:/api/v1/auth/login" 5 300000
       (Some (fun request => negb (startsWith "/api/v1/auth/login" (url request)))))
    "endpoint:/api/v1/auth/login"
    [(viaProxy, 0); (viaProxy, 1); (viaProxy, 2); (viaProxy, 3); (viaProxy, 4);
     (viaProxy, 5); (viaProxy, 6)] = 5%nat.
Proof. vm_compute. split; reflexivity. Qed.

Lemma createRules_keys_witness :
  clean (userOf viaProxy) /\ clean (userOf otherUser) /\
  generateKey otherUser "user:{user}" <> generateKey viaProxy "user:{user}".
Proof.
  assert (H1 : clean (userOf viaProxy)) by reflexivity.
  assert (H2 : clean (userOf otherUser)) by reflexivity.
  split; [exact H1|]. split; [exact H2|].
  destruct (createRules_keys viaProxy) as (_ & _ & _ & _ & Hsep).
  apply Hsep; [exact H1|exact H2|discriminate].
Defined.

Lemma client_address_from_header_witness :
  token "203.0.113.7" /\
  headers viaProxy !! "x-forwarded-for" = Some ("203.0.113.7" +:+ ", 10.0.0.1") /\
  getClientIp viaProxy = "203.0.113.7".
Proof.
  assert (Ht : token "203.0.113.7") by reflexivity.
  assert (Hh : headers viaProxy !! "x-forwarded-for" = Some ("203.0.113.7" +:+ ", 10.0.0.1"))
    by (vm_compute; reflexivity).
  split; [exact Ht|]. split; [exact Hh|].
  apply (client_address_from_header viaProxy "203.0.113.7" ", 10.0.0.1");
    [discriminate|exact Ht|by right|exact Hh].
Defined.

(** Five hits on the login endpoint, counted until 300000. *)
Definition loginFull : gmap string RateLimitWindow :=
  {[ "endpoint:/api/v1/auth/login" := mkWindow 5 300000 0 ]}.

Lemma endpoint_limit_is_shared_witness :
  startsWith "/api/v1/auth/login" (url viaProxy) = true /\
  exists seconds, fst (intercept loginFull viaProxy 1000) = TooManyRequests seconds.
Proof.
  split; [reflexivity|].
  apply (endpoint_limit_is_shared loginFull viaProxy 1000 "/api/v1/auth/login" 5 300000
           (mkWindow 5 300000 0)).
  - apply list_elem_of_here.
  - reflexivity.
  - vm_compute. reflexivity.
  - cbn. lia.
  - cbn. lia.
Defined.


End RateLimit.

(* ===================================================================== *)
(** * Circuit breaker: [circuit-breaker/circuit-breaker.service.ts]       *)
(* ===================================================================== *)
Module CircuitBreaker.

(** [interface CircuitBreakerConfig] of [types/route.types.ts].  The
    optional [fallbackResponse] is of any type and is only passed on: it is
    kept as the text of its body, [None] and the empty text standing for
    the values that JavaScript takes for false ([undefined], [null],
    [false], [0] and the empty string). *)
Record CircuitBreakerConfig := mkConfig {
  enabled : bool;
  threshold : Z;
  timeout : Z;
  monitorWindow : Z;
  fallbackResponse : option string;
}.

Inductive CircuitBreakerState := CLOSED | OPEN | HALF_OPEN.

(** [interface CircuitBreakerStats]; a [Date] is its [getTime()]. *)
Record CircuitBreakerStats := mkStats {
  state : CircuitBreakerState;
  failureCount : Z;
  successCount : Z;
  lastFailureTime : option Z;
  lastSuccessTime : option Z;
  nextAttemptTime : option Z;
  totalRequests : Z;
  totalFailures : Z;
  totalSuccesses : Z;
}.

(** [interface CircuitBreakerInstance] *)
Record CircuitBreakerInstance := mkInstance {
  id : string;
  config : CircuitBreakerConfig;
  stats : CircuitBreakerStats;
  windowStart : Z;
  failureWindow : list Z;
}.

Definition with_stats (cb : CircuitBreakerInstance) (s : CircuitBreakerStats) :=
  mkInstance (id cb) (config cb) s (windowStart cb) (failureWindow cb).

Definition with_failureWindow (cb : CircuitBreakerInstance) (fw : list Z) :=
  mkInstance (id cb) (config cb) (stats cb) (windowStart cb) fw.

(** [generateKey(routeId, targetUrl)] *)
Definition generateKey (routeId targetUrl : string) : string :=
  routeId +:+ ":" +:+ targetUrl.

(** [createCircuitBreaker(id, config)], [now] being its [Date.now()]. *)
Definition createCircuitBreaker (key : string) (cfg : CircuitBreakerConfig) (now : Z) :=
  mkInstance key cfg (mkStats CLOSED 0 0 None None None 0 0 0) now [].

(** [getCircuitBreaker]: the instance of the key, created on first use
    ([created] is the clock reading of the creation). *)
Definition getCircuitBreaker (breakers : gmap string CircuitBreakerInstance)
    (routeId targetUrl : string) (cfg : CircuitBreakerConfig) (created : Z)
  : CircuitBreakerInstance * gmap string CircuitBreakerInstance :=
  let key := generateKey routeId targetUrl in
  match breakers !! key with
  | Some cb => (cb, breakers)
  | None =>
      let cb := createCircuitBreaker key cfg created in
      (cb, <[key := cb]> breakers)
  end.

(** [transitionToClosed] *)
Definition transitionToClosed (cb : CircuitBreakerInstance) : CircuitBreakerInstance :=
  let s := stats cb in
  with_failureWindow
    (with_stats cb
       (mkStats CLOSED 0 (successCount s) (lastFailureTime s) (lastSuccessTime s)
          None (totalRequests s) (totalFailures s) (totalSuccesses s)))
    [].

(** [transitionToOpen], [now] being the [Date.now()] it reads itself. *)
Definition transitionToOpen (cb : CircuitBreakerInstance) (cfg : CircuitBreakerConfig)
    (now : Z) : CircuitBreakerInstance :=
  let s := stats cb in
  with_stats cb
    (mkStats OPEN (failureCount s) (successCount s) (lastFailureTime s)
       (lastSuccessTime s) (Some (now + timeout cfg)) (totalRequests s)
       (totalFailures s) (totalSuccesses s)).

(** [transitionToHalfOpen] *)
Definition transitionToHalfOpen (cb : CircuitBreakerInstance) : CircuitBreakerInstance :=
  let s := stats cb in
  with_stats cb
    (mkStats HALF_OPEN (failureCount s) (successCount s) (lastFailureTime s)
       (lastSuccessTime s) None (totalRequests s) (totalFailures s)
       (totalSuccesses s)).

(** [cleanupWindow]: keeps the entries with [time > now - windowSize]. *)
Definition cleanupWindow (cb : CircuitBreakerInstance) (now windowSize : Z)
  : CircuitBreakerInstance :=
  let cutoffTime := now - windowSize in
  with_failureWindow cb (List.filter (fun time => cutoffTime <? time) (failureWindow cb)).

(** [canExecute]; [created] is read only when the instance is created,
    [now] is the [Date.now()] of the call. *)
Definition canExecute (breakers : gmap string CircuitBreakerInstance)
    (routeId targetUrl : string) (cfg : CircuitBreakerConfig) (created now : Z)
  : bool * gmap string CircuitBreakerInstance :=
  if negb (enabled cfg) then (true, breakers)
  else
    let '(cb, breakers1) := getCircuitBreaker breakers routeId targetUrl cfg created in
    match state (stats cb) with
    | CLOSED => (true, breakers1)
    | OPEN =>
        match nextAttemptTime (stats cb) with
        | Some t =>
            if t <=? now then
              (true, <[generateKey routeId targetUrl := transitionToHalfOpen cb]> breakers1)
            else (false, breakers1)
        | None => (false, breakers1)
        end
    | HALF_OPEN => (true, breakers1)
    end.

(** [recordSuccess] *)
Definition recordSuccess (breakers : gmap string CircuitBreakerInstance)
    (routeId targetUrl : string) (cfg : CircuitBreakerConfig) (created now : Z)
  : gmap string CircuitBreakerInstance :=
  if negb (enabled cfg) then breakers
  else
    let '(cb, breakers1) := getCircuitBreaker breakers routeId targetUrl cfg created in
    let s := stats cb in
    let cb1 :=
      with_stats cb
        (mkStats (state s) (failureCount s) (successCount s + 1) (lastFailureTime s)
           (Some now) (nextAttemptTime s) (totalRequests s + 1) (totalFailures s)
           (totalSuccesses s + 1)) in
    let cb2 := cleanupWindow cb1 now (monitorWindow cfg) in
    let cb3 :=
      match state (stats cb2) with
      | HALF_OPEN => transitionToClosed cb2
      | OPEN => transitionToClosed cb2
      | CLOSED => cb2
      end in
    <[generateKey routeId targetUrl := cb3]> breakers1.

(** [recordFailure]; [opened] is the [Date.now()] read by
    [transitionToOpen] when the call opens the breaker. *)
Definition recordFailure (breakers : gmap string CircuitBreakerInstance)
    (routeId targetUrl : string) (cfg : CircuitBreakerConfig) (created now opened : Z)
  : gmap string CircuitBreakerInstance :=
  if negb (enabled cfg) then breakers
  else
    let '(cb, breakers1) := getCircuitBreaker breakers routeId targetUrl cfg created in
    let s := stats cb in
    let cb1 :=
      with_failureWindow
        (with_stats cb
           (mkStats (state s) (failureCount s + 1) (successCount s) (Some now)
              (lastSuccessTime s) (nextAttemptTime s) (totalRequests s + 1)
              (totalFailures s + 1) (totalSuccesses s)))
        (failureWindow cb ++ [now]) in
    let cb2 := cleanupWindow cb1 now (monitorWindow cfg) in
    let cb3 :=
      if threshold cfg <=? Z.of_nat (length (failureWindow cb2))
      then transitionToOpen cb2 cfg opened
      else cb2 in
    <[generateKey routeId targetUrl := cb3]> breakers1.

(** [getStats(routeId, targetUrl)] *)
Definition getStats (breakers : gmap string CircuitBreakerInstance)
    (routeId targetUrl : string) : option CircuitBreakerStats :=
  stats <$> breakers !! generateKey routeId targetUrl.

(** The body returned by [getFallbackResponse]: the configured one, or the
    default object whose only computed field is [retryAfter]. *)
Inductive Fallback :=
| ConfiguredFallback (body : string)
| DefaultFallback (retryAfter : Z).

(** [getFallbackResponse(config)]: [config.fallbackResponse || {...}], the
    default object replacing a missing body and a falsy one alike. *)
Definition getFallbackResponse (cfg : CircuitBreakerConfig) : Fallback :=
  match fallbackResponse cfg with
  | Some (String c body) => ConfiguredFallback (String c body)
  | Some EmptyString | None => DefaultFallback (Math_ceil_div (timeout cfg) 1000)
  end.

Example getFallbackResponse_cases :
  getFallbackResponse (mkConfig true 3 5000 10000 None) = DefaultFallback 5 /\
  getFallbackResponse (mkConfig true 3 5000 10000 (Some "")) = DefaultFallback 5 /\
  getFallbackResponse (mkConfig true 3 4001 10000 None) = DefaultFallback 5 /\
  getFallbackResponse (mkConfig true 3 5000 10000 (Some "{code:503}"))
  = ConfiguredFallback "{code:503}".
Proof. repeat split; reflexivity. Qed.

(** The three clock readings of one [recordFailure] call. *)
Record FailureClock := mkClock { atCreate : Z; atCall : Z; atOpen : Z }.

(** A sequence of [recordFailure] calls on one (route, replica). *)
Fixpoint recordFailures (breakers : gmap string CircuitBreakerInstance)
    (routeId targetUrl : string) (cfg : CircuitBreakerConfig)
    (calls : list FailureClock) : gmap string CircuitBreakerInstance :=
  match calls with
  | [] => breakers
  | c :: rest =>
      recordFailures
        (recordFailure breakers routeId targetUrl cfg (atCreate c) (atCall c) (atOpen c))
        routeId targetUrl cfg rest
  end.

(** A sequence of [canExecute] calls; the answers and the final map. *)
Fixpoint canExecutes (breakers : gmap string CircuitBreakerInstance)
    (routeId targetUrl : string) (cfg : CircuitBreakerConfig)
    (calls : list (Z * Z)) : list bool * gmap string CircuitBreakerInstance :=
  match calls with
  | [] => ([], breakers)
  | (created, now) :: rest =>
      let '(b, breakers1) := canExecute breakers routeId targetUrl cfg created now in
      let '(bs, breakers2) := canExecutes breakers1 routeId targetUrl cfg rest in
      (b :: bs, breakers2)
  end.

(** ** The state machine of one breaker *)

(** The failure window and the state stored for a key; an absent instance
    is the one [getCircuitBreaker] would create: CLOSED, empty window. *)
Definition windowOf (breakers : gmap string CircuitBreakerInstance) (key : string) : list Z :=
  match breakers !! key with
  | Some cb => failureWindow cb
  | None => []
  end.

Definition stateOf (breakers : gmap string CircuitBreakerInstance) (key : string)
  : CircuitBreakerState :=
  match breakers !! key with
  | Some cb => state (stats cb)
  | None => CLOSED
  end.

Definition nextAttemptOf (breakers : gmap string CircuitBreakerInstance) (key : string)
  : option Z :=
  match breakers !! key with
  | Some cb => nextAttemptTime (stats cb)
  | None => None
  end.

(** The number of entries of a window that are later than [lo]. *)
Definition laterThan (lo : Z) (l : list Z) : nat :=
  length (List.filter (fun time => lo <? time) l).

Lemma laterThan_app lo l1 l2 :
  laterThan lo (l1 ++ l2) = (laterThan lo l1 + laterThan lo l2)%nat.
Proof. unfold laterThan. by rewrite List.filter_app, length_app. Qed.

Lemma laterThan_le_length lo l : (laterThan lo l <= length l)%nat.
Proof.
  unfold laterThan. induction l as [|x l IH]; cbn; [lia|].
  destruct (lo <? x); cbn; lia.
Qed.

(** Pruning with a cutoff not above [lo] keeps every entry later than [lo]. *)
Lemma laterThan_prune lo cutoff l :
  cutoff <= lo ->
  laterThan lo (List.filter (fun time => cutoff <? time) l) = laterThan lo l.
Proof.
  intros Hcut. unfold laterThan. induction l as [|x l IH]; cbn; [done|].
  destruct (Z.ltb_spec cutoff x), (Z.ltb_spec lo x); cbn;
    try destruct (Z.ltb_spec lo x); cbn; lia.
Qed.

Section OneBreaker.

Variables routeId targetUrl : string.
Variable cfg : CircuitBreakerConfig.
Hypothesis cfg_enabled : enabled cfg = true.

Let key := generateKey routeId targetUrl.

(** What one [recordFailure] leaves under the key. *)
Lemma recordFailure_spec breakers created now opened :
  let breakers' := recordFailure breakers routeId targetUrl cfg created now opened in
  let fw := List.filter (fun time => now - monitorWindow cfg <? time)
              (windowOf breakers key ++ [now]) in
  windowOf breakers' key = fw /\
  (threshold cfg <= Z.of_nat (length fw) ->
   stateOf breakers' key = OPEN /\
   nextAttemptOf breakers' key = Some (opened + timeout cfg)) /\
  (Z.of_nat (length fw) < threshold cfg ->
   stateOf breakers' key = stateOf breakers key /\
   nextAttemptOf breakers' key = nextAttemptOf breakers key).
Proof.
  unfold recordFailure, getCircuitBreaker, windowOf, stateOf, nextAttemptOf.
  rewrite cfg_enabled. fold key. cbn [negb].
  destruct (breakers !! key) as [cb|] eqn:Hcb; cbn -[Z.of_nat Z.leb Z.ltb];
    match goal with
    | |- context [threshold cfg <=? ?n] =>
        destruct (Z.leb_spec (threshold cfg) n) as [Hge|Hlt]
    end;
    rewrite ?lookup_insert_eq; cbn -[Z.of_nat Z.leb Z.ltb].
  all: split; [reflexivity|split; intros Hlen; try lia; split; reflexivity].
Qed.


Lemma recordFailures_app breakers calls1 calls2 :
  recordFailures breakers routeId targetUrl cfg (calls1 ++ calls2) =
  recordFailures (recordFailures breakers routeId targetUrl cfg calls1)
    routeId targetUrl cfg calls2.
Proof.
  revert breakers. induction calls1 as [|c calls1 IH]; intros breakers; cbn; [done|].
  apply IH.
Qed.

(** The calls of a burst fall in the interval [(lo, lo + monitorWindow]]. *)
Definition inBurst (lo : Z) (c : FailureClock) : Prop :=
  atCall c - monitorWindow cfg <= lo /\ lo < atCall c.

(** No failure of a burst is pruned while the burst lasts. *)
Lemma recordFailures_laterThan lo calls : forall breakers,
  Forall (inBurst lo) calls ->
  laterThan lo (windowOf (recordFailures breakers routeId targetUrl cfg calls) key) =
  (laterThan lo (windowOf breakers key) + length calls)%nat.
Proof.
  induction calls as [|c calls IH]; intros breakers Hcalls; cbn [recordFailures length].
  - lia.
  - apply Forall_cons in Hcalls as [[Hcut Hlo] Hcalls].
    rewrite IH by done.
    destruct (recordFailure_spec breakers (atCreate c) (atCall c) (atOpen c))
      as [Hfw _].
    rewrite Hfw, laterThan_prune, laterThan_app by lia.
    unfold laterThan at 2. cbn [List.filter].
    destruct (Z.ltb_spec lo (atCall c)); [cbn; lia|lia].
Qed.

Lemma recordFailures_open lo breakers calls last :
  Forall (inBurst lo) (calls ++ [last]) ->
  threshold cfg <= Z.of_nat (length (calls ++ [last])) ->
  let breakers' := recordFailures breakers routeId targetUrl cfg (calls ++ [last]) in
  stateOf breakers' key = OPEN /\
  nextAttemptOf breakers' key = Some (atOpen last + timeout cfg).
Proof.
  intros Hburst Hmany breakers'.
  pose proof (recordFailures_laterThan lo (calls ++ [last]) breakers Hburst) as Hcount.
  fold breakers' in Hcount.
  subst breakers'. rewrite recordFailures_app in *. cbn [recordFailures] in *.
  set (before := recordFailures breakers routeId targetUrl cfg calls) in *.
  destruct (recordFailure_spec before (atCreate last) (atCall last) (atOpen last))
    as (Hfw & Hopen & _).
  apply Hopen. rewrite <- Hfw.
  pose proof (laterThan_le_length lo
    (windowOf (recordFailure before routeId targetUrl cfg (atCreate last)
                 (atCall last) (atOpen last)) key)).
  lia.
Qed.

Lemma canExecute_open_denied breakers cb t created now :
  breakers !! key = Some cb -> state (stats cb) = OPEN ->
  nextAttemptTime (stats cb) = Some t -> now < t ->
  canExecute breakers routeId targetUrl cfg created now = (false, breakers).
Proof.
  intros Hcb Hst Hnext Hnow. unfold canExecute, getCircuitBreaker.
  rewrite cfg_enabled. fold key. rewrite Hcb. cbn. rewrite Hst, Hnext.
  destruct (Z.leb_spec t now); [lia|done].
Qed.

Lemma canExecutes_open_denied breakers cb t calls :
  breakers !! key = Some cb -> state (stats cb) = OPEN ->
  nextAttemptTime (stats cb) = Some t ->
  Forall (fun c => snd c < t) calls ->
  canExecutes breakers routeId targetUrl cfg calls =
  (List.map (fun _ => false) calls, breakers).
Proof.
  intros Hcb Hst Hnext. induction calls as [|[created now] calls IH]; intros Hcalls.
  - done.
  - apply Forall_cons in Hcalls as [Hnow Hcalls]. cbn [canExecutes List.map snd] in *.
    rewrite (canExecute_open_denied breakers cb t) by done.
    by rewrite IH.
Qed.

Lemma canExecute_open_probe breakers cb t created now :
  breakers !! key = Some cb -> state (stats cb) = OPEN ->
  nextAttemptTime (stats cb) = Some t -> t <= now ->
  canExecute breakers routeId targetUrl cfg created now =
  (true, <[key := transitionToHalfOpen cb]> breakers).
Proof.
  intros Hcb Hst Hnext Hnow. unfold canExecute, getCircuitBreaker.
  rewrite cfg_enabled. fold key. rewrite Hcb. cbn. rewrite Hst, Hnext.
  destruct (Z.leb_spec t now); [done|lia].
Qed.

Lemma recordSuccess_half_open breakers cb created now :
  breakers !! key = Some cb -> state (stats cb) = HALF_OPEN ->
  let breakers' := recordSuccess breakers routeId targetUrl cfg created now in
  stateOf breakers' key = CLOSED /\
  windowOf breakers' key = [] /\
  nextAttemptOf breakers' key = None.
Proof.
  intros Hcb Hst. unfold recordSuccess, getCircuitBreaker, stateOf, windowOf, nextAttemptOf.
  rewrite cfg_enabled. fold key. rewrite Hcb. cbn. rewrite Hst.
  rewrite lookup_insert_eq. done.
Qed.

(** C2 -- Breaker monotonicity, for the breaker of one (route id, replica
    URL) under an enabled configuration:
    - a burst of [recordFailure] calls, all within one [monitorWindow] and
      at least [threshold] of them, leaves the breaker OPEN (from CLOSED
      as from any other state) with [nextAttemptTime] the opening time
      plus [timeout];
    - more generally, whenever the failure window left by a
      [recordFailure] holds [threshold] entries or more, the state is OPEN;
    - while OPEN, every [canExecute] made before [nextAttemptTime] answers
      [false] and changes nothing;
    - the first [canExecute] at or after [nextAttemptTime] answers [true]
      and moves the breaker to HALF_OPEN;
    - a [recordSuccess] in HALF_OPEN moves it to CLOSED with an empty
      failure window and no [nextAttemptTime]. *)
Theorem C2_breaker_monotonicity :
  (forall breakers calls last lo,
      Forall (inBurst lo) (calls ++ [last]) ->
      threshold cfg <= Z.of_nat (length (calls ++ [last])) ->
      let breakers' := recordFailures breakers routeId targetUrl cfg (calls ++ [last]) in
      stateOf breakers' key = OPEN /\
      nextAttemptOf breakers' key = Some (atOpen last + timeout cfg))
  /\
  (forall breakers created now opened,
      let breakers' := recordFailure breakers routeId targetUrl cfg created now opened in
      threshold cfg <= Z.of_nat (length (windowOf breakers' key)) ->
      stateOf breakers' key = OPEN /\
      nextAttemptOf breakers' key = Some (opened + timeout cfg))
  /\
  (forall breakers t calls,
      stateOf breakers key = OPEN -> nextAttemptOf breakers key = Some t ->
      Forall (fun c => snd c < t) calls ->
      canExecutes breakers routeId targetUrl cfg calls =
      (List.map (fun _ => false) calls, breakers))
  /\
  (forall breakers t created now,
      stateOf breakers key = OPEN -> nextAttemptOf breakers key = Some t ->
      t <= now ->
      let result := canExecute breakers routeId targetUrl cfg created now in
      fst result = true /\
      stateOf (snd result) key = HALF_OPEN /\
      nextAttemptOf (snd result) key = None)
  /\
  (forall breakers created now,
      stateOf breakers key = HALF_OPEN ->
      let breakers' := recordSuccess breakers routeId targetUrl cfg created now in
      stateOf breakers' key = CLOSED /\
      windowOf breakers' key = [] /\
      nextAttemptOf breakers' key = None).
Proof.
  split; [|split; [|split; [|split]]].
  - intros breakers calls last lo Hburst Hmany. by eapply recordFailures_open.
  - intros breakers created now opened breakers' Hlen.
    destruct (recordFailure_spec breakers created now opened) as (Hfw & Hopen & _).
    apply Hopen. by rewrite <- Hfw.
  - intros breakers t calls Hst Hnext Hcalls. unfold stateOf, nextAttemptOf in *.
    destruct (breakers !! key) as [cb|] eqn:Hcb; [|discriminate].
    by eapply canExecutes_open_denied.
  - intros breakers t created now Hst Hnext Hnow result. subst result.
    unfold stateOf, nextAttemptOf in Hst, Hnext.
    destruct (breakers !! key) as [cb|] eqn:Hcb; [|discriminate].
    rewrite (canExecute_open_probe breakers cb t) by done.
    unfold stateOf, nextAttemptOf. cbn. by rewrite lookup_insert_eq.
  - intros breakers created now Hst. unfold stateOf in Hst.
    destruct (breakers !! key) as [cb|] eqn:Hcb; [|discriminate].
    by apply (recordSuccess_half_open breakers cb).
Qed.

(** [recordFailure] has one test for every state: the breaker is opened,
    with [nextAttemptTime] the opening time plus [timeout], whenever the
    failure window after pruning (the stored entries later than
    [now - monitorWindow], and the new failure) holds at least [threshold]
    entries. *)
Lemma recordFailure_at_threshold breakers created now opened :
  let breakers' := recordFailure breakers routeId targetUrl cfg created now opened in
  let pruned := List.filter (fun time => now - monitorWindow cfg <? time)
                  (windowOf breakers key ++ [now]) in
  threshold cfg <= Z.of_nat (length pruned) ->
  windowOf breakers' key = pruned /\
  stateOf breakers' key = OPEN /\
  nextAttemptOf breakers' key = Some (opened + timeout cfg).
Proof.
  intros breakers' pruned Hmany.
  destruct (recordFailure_spec breakers created now opened) as (Hfw & Hopen & _).
  split; [exact Hfw|]. by apply Hopen.
Qed.

(** With fewer entries left, the failure changes neither the state nor
    [nextAttemptTime]. *)
Lemma recordFailure_below_threshold breakers created now opened :
  let breakers' := recordFailure breakers routeId targetUrl cfg created now opened in
  Z.of_nat (length (windowOf breakers' key)) < threshold cfg ->
  stateOf breakers' key = stateOf breakers key /\
  nextAttemptOf breakers' key = nextAttemptOf breakers key.
Proof.
  intros breakers' Hfew.
  destruct (recordFailure_spec breakers created now opened) as (Hfw & _ & Hkeep).
  apply Hkeep. by rewrite <- Hfw.
Qed.

End OneBreaker.

(** ** The scenario of [circuit-breaker.service.spec.ts] *)

Definition mockConfig : CircuitBreakerConfig := mkConfig true 3 5000 10000 None.
Definition testRoute : string := "test-route".
Definition testTarget : string := "http://test-service:3000".
Definition testKey : string := generateKey testRoute testTarget.

(** Three failures at times 0, 1 and 2 ms. *)
Definition threeFailures : gmap string CircuitBreakerInstance :=
  recordFailures ∅ testRoute testTarget mockConfig
    [mkClock 0 0 0; mkClock 1 1 1; mkClock 2 2 2].

(** The probe [canExecute] at 20 s, long after [nextAttemptTime] and after
    the three failures have left the monitor window. *)
Definition probed : gmap string CircuitBreakerInstance :=
  snd (canExecute threeFailures testRoute testTarget mockConfig 20000 20000).

Example breaker_opens :
  stateOf threeFailures testKey = OPEN /\
  nextAttemptOf threeFailures testKey = Some 5002 /\
  fst (canExecute threeFailures testRoute testTarget mockConfig 3 3) = false.
Proof. vm_compute. auto. Qed.

Example breaker_half_opens_then_closes :
  fst (canExecute threeFailures testRoute testTarget mockConfig 5002 5002) = true /\
  stateOf probed testKey = HALF_OPEN /\
  stateOf (recordSuccess probed testRoute testTarget mockConfig 20001 20001) testKey
  = CLOSED.
Proof. vm_compute. auto. Qed.

Example disabled_keeps_no_state :
  recordFailure ∅ testRoute testTarget (mkConfig false 3 5000 10000 None) 0 0 0 = ∅.
Proof. reflexivity. Qed.

Lemma C2_breaker_monotonicity_witness :
  stateOf threeFailures testKey = OPEN /\
  nextAttemptOf threeFailures testKey = Some (2 + 5000).
Proof.
  apply (proj1 (C2_breaker_monotonicity testRoute testTarget mockConfig eq_refl)
           ∅ [mkClock 0 0 0; mkClock 1 1 1] (mkClock 2 2 2) (-1)).
  - repeat constructor; cbn; lia.
  - cbn. lia.
Defined.

(** A failed probe at 5003 ms, the three failures still in the window,
    trips the breaker again. *)
Example early_failed_probe_reopens :
  let early :=
    snd (canExecute threeFailures testRoute testTarget mockConfig 5002 5002) in
  let failed := recordFailure early testRoute testTarget mockConfig 5003 5003 5003 in
  windowOf failed testKey = [0; 1; 2; 5003] /\
  stateOf failed testKey = OPEN /\
  nextAttemptOf failed testKey = Some (5003 + 5000).
Proof.
  apply (recordFailure_at_threshold testRoute testTarget mockConfig eq_refl
           (snd (canExecute threeFailures testRoute testTarget mockConfig 5002 5002))
           5003 5003 5003).
  vm_compute. discriminate.
Qed.

(** The breaker after the failed probe at 20 s, and after a second failure
    one millisecond later. *)
Definition failedProbe : gmap string CircuitBreakerInstance :=
  recordFailure probed testRoute testTarget mockConfig 20000 20000 20000.

Definition failedTwice : gmap string CircuitBreakerInstance :=
  recordFailure failedProbe testRoute testTarget mockConfig 20001 20001 20001.

(** C3 -- the probe that fails at 20 s, after the three failures have left
    the monitor window.  The breaker is HALF_OPEN under an enabled
    configuration, and a single [recordFailure] should return it to OPEN
    with [nextAttemptTime = now + timeout].  The code prunes the window,
    finds the new failure alone against a threshold of three, and leaves
    the breaker HALF_OPEN without a [nextAttemptTime]; [canExecute] then
    admits the next request, a second failure changes nothing either, and
    the breaker is back to OPEN only with the third failure of the
    window. *)
Theorem C3_failed_probe_stays_half_open :
  enabled mockConfig = true /\
  stateOf probed testKey = HALF_OPEN /\
  windowOf failedProbe testKey = [20000] /\
  stateOf failedProbe testKey = HALF_OPEN /\
  nextAttemptOf failedProbe testKey = None /\
  fst (canExecute failedProbe testRoute testTarget mockConfig 20001 20001) = true /\
  stateOf (snd (canExecute failedProbe testRoute testTarget mockConfig 20001 20001)) testKey
  = HALF_OPEN /\
  stateOf failedTwice testKey = HALF_OPEN /\
  fst (canExecute failedTwice testRoute testTarget mockConfig 20002 20002) = true /\
  stateOf (recordFailure failedTwice testRoute testTarget mockConfig 20002 20002 20002)
    testKey = OPEN.
Proof. repeat split; vm_compute; reflexivity. Qed.

(** ** Management operations and the invariant of the service *)

(** [reset(routeId, targetUrl)] *)
Definition reset (breakers : gmap string CircuitBreakerInstance)
    (routeId targetUrl : string) : bool * gmap string CircuitBreakerInstance :=
  let key := generateKey routeId targetUrl in
  match breakers !! key with
  | Some cb => (true, <[key := transitionToClosed cb]> breakers)
  | None => (false, breakers)
  end.

(** [resetAll()] *)
Definition resetAll (breakers : gmap string CircuitBreakerInstance)
  : Z * gmap string CircuitBreakerInstance :=
  (Z.of_nat (size breakers), transitionToClosed <$> breakers).

(** [Math.max(lastSuccessTime?.getTime() || 0, lastFailureTime?.getTime() || 0)] *)
Definition lastActivity (cb : CircuitBreakerInstance) : Z :=
  Z.max (default 0 (lastSuccessTime (stats cb))) (default 0 (lastFailureTime (stats cb))).

(** [cleanup()] with [now = Date.now()]: the instances idle for more than
    [maxIdleTime = 300000] ms are deleted and counted. *)
Definition cleanup (breakers : gmap string CircuitBreakerInstance) (now : Z)
  : Z * gmap string CircuitBreakerInstance :=
  (Z.of_nat (size (filter (fun kc => 300000 < now - lastActivity kc.2) breakers)),
   filter (fun kc => ~ 300000 < now - lastActivity kc.2) breakers).

(** The calls that change the service. *)
Inductive Op :=
| CanExecute (routeId targetUrl : string) (cfg : CircuitBreakerConfig) (created now : Z)
| RecordSuccess (routeId targetUrl : string) (cfg : CircuitBreakerConfig) (created now : Z)
| RecordFailure (routeId targetUrl : string) (cfg : CircuitBreakerConfig)
    (created now opened : Z)
| Reset (routeId targetUrl : string)
| ResetAll
| Cleanup (now : Z).

Definition step (breakers : gmap string CircuitBreakerInstance) (op : Op)
  : gmap string CircuitBreakerInstance :=
  match op with
  | CanExecute routeId targetUrl cfg created now =>
      snd (canExecute breakers routeId targetUrl cfg created now)
  | RecordSuccess routeId targetUrl cfg created now =>
      recordSuccess breakers routeId targetUrl cfg created now
  | RecordFailure routeId targetUrl cfg created now opened =>
      recordFailure breakers routeId targetUrl cfg created now opened
  | Reset routeId targetUrl => snd (reset breakers routeId targetUrl)
  | ResetAll => snd (resetAll breakers)
  | Cleanup now => snd (cleanup breakers now)
  end.

(** The service after a sequence of calls, from its start with no breaker. *)
Definition run (ops : list Op) : gmap string CircuitBreakerInstance :=
  fold_left step ops ∅.

(** What every stored instance satisfies. *)
Record sound (key : string) (cb : CircuitBreakerInstance) : Prop := mkSound {
  sound_id : id cb = key;
  sound_totals :
    totalRequests (stats cb) = totalSuccesses (stats cb) + totalFailures (stats cb);
  sound_open : state (stats cb) = OPEN <-> is_Some (nextAttemptTime (stats cb));
  sound_window : Z.of_nat (length (failureWindow cb)) <= failureCount (stats cb);
}.

Lemma sound_create key cfg now : sound key (createCircuitBreaker key cfg now).
Proof.
  split; cbn; first [done|split; [discriminate|by intros [? [=]]]].
Qed.

Lemma sound_closed key cb : sound key cb -> sound key (transitionToClosed cb).
Proof.
  intros [Hid Htot Hopen Hwin].
  split; cbn; first [done|split; [discriminate|by intros [? [=]]]].
Qed.

Lemma sound_opened key cb cfg now : sound key cb -> sound key (transitionToOpen cb cfg now).
Proof. intros [Hid Htot Hopen Hwin]. split; cbn; first [done|split; eauto]. Qed.

Lemma sound_half_opened key cb : sound key cb -> sound key (transitionToHalfOpen cb).
Proof.
  intros [Hid Htot Hopen Hwin].
  split; cbn; first [done|split; [discriminate|by intros [? [=]]]].
Qed.

Lemma sound_getCircuitBreaker breakers routeId targetUrl cfg created :
  map_Forall sound breakers ->
  let got := getCircuitBreaker breakers routeId targetUrl cfg created in
  map_Forall sound (snd got) /\
  sound (generateKey routeId targetUrl) (fst got) /\
  snd got !! generateKey routeId targetUrl = Some (fst got).
Proof.
  intros Hall. unfold getCircuitBreaker.
  destruct (breakers !! generateKey routeId targetUrl) as [cb|] eqn:Hcb; cbn.
  - split; [done|]. split; [by apply (Hall _ _ Hcb)|done].
  - split; [|split; [apply sound_create|apply lookup_insert_eq]].
    apply map_Forall_insert_2; [apply sound_create|done].
Qed.

Lemma sound_step breakers op :
  map_Forall sound breakers -> map_Forall sound (step breakers op).
Proof.
  intros Hall.
  destruct op as [r u cfg c now|r u cfg c now|r u cfg c now opened|r u| |now]; cbn [step].
  - unfold canExecute. destruct (enabled cfg); cbn [negb]; [|done].
    destruct (sound_getCircuitBreaker breakers r u cfg c Hall) as (Hall1 & Hcb & _).
    destruct (getCircuitBreaker breakers r u cfg c) as [cb b1]. cbn [fst snd] in *.
    destruct (state (stats cb)); [done| |done].
    destruct (nextAttemptTime (stats cb)) as [t|]; [|done].
    destruct (t <=? now); [|done]. cbn.
    apply map_Forall_insert_2; [by apply sound_half_opened|done].
  - unfold recordSuccess. destruct (enabled cfg); cbn [negb]; [|done].
    destruct (sound_getCircuitBreaker breakers r u cfg c Hall) as (Hall1 & Hcb & _).
    destruct (getCircuitBreaker breakers r u cfg c) as [cb b1]. cbn [fst snd] in *.
    apply map_Forall_insert_2; [|done].
    destruct Hcb as [Hid Htot Hopen Hwin].
    pose proof (List.filter_length_le (fun time => now - monitorWindow cfg <? time)
                  (failureWindow cb)) as Hlen.
    cbn. destruct (state (stats cb)) eqn:Hst.
    + split; cbn; try done; lia.
    + apply sound_closed. split; cbn; try done; lia.
    + apply sound_closed. split; cbn; try done; lia.
  - unfold recordFailure. destruct (enabled cfg); cbn [negb]; [|done].
    destruct (sound_getCircuitBreaker breakers r u cfg c Hall) as (Hall1 & Hcb & _).
    destruct (getCircuitBreaker breakers r u cfg c) as [cb b1]. cbn [fst snd] in *.
    apply map_Forall_insert_2; [|done].
    destruct Hcb as [Hid Htot Hopen Hwin].
    pose proof (List.filter_length_le (fun time => now - monitorWindow cfg <? time)
                  (failureWindow cb ++ [now])) as Hlen.
    rewrite length_app in Hlen. cbn [length] in Hlen.
    assert (Hbody : sound (generateKey r u)
              (cleanupWindow
                 (with_failureWindow
                    (with_stats cb
                       (mkStats (state (stats cb)) (failureCount (stats cb) + 1)
                          (successCount (stats cb)) (Some now)
                          (lastSuccessTime (stats cb)) (nextAttemptTime (stats cb))
                          (totalRequests (stats cb) + 1) (totalFailures (stats cb) + 1)
                          (totalSuccesses (stats cb))))
                    (failureWindow cb ++ [now])) now (monitorWindow cfg))).
    { split; cbn; try done; lia. }
    match goal with |- context [if ?b then _ else _] => destruct b end;
      [by apply sound_opened|done].
  - unfold reset. destruct (breakers !! generateKey r u) as [cb|] eqn:Hcb; cbn; [|done].
    apply map_Forall_insert_2; [|done]. apply sound_closed. by apply (Hall _ _ Hcb).
  - cbn. intros k cb' Hk. apply lookup_fmap_Some in Hk as (cb & <- & Hcb).
    apply sound_closed. by apply (Hall _ _ Hcb).
  - cbn. intros k cb Hk. apply map_lookup_filter_Some in Hk as [Hcb _].
    by apply (Hall _ _ Hcb).
Qed.

(** Every state that the service can reach is sound. *)
Lemma run_sound (ops : list Op) : map_Forall sound (run ops).
Proof.
  unfold run. assert (Hstart : map_Forall sound (∅ : gmap string CircuitBreakerInstance))
    by apply map_Forall_empty.
  revert Hstart. generalize (∅ : gmap string CircuitBreakerInstance).
  induction ops as [|op ops IH]; intros breakers Hall; cbn; [done|].
  apply IH. by apply sound_step.
Qed.

(** X7 -- the invariant of the service: after any sequence of [canExecute],
    [recordSuccess], [recordFailure], [reset], [resetAll] and [cleanup]
    calls, with any configurations, every stored instance carries the key
    it is stored under, its [totalRequests] is the sum of [totalSuccesses]
    and [totalFailures], it has a [nextAttemptTime] exactly when it is
    OPEN, and its failure window holds no more entries than
    [failureCount]. *)
Theorem service_invariant (ops : list Op) (key : string) (cb : CircuitBreakerInstance) :
  run ops !! key = Some cb ->
  id cb = key /\
  totalRequests (stats cb) = totalSuccesses (stats cb) + totalFailures (stats cb) /\
  (state (stats cb) = OPEN <-> is_Some (nextAttemptTime (stats cb))) /\
  Z.of_nat (length (failureWindow cb)) <= failureCount (stats cb).
Proof.
  intros Hcb. destruct (run_sound ops key cb Hcb) as [Hid Htotals Hopen Hwindow].
  by repeat split; try apply Hopen.
Qed.

(** A breaker that, if OPEN, has a [nextAttemptTime] of [t] at the
    latest. *)
Definition reopensBy (t : Z) (cb : CircuitBreakerInstance) : Prop :=
  state (stats cb) = OPEN ->
  exists t', nextAttemptTime (stats cb) = Some t' /\ t' <= t.

(** A call that records no failure for the breaker [key]. *)
Definition quiet (key : string) (op : Op) : Prop :=
  match op with
  | RecordFailure routeId targetUrl cfg _ _ _ =>
      enabled cfg = false \/ generateKey routeId targetUrl <> key
  | _ => True
  end.

Lemma reopensBy_insert key t (breakers : gmap string CircuitBreakerInstance) k cb :
  (forall cb', breakers !! key = Some cb' -> reopensBy t cb') ->
  (k = key -> reopensBy t cb) ->
  forall cb', <[k := cb]> breakers !! key = Some cb' -> reopensBy t cb'.
Proof.
  intros Hall Hcb cb'. destruct (decide (k = key)) as [->|Hne].
  - rewrite lookup_insert_eq. intros [= <-]. by apply Hcb.
  - rewrite lookup_insert_ne by done. apply Hall.
Qed.

Lemma reopensBy_getCircuitBreaker key t breakers routeId targetUrl cfg created :
  (forall cb, breakers !! key = Some cb -> reopensBy t cb) ->
  let got := getCircuitBreaker breakers routeId targetUrl cfg created in
  (forall cb, snd got !! key = Some cb -> reopensBy t cb) /\
  (generateKey routeId targetUrl = key -> reopensBy t (fst got)).
Proof.
  intros Hall. unfold getCircuitBreaker.
  destruct (breakers !! generateKey routeId targetUrl) as [cb|] eqn:Hcb; cbn.
  - split; [done|]. intros <-. by apply Hall.
  - split; [|discriminate]. apply reopensBy_insert; [done|discriminate].
Qed.

(** The calls other than a failure of the breaker itself never move its
    [nextAttemptTime] further away. *)
Lemma reopensBy_step key t breakers op :
  quiet key op ->
  (forall cb, breakers !! key = Some cb -> reopensBy t cb) ->
  forall cb, step breakers op !! key = Some cb -> reopensBy t cb.
Proof.
  intros Hquiet Hall.
  destruct op as [r u cfg c now|r u cfg c now|r u cfg c now opened|r u| |now]; cbn [step].
  - unfold canExecute. destruct (enabled cfg); cbn [negb]; [|done].
    destruct (reopensBy_getCircuitBreaker key t breakers r u cfg c Hall) as [Hall1 Hcb].
    destruct (getCircuitBreaker breakers r u cfg c) as [cb b1]. cbn [fst snd] in *.
    destruct (state (stats cb)); [done| |done].
    destruct (nextAttemptTime (stats cb)) as [t'|]; [|done].
    destruct (t' <=? now); [|done]. cbn [snd].
    apply reopensBy_insert; [done|discriminate].
  - unfold recordSuccess. destruct (enabled cfg); cbn [negb]; [|done].
    destruct (reopensBy_getCircuitBreaker key t breakers r u cfg c Hall) as [Hall1 Hcb].
    destruct (getCircuitBreaker breakers r u cfg c) as [cb b1]. cbn [fst snd] in *.
    apply reopensBy_insert; [done|]. intros _. unfold reopensBy. cbn.
    destruct (state (stats cb)); discriminate.
  - cbn [quiet] in Hquiet. unfold recordFailure.
    destruct (enabled cfg) eqn:Hen; cbn [negb]; [|done].
    destruct Hquiet as [?|Hne]; [done|].
    destruct (reopensBy_getCircuitBreaker key t breakers r u cfg c Hall) as [Hall1 _].
    destruct (getCircuitBreaker breakers r u cfg c) as [cb b1]. cbn [fst snd] in *.
    intros cb'. rewrite lookup_insert_ne by done. apply Hall1.
  - unfold reset. destruct (breakers !! generateKey r u) as [cb|]; cbn [snd]; [|done].
    apply reopensBy_insert; [done|discriminate].
  - cbn. intros cb' Hk. apply lookup_fmap_Some in Hk as (cb & <- & Hcb). discriminate.
  - cbn. intros cb Hk. apply map_lookup_filter_Some in Hk as [Hcb _]. by apply Hall.
Qed.

Lemma reopensBy_steps key t between : forall breakers,
  Forall (quiet key) between ->
  (forall cb, breakers !! key = Some cb -> reopensBy t cb) ->
  forall cb, fold_left step between breakers !! key = Some cb -> reopensBy t cb.
Proof.
  induction between as [|op between IH]; intros breakers Hquiet Hall; [done|].
  apply Forall_cons in Hquiet as [Hop Hquiet]. cbn [fold_left].
  apply IH; [done|]. by apply reopensBy_step.
Qed.

(** X8 -- a denial is temporary.  When [canExecute] denies in a state the
    service can reach, the breaker has a [nextAttemptTime] later than
    [now] and the denial has changed nothing.  From that time on the
    breaker admits again: after any further calls of the service that
    record no failure for this breaker (calls for other breakers,
    [canExecute], [recordSuccess], [reset], [resetAll] and [cleanup] at
    any times), every [canExecute] made at or after that time is allowed,
    with any configuration.  A failure recorded for the breaker in between
    may open it again and is excluded: it sets a later
    [nextAttemptTime]. *)
Theorem denied_breaker_reopens (ops : list Op) (routeId targetUrl : string)
    (cfg : CircuitBreakerConfig) (created now : Z) :
  fst (canExecute (run ops) routeId targetUrl cfg created now) = false ->
  exists t,
    nextAttemptOf (run ops) (generateKey routeId targetUrl) = Some t /\ now < t /\
    snd (canExecute (run ops) routeId targetUrl cfg created now) = run ops /\
    forall between cfg' created' now',
      Forall (quiet (generateKey routeId targetUrl)) between ->
      t <= now' ->
      fst (canExecute (run (ops ++ between)) routeId targetUrl cfg' created' now') = true.
Proof.
  unfold run at 4. setoid_rewrite fold_left_app. fold (run ops).
  pose proof (run_sound ops) as Hall. revert Hall.
  generalize (run ops). intros breakers Hall.
  unfold canExecute at 1 2, getCircuitBreaker, nextAttemptOf.
  destruct (enabled cfg); cbn [negb]; [|discriminate].
  destruct (breakers !! generateKey routeId targetUrl) as [cb|] eqn:Hcb;
    cbn; [|discriminate].
  pose proof (sound_open _ _ (Hall _ _ Hcb)) as Hopen.
  destruct (state (stats cb)) eqn:Hst; try discriminate.
  destruct (nextAttemptTime (stats cb)) as [t|] eqn:Hnext;
    [|by destruct (proj1 Hopen eq_refl) as [? [=]]].
  destruct (Z.leb_spec t now); [discriminate|]. intros _.
  exists t. split; [done|]. split; [done|]. split; [done|].
  intros between cfg' created' now' Hquiet Hlater.
  assert (Hstart : forall cb', breakers !! generateKey routeId targetUrl = Some cb' ->
                               reopensBy t cb').
  { intros cb' Hcb' _. assert (cb' = cb) as -> by congruence. exists t. split; [done|lia]. }
  pose proof (reopensBy_steps _ t between breakers Hquiet Hstart) as Hend.
  unfold canExecute, getCircuitBreaker.
  destruct (enabled cfg'); cbn [negb]; [|done].
  destruct (fold_left step between breakers !! generateKey routeId targetUrl)
    as [cb'|] eqn:Hcb'; cbn; [|done].
  specialize (Hend cb' eq_refl). unfold reopensBy in Hend.
  destruct (state (stats cb')); [done| |done].
  destruct (Hend eq_refl) as (t' & -> & Hle).
  by destruct (Z.leb_spec t' now'); [|lia].
Qed.

(** X9 -- [reset] of an unknown (route, replica) answers [false] and
    changes nothing; [reset] of a known one answers [true] and leaves it
    CLOSED with an empty failure window, [failureCount = 0] and no
    [nextAttemptTime], so that [canExecute] allows; [resetAll] answers the
    number of instances and leaves every one of them CLOSED. *)
Theorem reset_closes (breakers : gmap string CircuitBreakerInstance)
    (routeId targetUrl : string) :
  let key := generateKey routeId targetUrl in
  (breakers !! key = None -> reset breakers routeId targetUrl = (false, breakers)) /\
  (is_Some (breakers !! key) ->
   fst (reset breakers routeId targetUrl) = true /\
   (exists cb, snd (reset breakers routeId targetUrl) !! key = Some cb /\
      state (stats cb) = CLOSED /\ failureWindow cb = [] /\
      failureCount (stats cb) = 0 /\ nextAttemptTime (stats cb) = None) /\
   forall cfg created now,
     fst (canExecute (snd (reset breakers routeId targetUrl)) routeId targetUrl cfg
            created now) = true) /\
  fst (resetAll breakers) = Z.of_nat (size breakers) /\
  (forall k, stateOf (snd (resetAll breakers)) k = CLOSED).
Proof.
  cbn zeta. unfold reset. split; [by intros ->|]. split.
  - intros [cb Hcb]. rewrite Hcb. cbn [fst snd]. split; [done|]. split.
    + exists (transitionToClosed cb). by rewrite lookup_insert_eq.
    + intros cfg created now. unfold canExecute, getCircuitBreaker.
      destruct (enabled cfg); [|done]. cbn [negb]. by rewrite lookup_insert_eq.
  - split; [done|]. intros k. unfold stateOf, resetAll. cbn [snd].
    rewrite lookup_fmap. by destruct (breakers !! k).
Qed.

(** X10 -- the idle sweep: [cleanup] at [now] deletes exactly the instances
    whose last recorded success or failure (time 0 when nothing was ever
    recorded) is more than 300000 ms old, and counts them.  A deleted
    instance is forgotten whatever its state: the next [canExecute] is
    allowed, be it before the [nextAttemptTime] of an OPEN breaker. *)
Theorem cleanup_forgets_idle (breakers : gmap string CircuitBreakerInstance)
    (routeId targetUrl : string) (cb : CircuitBreakerInstance) (now : Z) :
  let key := generateKey routeId targetUrl in
  breakers !! key = Some cb ->
  (300000 < now - lastActivity cb ->
   snd (cleanup breakers now) !! key = None /\
   forall cfg created later,
     fst (canExecute (snd (cleanup breakers now)) routeId targetUrl cfg created later)
     = true) /\
  (now - lastActivity cb <= 300000 -> snd (cleanup breakers now) !! key = Some cb) /\
  fst (cleanup breakers now) =
  Z.of_nat (size breakers) - Z.of_nat (size (snd (cleanup breakers now))).
Proof.
  cbn zeta. intros Hcb. unfold cleanup. cbn [fst snd]. split; [|split].
  - intros Hidle.
    assert (Hgone : filter (fun kc => ~ 300000 < now - lastActivity kc.2) breakers
                    !! generateKey routeId targetUrl = None).
    { apply map_lookup_filter_None_2. right. intros cb' Hcb'. cbn.
      assert (cb' = cb) as -> by congruence. tauto. }
    split; [done|]. intros cfg created later. unfold canExecute, getCircuitBreaker.
    destruct (enabled cfg); [|done]. cbn [negb]. by rewrite Hgone.
  - intros Hrecent. apply map_lookup_filter_Some_2; [done|]. cbn. lia.
  - rewrite <- (map_filter_union_complement
                  (fun kc : string * CircuitBreakerInstance =>
                     300000 < now - lastActivity kc.2) breakers) at 2.
    rewrite map_size_disj_union by apply map_disjoint_filter_complement. lia.
Qed.


(** The three failures of the scenario, as calls of the service. *)
Definition threeFailureOps : list Op :=
  [RecordFailure testRoute testTarget mockConfig 0 0 0;
   RecordFailure testRoute testTarget mockConfig 1 1 1;
   RecordFailure testRoute testTarget mockConfig 2 2 2].

Definition threeFailureBreaker : option CircuitBreakerInstance :=
  Eval vm_compute in run threeFailureOps !! testKey.

Lemma service_invariant_witness :
  run threeFailureOps !! testKey = threeFailureBreaker /\
  state (stats (default (createCircuitBreaker testKey mockConfig 0) threeFailureBreaker))
  = OPEN.
Proof.
  assert (Hcb : run threeFailureOps !! testKey = threeFailureBreaker)
    by (vm_compute; reflexivity).
  split; [exact Hcb|]. unfold threeFailureBreaker in *.
  destruct (service_invariant threeFailureOps testKey _ Hcb) as (_ & _ & Hopen & _).
  apply Hopen. cbn. eauto.
Defined.

(** Calls made while the breaker of the scenario is OPEN: a denied probe,
    a failure and a success of another replica, and the idle sweep. *)
Definition meanwhile : list Op :=
  [CanExecute testRoute testTarget mockConfig 10 10;
   RecordFailure testRoute "http://test-service:3001" mockConfig 11 11 11;
   RecordSuccess testRoute "http://test-service:3001" mockConfig 12 12;
   Cleanup 13].

Lemma denied_breaker_reopens_witness :
  Forall (quiet testKey) meanwhile /\
  fst (canExecute (run (threeFailureOps ++ meanwhile)) testRoute testTarget mockConfig
         5002 5002) = true.
Proof.
  assert (Hquiet : Forall (quiet testKey) meanwhile).
  { constructor; [exact I|]. constructor; [right; vm_compute; discriminate|].
    constructor; [exact I|]. constructor; [exact I|]. constructor. }
  split; [exact Hquiet|].
  destruct (denied_breaker_reopens threeFailureOps testRoute testTarget mockConfig 3 3)
    as (t & Hnext & _ & _ & Hlater); [vm_compute; reflexivity|].
  apply Hlater; [exact Hquiet|].
  assert (Ht : nextAttemptOf (run threeFailureOps) (generateKey testRoute testTarget)
               = Some 5002) by (vm_compute; reflexivity).
  rewrite Ht in Hnext. injection Hnext as <-. lia.
Defined.

(** A failure of the breaker itself in between opens it again, until
    later. *)
Example failure_in_between_reopens :
  fst (canExecute
         (run (threeFailureOps ++ [RecordFailure testRoute testTarget mockConfig 3 3 3]))
         testRoute testTarget mockConfig 5002 5002) = false /\
  nextAttemptOf
    (run (threeFailureOps ++ [RecordFailure testRoute testTarget mockConfig 3 3 3]))
    testKey = Some 5003.
Proof. vm_compute. split; reflexivity. Qed.

Lemma reset_closes_witness :
  fst (reset threeFailures testRoute testTarget) = true /\
  (exists cb, snd (reset threeFailures testRoute testTarget) !! testKey = Some cb /\
     state (stats cb) = CLOSED /\ failureWindow cb = [] /\
     failureCount (stats cb) = 0 /\ nextAttemptTime (stats cb) = None) /\
  forall cfg created now,
    fst (canExecute (snd (reset threeFailures testRoute testTarget)) testRoute testTarget
           cfg created now) = true.
Proof.
  apply (proj1 (proj2 (reset_closes threeFailures testRoute testTarget))).
  vm_compute. eauto.
Defined.

(** A breaker opened for ten minutes and swept after five minutes of
    silence. *)
Definition patientConfig : CircuitBreakerConfig := mkConfig true 3 600000 10000 None.

Definition longOpen : gmap string CircuitBreakerInstance :=
  recordFailures ∅ testRoute testTarget patientConfig
    [mkClock 0 0 0; mkClock 1 1 1; mkClock 2 2 2].

Definition longOpenBreaker : option CircuitBreakerInstance :=
  Eval vm_compute in longOpen !! testKey.

Lemma cleanup_forgets_idle_witness :
  stateOf longOpen testKey = OPEN /\
  nextAttemptOf longOpen testKey = Some 600002 /\
  fst (canExecute (snd (cleanup longOpen 300003)) testRoute testTarget patientConfig
         300004 300004) = true.
Proof.
  split; [vm_compute; reflexivity|]. split; [vm_compute; reflexivity|].
  assert (Hcb : longOpen !! testKey = longOpenBreaker) by (vm_compute; reflexivity).
  unfold longOpenBreaker in Hcb.
  apply (proj1 (cleanup_forgets_idle longOpen testRoute testTarget _ 300003 Hcb)).
  vm_compute. reflexivity.
Defined.


End CircuitBreaker.

(* ===================================================================== *)
(** * Cache: [cache/cache.service.ts]                                     *)
(* ===================================================================== *)
Module Cache.

(** A cached value, by the cases of [estimateSize]; an object is kept as
    its [JSON.stringify] text. *)
Inductive Value :=
| VNull
| VString (s : string)
| VNumber (n : Z)
| VBoolean (b : bool)
| VObject (json : string).

(** [interface CacheEntry] *)
Record CacheEntry := mkEntry {
  key : string;
  value : Value;
  expiresAt : Z;
  createdAt : Z;
  accessCount : Z;
  lastAccessed : Z;
  size : Z;
}.

(** [interface CacheConfig] *)
Record CacheConfig := mkCacheConfig {
  maxSize : Z;
  maxMemory : Z;
  defaultTTL : Z;
  cleanupInterval : Z;
}.

(** The [Map] of the service, in insertion order, and its counters. *)
Record CacheService := mkService {
  cache : list (string * CacheEntry);
  hits : Z;
  misses : Z;
  evictions : Z;
}.

(** [Map.prototype.get], [.set] (an existing key keeps its position, a
    new one goes last) and [.delete]. *)
Fixpoint map_get (k : string) (m : list (string * CacheEntry)) : option CacheEntry :=
  match m with
  | [] => None
  | (k', e) :: rest => if String.eqb k k' then Some e else map_get k rest
  end.

Fixpoint map_set (k : string) (e : CacheEntry) (m : list (string * CacheEntry))
  : list (string * CacheEntry) :=
  match m with
  | [] => [(k, e)]
  | (k', e') :: rest =>
      if String.eqb k k' then (k, e) :: rest else (k', e') :: map_set k e rest
  end.

Fixpoint map_delete (k : string) (m : list (string * CacheEntry))
  : list (string * CacheEntry) :=
  match m with
  | [] => []
  | (k', e') :: rest =>
      if String.eqb k k' then map_delete k rest else (k', e') :: map_delete k rest
  end.

(** [estimateSize(value)] *)
Definition estimateSize (v : Value) : Z :=
  match v with
  | VNull => 0
  | VString s => Z.of_nat (String.length s) * 2
  | VNumber _ => 8
  | VBoolean _ => 1
  | VObject json => Z.of_nat (String.length json) * 2
  end.

(** [getCurrentMemoryUsage()] *)
Definition getCurrentMemoryUsage (m : list (string * CacheEntry)) : Z :=
  fold_left (fun totalSize p => totalSize + size (snd p)) m 0.

Section Configured.

Variable cfg : CacheConfig.

(** [shouldEvict(newEntrySize)] *)
Definition shouldEvict (m : list (string * CacheEntry)) (newEntrySize : Z) : bool :=
  if maxSize cfg <=? Z.of_nat (length m) then true
  else maxMemory cfg <? getCurrentMemoryUsage m + newEntrySize.

(** The stable [sort] of [evictEntries]: by ascending [lastAccessed]. *)
Fixpoint insertByAccess (p : string * CacheEntry) (l : list (string * CacheEntry))
  : list (string * CacheEntry) :=
  match l with
  | [] => [p]
  | q :: rest =>
      if lastAccessed (snd p) <=? lastAccessed (snd q) then p :: q :: rest
      else q :: insertByAccess p rest
  end.

Definition sortByAccess (l : list (string * CacheEntry)) : list (string * CacheEntry) :=
  fold_right insertByAccess [] l.

(** The [for] loop of [evictEntries] over the sorted snapshot. *)
Fixpoint evictLoop (spaceNeeded : Z) (entries m : list (string * CacheEntry))
    (spaceFreed evicted : Z) : list (string * CacheEntry) * Z * Z :=
  match entries with
  | [] => (m, spaceFreed, evicted)
  | (k, entry) :: rest =>
      if (spaceNeeded <=? spaceFreed) && (Z.of_nat (length m) <? maxSize cfg)
      then (m, spaceFreed, evicted)
      else evictLoop spaceNeeded rest (map_delete k m) (spaceFreed + size entry)
             (evicted + 1)
  end.

(** [evictEntries(spaceNeeded)] *)
Definition evictEntries (st : CacheService) (spaceNeeded : Z) : CacheService :=
  let '(m, _, evicted) :=
    evictLoop spaceNeeded (sortByAccess (cache st)) (cache st) 0 0 in
  mkService m (hits st) (misses st) (evictions st + evicted).

(** [set(key, value, ttl)] with [now = Date.now()]; [ttl || defaultTTL]. *)
Definition set (st : CacheService) (k : string) (v : Value) (ttl : option Z) (now : Z)
  : bool * CacheService :=
  let expiration :=
    match ttl with
    | Some t => if t =? 0 then defaultTTL cfg else t
    | None => defaultTTL cfg
    end in
  let sz := estimateSize v in
  let st1 := if shouldEvict (cache st) sz then evictEntries st sz else st in
  let entry := mkEntry k v (now + expiration) now 0 now sz in
  (true, mkService (map_set k entry (cache st1)) (hits st1) (misses st1) (evictions st1)).

End Configured.

(** [get(key)]; [now] is the reading compared with [expiresAt] and
    [accessed] the one stored in [lastAccessed]. *)
Definition get (st : CacheService) (k : string) (now accessed : Z)
  : option Value * CacheService :=
  match map_get k (cache st) with
  | None => (None, mkService (cache st) (hits st) (misses st + 1) (evictions st))
  | Some entry =>
      if expiresAt entry <=? now then
        (None, mkService (map_delete k (cache st)) (hits st) (misses st + 1) (evictions st))
      else
        let entry' :=
          mkEntry (key entry) (value entry) (expiresAt entry) (createdAt entry)
            (accessCount entry + 1) accessed (size entry) in
        (Some (value entry),
         mkService (map_set k entry' (cache st)) (hits st + 1) (misses st) (evictions st))
  end.

(** [hashString(str)]: [hash = ((hash << 5) - hash) + char] followed by
    [hash = hash & hash] for each character, then
    [Math.abs(hash).toString(16)]. *)
Definition hashStep (hash char : Z) : Z :=
  let hash1 := (toInt32 (Z.shiftl hash 5) - hash) + char in
  Z.land (toInt32 hash1) (toInt32 hash1).

Definition hashCode (str : string) : Z := fold_left hashStep (charCodes str) 0.

Definition hashString (str : string) : string := toString16 (Z.abs (hashCode str)).

(** [generateHttpCacheKey(method, url, headers?)] *)
Definition generateHttpCacheKey (method url : string)
    (headers : option (gmap string string)) : string :=
  let baseKey := "http:" +:+ method +:+ ":" +:+ url in
  match headers with
  | Some h =>
      if truthy (h !! "authorization") || truthy (h !! "x-user-id") then
        let userHash :=
          hashString (orElse (h !! "authorization") (orElse (h !! "x-user-id") "")) in
        baseKey +:+ ":user:" +:+ userHash
      else baseKey
  | None => baseKey
  end.

(** [shouldCacheResponse(statusCode, headers)] *)
Definition shouldCacheResponse (statusCode : Z) (headers : gmap string string) : bool :=
  if 400 <=? statusCode then false
  else
    let cacheControl := orElse (headers !! "cache-control") "" in
    if includes "no-cache" cacheControl || includes "no-store" cacheControl then false
    else if truthy (headers !! "set-cookie") then false
    else true.

(** ** HTTP caching contract *)

Example should_cache_spec_cases :
  shouldCacheResponse 200 ∅ = true /\
  shouldCacheResponse 201 ∅ = true /\
  shouldCacheResponse 400 ∅ = false /\
  shouldCacheResponse 500 ∅ = false /\
  shouldCacheResponse 200 {[ "cache-control" := "no-cache" ]} = false /\
  shouldCacheResponse 200 {[ "cache-control" := "no-store" ]} = false /\
  shouldCacheResponse 200 {[ "set-cookie" := "session=abc123" ]} = false.
Proof. vm_compute. repeat split. Qed.

Lemma truthy_spec (v : option string) :
  truthy v = true <-> exists s, v = Some s /\ s <> "".
Proof.
  destruct v as [[|a s]|]; cbn; split; try discriminate.
  - intros (s & [= <-] & Hne). done.
  - intros _. eexists. split; [reflexivity|discriminate].
  - reflexivity.
  - intros (s & [=] & _).
Qed.

Lemma orElse_lookup (h : gmap string string) (name : string) :
  orElse (h !! name) "" = default "" (h !! name).
Proof. by destruct (h !! name) as [[|a s]|]. Qed.

(** C7 (as the code has it) -- [shouldCacheResponse] returns [true] if and
    only if the status is below 400 (so for 1xx and 3xx statuses as for
    2xx), the [cache-control] value contains neither [no-cache] nor
    [no-store], and there is no [set-cookie] entry with a non-empty
    value. *)
Theorem C7_should_cache_response (statusCode : Z) (headers : gmap string string) :
  shouldCacheResponse statusCode headers = true <->
  statusCode < 400 /\
  ~ Contains "no-cache" (default "" (headers !! "cache-control")) /\
  ~ Contains "no-store" (default "" (headers !! "cache-control")) /\
  ~ (exists v, headers !! "set-cookie" = Some v /\ v <> "").
Proof.
  unfold shouldCacheResponse. rewrite <- !includes_spec, <- truthy_spec, orElse_lookup.
  destruct (Z.leb_spec 400 statusCode) as [Herr|Hok].
  - split; [discriminate|]. intros [? _]. lia.
  - destruct (includes "no-cache" _), (includes "no-store" _),
      (truthy (headers !! "set-cookie")); cbn; split; try discriminate; try tauto.
    intros _. repeat split; (lia || discriminate).
Qed.

(** A redirect is cached although its status is not a 2xx one. *)
Lemma C7_should_cache_response_counterexample :
  shouldCacheResponse 301 ∅ = true /\ ~ (200 <= 301 <= 299).
Proof. split; [reflexivity|lia]. Qed.

(** ** Cache keys *)

Example cache_keys_without_headers :
  generateHttpCacheKey "GET" "/api/users" None = "http:GET:/api/users" /\
  generateHttpCacheKey "POST" "/api/users" None = "http:POST:/api/users".
Proof. split; reflexivity. Qed.

Lemma hashCode_int32 (str : string) : - 2 ^ 31 <= hashCode str < 2 ^ 31.
Proof.
  unfold hashCode. generalize (charCodes str). intros l.
  assert (Hinit : - 2 ^ 31 <= 0 < 2 ^ 31) by lia.
  revert Hinit. generalize 0. induction l as [|c l IH]; intros h Hh; cbn; [done|].
  apply IH. unfold hashStep. rewrite Z.land_diag. unfold toInt32.
  pose proof (Z.mod_pos_bound (toInt32 (Z.shiftl h 5) - h + c + 2 ^ 31) (2 ^ 32)).
  unfold toInt32 in *. lia.
Qed.

Lemma generateHttpCacheKey_authorized method url (h : gmap string string) a :
  h !! "authorization" = Some a -> a <> "" ->
  generateHttpCacheKey method url (Some h) =
  ("http:" +:+ method +:+ ":" +:+ url) +:+ ":user:" +:+ hashString a.
Proof.
  intros Ha Hne. unfold generateHttpCacheKey. rewrite Ha.
  destruct a as [|c a]; [done|]. reflexivity.
Qed.

(** What the key keeps of the [authorization] value: two requests with
    the same method and URL and non-empty values have the same key exactly
    when the 32-bit hashes of the values have the same absolute value. *)
Lemma generateHttpCacheKey_same_key method url (h1 h2 : gmap string string) a1 a2 :
  h1 !! "authorization" = Some a1 -> a1 <> "" ->
  h2 !! "authorization" = Some a2 -> a2 <> "" ->
  generateHttpCacheKey method url (Some h1) = generateHttpCacheKey method url (Some h2)
  <-> Z.abs (hashCode a1) = Z.abs (hashCode a2).
Proof.
  intros H1 Hne1 H2 Hne2.
  rewrite (generateHttpCacheKey_authorized _ _ h1 a1), (generateHttpCacheKey_authorized _ _ h2 a2)
    by done.
  unfold hashString. split.
  - intros Heq. do 2 apply string_app_inv_head in Heq.
    apply toString16_inj in Heq; lia.
  - by intros ->.
Qed.

(** Two bearer values that collide under [hashString]. *)
Definition alice : gmap string string := {[ "authorization" := "Bearer Aa" ]}.
Definition bob : gmap string string := {[ "authorization" := "Bearer BB" ]}.

Definition emptyCache : CacheService := mkService [] 0 0 0.
Definition defaultConfig : CacheConfig := mkCacheConfig 1000 (50 * 1024 * 1024) 300000 60000.

Example key_includes_user_hash :
  generateHttpCacheKey "GET" "/api/profile" (Some {[ "authorization" := "Bearer token123" ]})
  = "http:GET:/api/profile:user:" +:+ hashString "Bearer token123".
Proof. reflexivity. Qed.

Example distinct_tokens_distinct_keys :
  generateHttpCacheKey "GET" "/api/profile"
    (Some {[ "authorization" := "Bearer token123" ]}) <>
  generateHttpCacheKey "GET" "/api/profile"
    (Some {[ "authorization" := "Bearer token124" ]}).
Proof.
  intros Heq.
  apply (generateHttpCacheKey_same_key "GET" "/api/profile"
           {[ "authorization" := "Bearer token123" ]}
           {[ "authorization" := "Bearer token124" ]}
           "Bearer token123" "Bearer token124") in Heq.
  - vm_compute in Heq. discriminate.
  - reflexivity.
  - discriminate.
  - reflexivity.
  - discriminate.
Qed.

(** The same two identifiers sent as [x-user-id], and a client that sends
    the bearer value of [alice] as its [x-user-id]. *)
Definition aliceId : gmap string string := {[ "x-user-id" := "Aa" ]}.
Definition bobId : gmap string string := {[ "x-user-id" := "BB" ]}.
Definition mallory : gmap string string := {[ "x-user-id" := "Bearer Aa" ]}.

(** The store after the response for [alice] has been cached. *)
Definition aliceCached : CacheService :=
  snd (set defaultConfig emptyCache
         (generateHttpCacheKey "GET" "/api/profile" (Some alice))
         (VObject "{}") None 0).

(** C8 -- two principals whose identifiers collide.  The key is meant to
    tell the principals apart (it includes the user identifier for
    personalised responses), and two requests with the same method and URL
    and different [authorization] values should get different keys.  The
    values [Bearer Aa] and [Bearer BB] differ and have the same 32-bit
    hash: both requests get the key [http:GET:/api/profile:user:] followed
    by that hash, and the entry stored for the first is returned by [get]
    for the key of the second.  The same happens with the identifiers [Aa]
    and [BB] sent as [x-user-id], and with a request without
    [authorization] whose [x-user-id] is the other's [authorization]
    value. *)
Theorem C8_colliding_principals_share_entry :
  alice !! "authorization" = Some "Bearer Aa" /\
  bob !! "authorization" = Some "Bearer BB" /\
  "Bearer Aa" <> "Bearer BB" /\
  hashCode "Bearer Aa" = hashCode "Bearer BB" /\
  generateHttpCacheKey "GET" "/api/profile" (Some alice) =
  generateHttpCacheKey "GET" "/api/profile" (Some bob) /\
  fst (get aliceCached (generateHttpCacheKey "GET" "/api/profile" (Some bob)) 1 1)
  = Some (VObject "{}") /\
  generateHttpCacheKey "GET" "/api/profile" (Some aliceId) =
  generateHttpCacheKey "GET" "/api/profile" (Some bobId) /\
  mallory !! "authorization" = None /\
  fst (get aliceCached (generateHttpCacheKey "GET" "/api/profile" (Some mallory)) 1 1)
  = Some (VObject "{}").
Proof.
  split; [reflexivity|]. split; [reflexivity|]. split; [discriminate|].
  vm_compute. repeat split; reflexivity.
Qed.

(** ** Bounds of the store *)

Definition keys (m : list (string * CacheEntry)) : list string := List.map fst m.

(** Both limits of the configuration. *)
Definition withinLimits (cfg : CacheConfig) (m : list (string * CacheEntry)) : Prop :=
  Z.of_nat (length m) <= maxSize cfg /\ getCurrentMemoryUsage m <= maxMemory cfg.

(** What holds of every [Map] the service builds: one entry per key, and
    sizes as [estimateSize] gives them. *)
Definition wellFormed (m : list (string * CacheEntry)) : Prop :=
  NoDup (keys m) /\ Forall (fun p => 0 <= size (snd p)) m.

Lemma estimateSize_nonneg v : 0 <= estimateSize v.
Proof. destruct v; cbn; lia. Qed.

Lemma usage_from (m : list (string * CacheEntry)) (a : Z) :
  fold_left (fun totalSize p => totalSize + size (snd p)) m a =
  a + getCurrentMemoryUsage m.
Proof.
  unfold getCurrentMemoryUsage. revert a.
  induction m as [|p m IH]; intros a; cbn -[Z.add]; [lia|].
  rewrite (IH (a + _)), (IH (0 + _)). lia.
Qed.

Lemma usage_cons p m :
  getCurrentMemoryUsage (p :: m) = size (snd p) + getCurrentMemoryUsage m.
Proof. unfold getCurrentMemoryUsage at 1. cbn -[Z.add]. rewrite usage_from. lia. Qed.

Lemma usage_perm m m' : m ≡ₚ m' -> getCurrentMemoryUsage m = getCurrentMemoryUsage m'.
Proof.
  induction 1 as [|p m m' _ IH|p q m|m1 m2 m3 _ IH1 _ IH2];
    rewrite ?usage_cons; lia.
Qed.

Lemma usage_nonneg m :
  Forall (fun p => 0 <= size (snd p)) m -> 0 <= getCurrentMemoryUsage m.
Proof.
  induction 1 as [|p m Hp _ IH]; [done|]. rewrite usage_cons. lia.
Qed.

Lemma insertByAccess_perm p l : insertByAccess p l ≡ₚ p :: l.
Proof.
  induction l as [|q l IH]; cbn; [done|].
  destruct (lastAccessed (snd p) <=? lastAccessed (snd q)); [done|].
  rewrite IH. apply Permutation_swap.
Qed.

Lemma sortByAccess_perm l : sortByAccess l ≡ₚ l.
Proof.
  induction l as [|p l IH]; cbn; [done|].
  by rewrite insertByAccess_perm, IH.
Qed.

Lemma map_delete_absent k m : k ∉ keys m -> map_delete k m = m.
Proof.
  induction m as [|[k' e] m IH]; cbn; [done|].
  intros Hk. apply not_elem_of_cons in Hk as [Hne Hk].
  destruct (String.eqb_spec k k'); [done|]. by rewrite IH.
Qed.

Lemma map_delete_perm k m m' : m ≡ₚ m' -> map_delete k m ≡ₚ map_delete k m'.
Proof.
  induction 1 as [|[k1 e1] m m' _ IH|[k1 e1] [k2 e2] m|m1 m2 m3 _ IH1 _ IH2]; cbn.
  - done.
  - destruct (String.eqb k k1); by rewrite IH.
  - destruct (String.eqb k k1), (String.eqb k k2); (done || apply Permutation_swap).
  - by rewrite IH1.
Qed.

Lemma map_delete_subset k m p : p ∈ map_delete k m -> p ∈ m.
Proof.
  induction m as [|[k' e] m IH]; cbn; [done|].
  destruct (String.eqb k k'); intros Hp.
  - apply elem_of_cons. right. by apply IH.
  - apply elem_of_cons in Hp as [->|Hp]; apply elem_of_cons; [by left|].
    right. by apply IH.
Qed.

Lemma wellFormed_perm m m' : m ≡ₚ m' -> wellFormed m -> wellFormed m'.
Proof.
  intros Hp [Hnd Hsz]. split.
  - unfold keys in *. by rewrite <- Hp.
  - by rewrite <- Hp.
Qed.

Lemma usage_app m1 m2 :
  getCurrentMemoryUsage (m1 ++ m2) = getCurrentMemoryUsage m1 + getCurrentMemoryUsage m2.
Proof.
  induction m1 as [|p m1 IH]; cbn [app]; rewrite ?usage_cons; [done|lia].
Qed.

Lemma keys_map_set k e m :
  keys (map_set k e m) = if decide (k ∈ keys m) then keys m else keys m ++ [k].
Proof.
  induction m as [|[k' e'] m IH]; cbn [map_set].
  - cbn. by rewrite decide_False by apply not_elem_of_nil.
  - destruct (String.eqb_spec k k') as [->|Hne];
      change (keys ((k', e') :: m)) with (k' :: keys m).
    + change (keys ((k', e) :: m)) with (k' :: keys m).
      by rewrite decide_True by apply list_elem_of_here.
    + change (keys ((k', e') :: map_set k e m)) with (k' :: keys (map_set k e m)).
      rewrite IH. destruct (decide (k ∈ keys m)) as [Hin|Hout].
      * by rewrite decide_True by (by apply list_elem_of_further).
      * rewrite decide_False; [done|].
        intros [?|?]%elem_of_cons; done.
Qed.

Lemma length_map_set k e m : (length (map_set k e m) <= S (length m))%nat.
Proof.
  induction m as [|[k' e'] m IH]; cbn; [lia|].
  destruct (String.eqb k k'); cbn; lia.
Qed.

Lemma usage_map_set k e m :
  Forall (fun p => 0 <= size (snd p)) m ->
  getCurrentMemoryUsage (map_set k e m) <= getCurrentMemoryUsage m + size e.
Proof.
  induction 1 as [|[k' e'] m Hp _ IH]; cbn [map_set].
  - rewrite usage_cons. cbn. lia.
  - destruct (String.eqb k k'); rewrite !usage_cons; cbn in *; lia.
Qed.

Lemma sizes_map_set k e m :
  0 <= size e ->
  Forall (fun p => 0 <= size (snd p)) m ->
  Forall (fun p => 0 <= size (snd p)) (map_set k e m).
Proof.
  intros He. induction 1 as [|[k' e'] m Hp Hm IH]; cbn.
  - by repeat constructor.
  - destruct (String.eqb k k'); by constructor.
Qed.

Lemma wellFormed_map_set k e m :
  0 <= size e -> wellFormed m -> wellFormed (map_set k e m).
Proof.
  intros He [Hnd Hsz]. split; [|by apply sizes_map_set].
  rewrite keys_map_set. destruct (decide (k ∈ keys m)) as [Hin|Hout]; [done|].
  apply NoDup_app. split; [done|]. split; [|apply NoDup_singleton].
  intros x Hx ->%list_elem_of_singleton. done.
Qed.

Section Eviction.

Variable cfg : CacheConfig.

(** The loop of [evictEntries], started on a snapshot [entries] of the
    map: what is freed leaves the usage, what remains is part of the map,
    and the loop stops either on its exit test or with the map empty. *)
Lemma evictLoop_spec spaceNeeded entries : forall m spaceFreed evicted,
  m ≡ₚ entries -> NoDup (keys m) ->
  forall m' spaceFreed' evicted',
  evictLoop cfg spaceNeeded entries m spaceFreed evicted = (m', spaceFreed', evicted') ->
  getCurrentMemoryUsage m' = getCurrentMemoryUsage m - (spaceFreed' - spaceFreed) /\
  (exists gone, m ≡ₚ gone ++ m') /\
  ((spaceNeeded <= spaceFreed' /\ Z.of_nat (length m') < maxSize cfg) \/ m' = []).
Proof.
  induction entries as [|[k entry] rest IH];
    intros m spaceFreed evicted Hperm Hnd m' spaceFreed' evicted' Hloop;
    cbn [evictLoop] in Hloop.
  - injection Hloop as <- <- <-. apply Permutation_nil_r in Hperm as ->.
    split; [lia|]. split; [by exists []|by right].
  - destruct ((spaceNeeded <=? spaceFreed) && (Z.of_nat (length m) <? maxSize cfg))
      eqn:Hexit.
    + injection Hloop as <- <- <-. apply andb_prop in Hexit as [H1 H2].
      split; [lia|]. split; [by exists []|left; lia].
    + assert (Hk : k ∉ keys rest).
      { unfold keys in Hnd. rewrite Hperm in Hnd. cbn in Hnd.
        by apply NoDup_cons in Hnd as [Hk _]. }
      assert (Hdel : map_delete k m ≡ₚ rest).
      { rewrite (map_delete_perm k _ _ Hperm). cbn. rewrite String.eqb_refl.
        by rewrite map_delete_absent. }
      assert (Hnd' : NoDup (keys (map_delete k m))).
      { unfold keys. rewrite Hdel. unfold keys in Hnd. rewrite Hperm in Hnd.
        cbn in Hnd. by apply NoDup_cons in Hnd as [_ Hnd]. }
      destruct (IH _ _ _ Hdel Hnd' _ _ _ Hloop) as (Huse & [gone Hgone] & Hstop).
      split; [|split; [|exact Hstop]].
      * rewrite Huse, (usage_perm _ _ Hperm), usage_cons, (usage_perm _ _ Hdel).
        cbn. lia.
      * exists ((k, entry) :: gone). rewrite Hperm. cbn. constructor.
        by rewrite <- Hgone, Hdel.
Qed.

(** [set] keeps the store within both limits whenever the new entry can
    fit at all: a limit of at least one entry, and an estimated size of
    at most [maxMemory]. *)
Lemma set_within_limits st k v ttl now :
  1 <= maxSize cfg -> estimateSize v <= maxMemory cfg ->
  wellFormed (cache st) -> withinLimits cfg (cache st) ->
  withinLimits cfg (cache (snd (set cfg st k v ttl now))) /\
  wellFormed (cache (snd (set cfg st k v ttl now))).
Proof.
  intros Hsize Hfits Hwf [Hlen Hmem]. unfold set. cbn [snd cache].
  set (sz := estimateSize v) in *.
  set (entry := mkEntry k v _ now 0 now sz).
  pose proof (estimateSize_nonneg v) as Hsz. fold sz in Hsz.
  assert (Hentry : 0 <= size entry) by done.
  assert (Hkeep : forall m, wellFormed m ->
            Z.of_nat (length m) < maxSize cfg ->
            getCurrentMemoryUsage m + sz <= maxMemory cfg ->
            withinLimits cfg (map_set k entry m) /\ wellFormed (map_set k entry m)).
  { intros m Hm Hl Hu. split; [|by apply wellFormed_map_set].
    pose proof (length_map_set k entry m).
    pose proof (usage_map_set k entry m (proj2 Hm)). cbn [size entry] in *.
    split; lia. }
  destruct (shouldEvict cfg (cache st) sz) eqn:Hevict.
  - unfold evictEntries.
    destruct (evictLoop cfg sz (sortByAccess (cache st)) (cache st) 0 0)
      as [[m' freed'] evicted'] eqn:Hloop. cbn [cache].
    destruct (evictLoop_spec sz _ (cache st) 0 0
                (symmetry (sortByAccess_perm (cache st))) (proj1 Hwf) _ _ _ Hloop)
      as (Huse & [gone Hgone] & Hstop).
    assert (Hwf' : wellFormed m').
    { pose proof (wellFormed_perm _ _ Hgone Hwf) as [Hnd Hall]. split.
      - unfold keys in *. rewrite map_app in Hnd. by apply NoDup_app in Hnd as (_ & _ & ?).
      - by apply Forall_app in Hall as [_ ?]. }
    destruct Hstop as [[Hfreed Hroom]| ->].
    + apply Hkeep; [done|done|lia].
    + cbn. split; [|by apply (wellFormed_map_set k entry [])].
      split; cbn; [lia|]. unfold getCurrentMemoryUsage. cbn. lia.
  - unfold shouldEvict in Hevict.
    destruct (Z.leb_spec (maxSize cfg) (Z.of_nat (length (cache st)))); [done|].
    apply Z.ltb_ge in Hevict. by apply Hkeep.
Qed.

End Eviction.

Lemma wellFormed_empty : wellFormed [].
Proof. split; constructor. Qed.

(** A text of [n] characters. *)
Fixpoint padding (n : nat) : string :=
  match n with
  | O => EmptyString
  | S n' => String "x" (padding n')
  end.

(** A cache of at most 100 entries and 1 KiB. *)
Definition kilobyteConfig : CacheConfig := mkCacheConfig 100 1024 300000 60000.

(** C9 at a value whose estimated size alone exceeds [maxMemory]: a text
    of 600 characters, 1200 bytes by [estimateSize], set into the empty
    cache of a 1 KiB configuration.  [shouldEvict] asks for an eviction,
    [evictEntries] finds nothing to evict, and [set] stores the entry and
    answers [true]: the store holds 1200 bytes against a limit of 1024. *)
Theorem C9_oversized_entry_exceeds_memory :
  let stored := snd (set kilobyteConfig emptyCache "k" (VString (padding 600)) None 0) in
  wellFormed (cache emptyCache) /\
  withinLimits kilobyteConfig (cache emptyCache) /\
  shouldEvict kilobyteConfig (cache emptyCache) 1200 = true /\
  fst (set kilobyteConfig emptyCache "k" (VString (padding 600)) None 0) = true /\
  getCurrentMemoryUsage (cache stored) = 1200 /\
  ~ withinLimits kilobyteConfig (cache stored).
Proof.
  cbv zeta. split; [apply wellFormed_empty|].
  split; [split; cbn; lia|].
  split; [reflexivity|]. split; [reflexivity|].
  split; [vm_compute; reflexivity|].
  intros [_ Hmem]. vm_compute in Hmem. by apply Hmem.
Qed.

(** An entry that fits is stored within both limits, the oldest access
    being evicted first. *)
Example set_evicts_least_recent :
  let full :=
    mkService [("a", mkEntry "a" (VString (padding 200)) 300000 0 0 5 400);
               ("b", mkEntry "b" (VString (padding 200)) 300000 0 0 1 400)] 0 0 0 in
  List.map fst (cache (snd (set kilobyteConfig full "c" (VString (padding 200)) None 9)))
  = ["a"; "c"].
Proof. vm_compute. reflexivity. Qed.

(** ** The remaining operations of the service *)

(** [has(key)] with [now = Date.now()] *)
Definition has (st : CacheService) (k : string) (now : Z) : bool * CacheService :=
  match map_get k (cache st) with
  | None => (false, st)
  | Some entry =>
      if expiresAt entry <=? now then
        (false, mkService (map_delete k (cache st)) (hits st) (misses st) (evictions st))
      else (true, st)
  end.

(** [delete(key)]: the result of [Map.delete]. *)
Definition delete (st : CacheService) (k : string) : bool * CacheService :=
  (bool_decide (is_Some (map_get k (cache st))),
   mkService (map_delete k (cache st)) (hits st) (misses st) (evictions st)).

(** [clear()] *)
Definition clear (st : CacheService) : CacheService :=
  mkService [] (hits st) (misses st) (evictions st).

(** [cleanup()] with [now = Date.now()]: the entries with
    [now >= expiresAt] are deleted. *)
Definition cleanup (st : CacheService) (now : Z) : CacheService :=
  mkService (List.filter (fun p => negb (expiresAt (snd p) <=? now)) (cache st))
    (hits st) (misses st) (evictions st).

(** The [ttl || defaultTTL] of [set]. *)
Definition expirationOf (cfg : CacheConfig) (ttl : option Z) : Z :=
  match ttl with
  | Some t => if t =? 0 then defaultTTL cfg else t
  | None => defaultTTL cfg
  end.

Lemma map_get_map_set_eq k e m : map_get k (map_set k e m) = Some e.
Proof.
  induction m as [|[k' e'] m IH]; cbn.
  - by rewrite String.eqb_refl.
  - destruct (String.eqb k k') eqn:Hk; cbn; rewrite ?String.eqb_refl, ?Hk; done.
Qed.

Lemma map_get_map_set_ne k k' e m :
  k' <> k -> map_get k' (map_set k e m) = map_get k' m.
Proof.
  intros Hne. induction m as [|[k'' e''] m IH]; cbn.
  - by destruct (String.eqb_spec k' k).
  - destruct (String.eqb_spec k k'') as [->|Hk]; cbn.
    + by destruct (String.eqb_spec k' k'').
    + destruct (String.eqb_spec k' k''); [done|apply IH].
Qed.

Lemma map_get_map_delete_eq k m : map_get k (map_delete k m) = None.
Proof.
  induction m as [|[k' e'] m IH]; cbn; [done|].
  destruct (String.eqb k k') eqn:Hk; cbn; rewrite ?Hk; done.
Qed.

Lemma map_get_map_delete_ne k k' m :
  k' <> k -> map_get k' (map_delete k m) = map_get k' m.
Proof.
  intros Hne. induction m as [|[k'' e''] m IH]; cbn; [done|].
  destruct (String.eqb_spec k k'') as [->|Hk]; cbn.
  - destruct (String.eqb_spec k' k''); [done|apply IH].
  - destruct (String.eqb_spec k' k''); [done|apply IH].
Qed.

Lemma map_get_elem_of k e m : map_get k m = Some e -> (k, e) ∈ m.
Proof.
  induction m as [|[k' e'] m IH]; cbn; [discriminate|].
  destruct (String.eqb_spec k k') as [->|Hk].
  - intros [= ->]. apply list_elem_of_here.
  - intros Hm. apply list_elem_of_further. by apply IH.
Qed.

Lemma elem_of_map_get k e m : NoDup (keys m) -> (k, e) ∈ m -> map_get k m = Some e.
Proof.
  induction m as [|[k' e'] m IH]; cbn.
  - by intros _ ?%elem_of_nil.
  - intros [Hk' Hnd]%NoDup_cons [[= -> ->]|Hin]%elem_of_cons.
    + by rewrite String.eqb_refl.
    + destruct (String.eqb_spec k k') as [->|Hk]; [|by apply IH].
      destruct Hk'. apply (list_elem_of_fmap_2 fst) in Hin. done.
Qed.

Lemma map_get_present_size k e m :
  map_get k m = Some e -> forall e',
  getCurrentMemoryUsage (map_set k e' m) = getCurrentMemoryUsage m - size e + size e' /\
  length (map_set k e' m) = length m.
Proof.
  induction m as [|[k' e''] m IH]; cbn [map_get map_set]; [discriminate|].
  destruct (String.eqb k k').
  - intros [= ->] e'. rewrite !usage_cons. cbn. split; [lia|done].
  - intros Hm e'. destruct (IH Hm e') as [Hu Hl].
    rewrite !usage_cons, Hu. cbn. split; [lia|by rewrite Hl].
Qed.

(** The entry that [set] leaves under its key. *)
Lemma set_entry cfg st k v ttl now :
  map_get k (cache (snd (set cfg st k v ttl now))) =
  Some (mkEntry k v (now + expirationOf cfg ttl) now 0 now (estimateSize v)).
Proof. unfold set. cbn [snd cache]. apply map_get_map_set_eq. Qed.

(** X11 -- a round trip through the store: the value set under a key is
    what [get] returns for that key as long as the clock has not reached
    [now + (ttl || defaultTTL)]; from that time on [get] misses and removes
    the entry.  In any state, a value returned by [get] comes from an entry
    of that key whose [expiresAt] is later than the clock. *)
Theorem set_then_get (cfg : CacheConfig) (st : CacheService) (k : string) (v : Value)
    (ttl : option Z) (now later accessed : Z) :
  let stored := snd (set cfg st k v ttl now) in
  (later < now + expirationOf cfg ttl ->
   fst (get stored k later accessed) = Some v) /\
  (now + expirationOf cfg ttl <= later ->
   fst (get stored k later accessed) = None /\
   map_get k (cache (snd (get stored k later accessed))) = None) /\
  (forall v', fst (get st k later accessed) = Some v' ->
     exists entry, map_get k (cache st) = Some entry /\ value entry = v' /\
                   later < expiresAt entry).
Proof.
  cbn zeta. unfold get. rewrite set_entry. cbn [expiresAt value].
  split; [|split].
  - intros Hlive. by destruct (Z.leb_spec (now + expirationOf cfg ttl) later); [lia|].
  - intros Hdead. destruct (Z.leb_spec (now + expirationOf cfg ttl) later); [|lia].
    cbn. split; [done|apply map_get_map_delete_eq].
  - intros v'. destruct (map_get k (cache st)) as [entry|]; [|discriminate].
    destruct (Z.leb_spec (expiresAt entry) later); [discriminate|].
    intros [= <-]. eauto.
Qed.

(** ** Least recently used first *)

(** The order of the [sort] in [evictEntries]. *)
Definition byAccess (p q : string * CacheEntry) : Prop :=
  lastAccessed (snd p) <= lastAccessed (snd q).

Lemma insertByAccess_sorted p l :
  StronglySorted byAccess l -> StronglySorted byAccess (insertByAccess p l).
Proof.
  induction 1 as [|q l Hl IH Hq]; cbn.
  - by repeat constructor.
  - destruct (Z.leb_spec (lastAccessed (snd p)) (lastAccessed (snd q))) as [Hle|Hgt].
    + constructor; [by constructor|]. constructor; [done|].
      eapply Forall_impl; [exact Hq|]. unfold byAccess. intros; cbn in *; lia.
    + constructor; [done|]. rewrite insertByAccess_perm.
      constructor; [unfold byAccess; lia|done].
Qed.

Lemma sortByAccess_sorted l : StronglySorted byAccess (sortByAccess l).
Proof.
  induction l as [|p l IH]; cbn; [constructor|by apply insertByAccess_sorted].
Qed.

Lemma sorted_app_cross gone rest :
  StronglySorted byAccess (gone ++ rest) ->
  forall p q, p ∈ gone -> q ∈ rest -> byAccess p q.
Proof.
  induction gone as [|x gone IH]; cbn; intros Hs p q Hp Hq.
  - by apply elem_of_nil in Hp.
  - apply StronglySorted_inv in Hs as [Hs Hall].
    apply elem_of_cons in Hp as [->|Hp]; [|by apply IH].
    rewrite Forall_forall in Hall. apply Hall. apply elem_of_app. by right.
Qed.

Section LeastRecentlyUsed.

Variable cfg : CacheConfig.

(** The loop deletes a prefix of its snapshot and counts it. *)
Lemma evictLoop_prefix spaceNeeded entries : forall m spaceFreed evicted,
  m ≡ₚ entries -> NoDup (keys m) ->
  forall m' spaceFreed' evicted',
  evictLoop cfg spaceNeeded entries m spaceFreed evicted = (m', spaceFreed', evicted') ->
  exists gone rest, entries = gone ++ rest /\ m' ≡ₚ rest /\
    evicted' = evicted + Z.of_nat (length gone).
Proof.
  induction entries as [|[k entry] rest IH];
    intros m spaceFreed evicted Hperm Hnd m' spaceFreed' evicted' Hloop;
    cbn [evictLoop] in Hloop.
  - injection Hloop as <- <- <-. exists [], []. cbn. split; [done|]. split; [done|lia].
  - destruct ((spaceNeeded <=? spaceFreed) && (Z.of_nat (length m) <? maxSize cfg)).
    + injection Hloop as <- <- <-. exists [], ((k, entry) :: rest). cbn.
      split; [done|]. split; [done|lia].
    + assert (Hk : k ∉ keys rest).
      { unfold keys in Hnd. rewrite Hperm in Hnd. cbn in Hnd.
        by apply NoDup_cons in Hnd as [Hk _]. }
      assert (Hdel : map_delete k m ≡ₚ rest).
      { rewrite (map_delete_perm k _ _ Hperm). cbn. rewrite String.eqb_refl.
        by rewrite map_delete_absent. }
      assert (Hnd' : NoDup (keys (map_delete k m))).
      { unfold keys. rewrite Hdel. unfold keys in Hnd. rewrite Hperm in Hnd.
        cbn in Hnd. by apply NoDup_cons in Hnd as [_ Hnd]. }
      destruct (IH _ _ _ Hdel Hnd' _ _ _ Hloop) as (gone & kept & -> & Hkept & ->).
      exists ((k, entry) :: gone), kept. cbn [app length].
      split; [done|]. split; [done|lia].
Qed.

(** What [evictEntries] leaves was in the store. *)
Lemma evictEntries_kept (st : CacheService) (spaceNeeded : Z) :
  wellFormed (cache st) ->
  forall p, p ∈ cache (evictEntries cfg st spaceNeeded) -> p ∈ cache st.
Proof.
  intros Hwf p. unfold evictEntries.
  destruct (evictLoop cfg spaceNeeded (sortByAccess (cache st)) (cache st) 0 0)
    as [[m' freed'] evicted'] eqn:Hloop. cbn [cache].
  destruct (evictLoop_spec cfg spaceNeeded _ (cache st) 0 0
              (symmetry (sortByAccess_perm (cache st))) (proj1 Hwf) _ _ _ Hloop)
    as (_ & [gone Hgone] & _).
  intros Hp. rewrite Hgone. apply elem_of_app. by right.
Qed.

(** X12 -- [evictEntries] removes least recently used entries first: what it
    leaves was in the store, every entry it removes was accessed no later
    than every entry it keeps, and the [evictions] counter grows by the
    number of entries removed. *)
Theorem evictEntries_least_recent (st : CacheService) (spaceNeeded : Z) :
  wellFormed (cache st) ->
  let st' := evictEntries cfg st spaceNeeded in
  (forall p, p ∈ cache st' -> p ∈ cache st) /\
  (forall p q, p ∈ cache st -> p ∉ cache st' -> q ∈ cache st' ->
     lastAccessed (snd p) <= lastAccessed (snd q)) /\
  evictions st' =
    evictions st + (Z.of_nat (length (cache st)) - Z.of_nat (length (cache st'))).
Proof.
  intros Hwf. cbn zeta. unfold evictEntries.
  destruct (evictLoop cfg spaceNeeded (sortByAccess (cache st)) (cache st) 0 0)
    as [[m' freed'] evicted'] eqn:Hloop. cbn [cache evictions].
  destruct (evictLoop_prefix _ _ _ 0 0 (symmetry (sortByAccess_perm (cache st)))
              (proj1 Hwf) _ _ _ Hloop) as (gone & rest & Hsplit & Hrest & ->).
  pose proof (sortByAccess_sorted (cache st)) as Hsorted.
  pose proof (sortByAccess_perm (cache st)) as Hperm.
  rewrite Hsplit in Hsorted, Hperm.
  split; [|split].
  - intros p Hp. rewrite <- Hperm. rewrite Hrest in Hp. apply elem_of_app. by right.
  - intros p q Hp Hout Hq. rewrite <- Hperm in Hp. rewrite Hrest in Hout, Hq.
    apply elem_of_app in Hp as [Hp|Hp]; [|done].
    by apply (sorted_app_cross gone rest).
  - rewrite <- (Permutation_length Hperm), (Permutation_length Hrest), length_app. lia.
Qed.

(** [set] never alters the entry of another key: whatever is found
    under another key afterwards is the entry that was there before, and
    when no eviction is called for, every other key keeps its entry. *)
Lemma set_keeps_other_entries (st : CacheService) (k : string) (v : Value)
    (ttl : option Z) (now : Z) (k' : string) :
  wellFormed (cache st) -> k' <> k ->
  let st' := snd (set cfg st k v ttl now) in
  (forall e, map_get k' (cache st') = Some e -> map_get k' (cache st) = Some e) /\
  (shouldEvict cfg (cache st) (estimateSize v) = false ->
   map_get k' (cache st') = map_get k' (cache st)).
Proof.
  intros Hwf Hne. cbn zeta. unfold set. cbn [snd cache].
  rewrite map_get_map_set_ne by done.
  destruct (shouldEvict cfg (cache st) (estimateSize v)); [|done].
  split; [|discriminate].
  intros e He%map_get_elem_of.
  apply elem_of_map_get; [apply Hwf|]. by apply (evictEntries_kept st (estimateSize v)).
Qed.

End LeastRecentlyUsed.

(** ** Lookups after removals *)

Lemma keys_filter f m k : k ∈ keys (List.filter f m) -> k ∈ keys m.
Proof.
  induction m as [|[k' e] m IH]; cbn; [done|].
  destruct (f (k', e)); cbn.
  - intros [->|Hk]%elem_of_cons; [apply list_elem_of_here|].
    apply list_elem_of_further. by apply IH.
  - intros Hk. apply list_elem_of_further. by apply IH.
Qed.

Lemma wellFormed_filter f m : wellFormed m -> wellFormed (List.filter f m).
Proof.
  intros [Hnd Hsz]. split.
  - induction m as [|[k e] m IH]; cbn; [constructor|].
    cbn in Hnd. apply NoDup_cons in Hnd as [Hk Hnd].
    apply Forall_cons in Hsz as [_ Hsz].
    destruct (f (k, e)); cbn; [|by apply IH].
    apply NoDup_cons. split; [|by apply IH].
    intros Hin. apply Hk. by apply keys_filter in Hin.
  - induction Hsz as [|p m Hp Hm IH]; cbn; [constructor|].
    cbn in Hnd. apply NoDup_cons in Hnd as [_ Hnd].
    destruct (f p); [constructor; [done|]|]; by apply IH.
Qed.

Lemma withinLimits_filter cfg f m :
  Forall (fun p => 0 <= size (snd p)) m ->
  withinLimits cfg m -> withinLimits cfg (List.filter f m).
Proof.
  intros Hsz [Hlen Hmem].
  assert (Hle : (length (List.filter f m) <= length m)%nat /\
                getCurrentMemoryUsage (List.filter f m) <= getCurrentMemoryUsage m).
  { clear Hlen Hmem. induction Hsz as [|p m Hp Hm [IHl IHu]]; cbn [List.filter].
    - split; [done|lia].
    - destruct (f p); cbn [length]; rewrite ?usage_cons; split; lia. }
  destruct Hle. split; lia.
Qed.

Lemma map_delete_filter k m :
  map_delete k m = List.filter (fun p => negb (String.eqb k (fst p))) m.
Proof.
  induction m as [|[k' e] m IH]; cbn; [done|].
  destruct (String.eqb k k'); cbn; by rewrite IH.
Qed.

Lemma map_get_absent k m : k ∉ keys m -> map_get k m = None.
Proof.
  induction m as [|[k' e] m IH]; cbn; [done|].
  intros [Hne Hk]%not_elem_of_cons.
  destruct (String.eqb_spec k k'); [done|by apply IH].
Qed.

Lemma map_get_filter f k m :
  NoDup (keys m) ->
  map_get k (List.filter f m) =
  match map_get k m with
  | Some e => if f (k, e) then Some e else None
  | None => None
  end.
Proof.
  induction m as [|[k' e] m IH]; cbn; [done|].
  intros [Hk' Hnd]%NoDup_cons.
  destruct (String.eqb_spec k k') as [->|Hne].
  - destruct (f (k', e)); cbn; [by rewrite String.eqb_refl|].
    apply map_get_absent. intros Hin. by apply keys_filter in Hin.
  - destruct (f (k', e)); cbn; [|by apply IH].
    destruct (String.eqb_spec k k'); [done|by apply IH].
Qed.

(** X13 -- the periodic [cleanup] is invisible to lookups: at the time of
    the sweep or later, [get] and [has] answer for every key as they would
    have without it; every entry left has [expiresAt] after the sweep, and
    every such entry is left. *)
Theorem cleanup_preserves_lookups (st : CacheService) (now later accessed : Z)
    (k : string) :
  wellFormed (cache st) -> now <= later ->
  fst (get (cleanup st now) k later accessed) = fst (get st k later accessed) /\
  fst (has (cleanup st now) k later) = fst (has st k later) /\
  (forall p, p ∈ cache (cleanup st now) <-> p ∈ cache st /\ now < expiresAt (snd p)).
Proof.
  intros [Hnd _] Hlater. unfold get, has, cleanup. cbn [cache].
  rewrite map_get_filter by done. cbn [snd].
  split; [|split].
  - destruct (map_get k (cache st)) as [entry|]; [|done].
    destruct (Z.leb_spec (expiresAt entry) now); cbn [negb].
    + by destruct (Z.leb_spec (expiresAt entry) later); [|lia].
    + by destruct (Z.leb_spec (expiresAt entry) later).
  - destruct (map_get k (cache st)) as [entry|]; [|done].
    destruct (Z.leb_spec (expiresAt entry) now); cbn [negb].
    + by destruct (Z.leb_spec (expiresAt entry) later); [|lia].
    + by destruct (Z.leb_spec (expiresAt entry) later).
  - intros p. rewrite !list_elem_of_In, List.filter_In.
    destruct (Z.leb_spec (expiresAt (snd p)) now); cbn [negb]; split;
      intros [? ?]; first [done | lia | split; [done|lia]].
Qed.

(** [has] answers as [get] would, without counting as an access: it is
    [true] exactly when [get] at the same time returns a value, it then
    leaves the store as it is, and otherwise it leaves what [get] leaves;
    the hit and miss counters never move. *)
Lemma has_agrees_with_get (st : CacheService) (k : string) (now accessed : Z) :
  fst (has st k now) = bool_decide (is_Some (fst (get st k now accessed))) /\
  cache (snd (has st k now)) =
    (if fst (has st k now) then cache st else cache (snd (get st k now accessed))) /\
  hits (snd (has st k now)) = hits st /\
  misses (snd (has st k now)) = misses st.
Proof.
  unfold has, get. destruct (map_get k (cache st)) as [entry|]; [|done].
  by destruct (expiresAt entry <=? now).
Qed.

(** ** Every reachable store *)

(** The public operations of the service, with the clock readings each
    one takes. *)
Inductive Op :=
  | OpGet (k : string) (now accessed : Z)
  | OpSet (k : string) (v : Value) (ttl : option Z) (now : Z)
  | OpHas (k : string) (now : Z)
  | OpDelete (k : string)
  | OpClear
  | OpCleanup (now : Z).

Section Runs.

Variable cfg : CacheConfig.

Definition step (st : CacheService) (op : Op) : CacheService :=
  match op with
  | OpGet k now accessed => snd (get st k now accessed)
  | OpSet k v ttl now => snd (set cfg st k v ttl now)
  | OpHas k now => snd (has st k now)
  | OpDelete k => snd (delete st k)
  | OpClear => clear st
  | OpCleanup now => cleanup st now
  end.

Definition run (ops : list Op) : CacheService := fold_left step ops emptyCache.

(** A value that can fit at all. *)
Definition fits (op : Op) : Prop :=
  match op with
  | OpSet _ v _ _ => estimateSize v <= maxMemory cfg
  | _ => True
  end.

Definition bounded (st : CacheService) : Prop :=
  wellFormed (cache st) /\ withinLimits cfg (cache st).

Lemma bounded_delete st k :
  bounded st ->
  bounded (mkService (map_delete k (cache st)) (hits st) (misses st) (evictions st)).
Proof.
  intros [Hwf Hlim]. unfold bounded. cbn [cache]. rewrite map_delete_filter.
  split; [by apply wellFormed_filter|]. apply withinLimits_filter; [apply Hwf|done].
Qed.

Lemma bounded_step st op :
  1 <= maxSize cfg -> fits op -> bounded st -> bounded (step st op).
Proof.
  intros Hsize Hfits Hb. destruct op as [k now accessed|k v ttl now|k now|k| |now];
    cbn [step].
  - unfold get. destruct (map_get k (cache st)) as [entry|] eqn:Hget; [|done].
    destruct (expiresAt entry <=? now); cbn [snd]; [by apply bounded_delete|].
    destruct Hb as [Hwf [Hlen Hmem]].
    set (entry' := mkEntry _ _ _ _ _ _ _).
    destruct (map_get_present_size _ _ _ Hget entry') as [Hu Hl].
    assert (Hentry : 0 <= size entry).
    { destruct Hwf as [_ Hall]. rewrite Forall_forall in Hall.
      apply (Hall (k, entry)). by apply map_get_elem_of. }
    split; cbn [cache].
    + by apply wellFormed_map_set.
    + split; [by rewrite Hl|]. rewrite Hu. cbn. lia.
  - destruct Hb as [Hwf Hlim].
    destruct (set_within_limits cfg st k v ttl now Hsize Hfits Hwf Hlim). by split.
  - unfold has. destruct (map_get k (cache st)) as [entry|]; [|done].
    destruct (expiresAt entry <=? now); cbn [snd]; [by apply bounded_delete|done].
  - by apply bounded_delete.
  - split; cbn; [apply wellFormed_empty|]. split; cbn; [lia|].
    destruct Hb as [Hwf [_ Hmem]]. pose proof (usage_nonneg _ (proj2 Hwf)).
    unfold getCurrentMemoryUsage in *. cbn. lia.
  - destruct Hb as [Hwf Hlim]. split; cbn [cleanup cache].
    + by apply wellFormed_filter.
    + apply withinLimits_filter; [apply Hwf|done].
Qed.

(** X14 -- an invariant of the service: starting from the empty cache of the
    constructor, after any sequence of [get], [set], [has], [delete],
    [clear] and [cleanup] calls the store holds at most one entry per key,
    at most [maxSize] entries and at most [maxMemory] estimated bytes,
    provided the configuration allows one entry and no value set is by
    itself larger than [maxMemory]. *)
Theorem store_stays_bounded (ops : list Op) :
  1 <= maxSize cfg -> 0 <= maxMemory cfg -> Forall fits ops ->
  NoDup (keys (cache (run ops))) /\
  Z.of_nat (length (cache (run ops))) <= maxSize cfg /\
  getCurrentMemoryUsage (cache (run ops)) <= maxMemory cfg.
Proof.
  intros Hsize Hmem Hfits.
  assert (Hb : bounded (run ops)).
  { unfold run. assert (H0 : bounded emptyCache).
    { split; [apply wellFormed_empty|]. split; cbn; [lia|done]. }
    revert H0. generalize emptyCache.
    induction Hfits as [|op ops Hop _ IH]; intros st Hst; cbn [fold_left]; [done|].
    apply IH. by apply bounded_step. }
  destruct Hb as [[Hnd _] [Hlen Hm]]. done.
Qed.

End Runs.

Lemma set_then_get_witness :
  fst (get (snd (set kilobyteConfig emptyCache "k" (VNumber 7) None 0)) "k" 299999 299999)
  = Some (VNumber 7) /\
  fst (get (snd (set kilobyteConfig emptyCache "k" (VNumber 7) None 0)) "k" 300000 300000)
  = None.
Proof.
  destruct (set_then_get kilobyteConfig emptyCache "k" (VNumber 7) None 0 299999 299999)
    as (Hlive & _ & _).
  destruct (set_then_get kilobyteConfig emptyCache "k" (VNumber 7) None 0 300000 300000)
    as (_ & Hdead & _).
  split.
  - apply Hlive. cbn. lia.
  - apply Hdead. cbn. lia.
Defined.

(** Two entries of 400 bytes, [a] accessed at 5 and [b] at 1. *)
Definition twoEntries : CacheService :=
  mkService [("a", mkEntry "a" (VString (padding 200)) 300000 0 0 5 400);
             ("b", mkEntry "b" (VString (padding 200)) 300000 0 0 1 400)] 0 0 0.

Lemma wellFormed_twoEntries : wellFormed (cache twoEntries).
Proof.
  split.
  - cbn. apply NoDup_cons. split; [|apply NoDup_singleton].
    by intros ?%list_elem_of_singleton.
  - repeat constructor; cbn; lia.
Qed.

Lemma evictEntries_least_recent_witness :
  wellFormed (cache twoEntries) /\
  evictions (evictEntries kilobyteConfig twoEntries 400) = 1.
Proof.
  split; [apply wellFormed_twoEntries|].
  destruct (evictEntries_least_recent kilobyteConfig twoEntries 400 wellFormed_twoEntries)
    as (_ & _ & Hcount).
  rewrite Hcount. vm_compute. reflexivity.
Defined.

Lemma cleanup_preserves_lookups_witness :
  wellFormed (cache twoEntries) /\ 300000 <= 300001 /\
  fst (get (cleanup twoEntries 300000) "a" 300001 300001)
  = fst (get twoEntries "a" 300001 300001).
Proof.
  split; [apply wellFormed_twoEntries|]. split; [lia|].
  apply (cleanup_preserves_lookups twoEntries 300000 300001 300001 "a"
           wellFormed_twoEntries).
  lia.
Defined.

Lemma store_stays_bounded_witness :
  1 <= maxSize kilobyteConfig /\ 0 <= maxMemory kilobyteConfig /\
  getCurrentMemoryUsage
    (cache (run kilobyteConfig
       [OpSet "a" (VString (padding 200)) None 0;
        OpSet "b" (VString (padding 200)) None 1;
        OpGet "a" 2 2;
        OpSet "c" (VString (padding 200)) None 3;
        OpHas "b" 4; OpCleanup 5; OpDelete "a"; OpClear]))
  <= maxMemory kilobyteConfig.
Proof.
  split; [cbn; lia|]. split; [cbn; lia|].
  apply (store_stays_bounded kilobyteConfig).
  - cbn. lia.
  - cbn. lia.
  - repeat constructor; cbn; lia.
Defined.


(** ** Lifetimes from response headers *)

Definition isDigit (c : ascii) : bool :=
  let n := nat_of_ascii c in (48 <=? n)%nat && (n <=? 57)%nat.

(** The longest prefix of digits: what [\d+] takes. *)
Fixpoint takeDigits (s : string) : string :=
  match s with
  | EmptyString => EmptyString
  | String c s' => if isDigit c then String c (takeDigits s') else EmptyString
  end.

(** [s.slice(n)] *)
Fixpoint dropChars (n : nat) (s : string) : string :=
  match n, s with
  | O, _ => s
  | S n', String _ s' => dropChars n' s'
  | S _, EmptyString => EmptyString
  end.

(** The group of the first match of [/max-age=(\d+)/] in [s]. *)
Fixpoint maxAgeMatch (s : string) : option string :=
  let here :=
    if startsWith "max-age=" s then
      match takeDigits (dropChars 8 s) with
      | EmptyString => None
      | digits => Some digits
      end
    else None in
  match here with
  | Some digits => Some digits
  | None =>
      match s with
      | EmptyString => None
      | String _ s' => maxAgeMatch s'
      end
  end.

(** A JavaScript number that holds a non-negative integer, or
    [Infinity]. *)
Inductive number :=
| Num (z : Z)
| PlusInfinity.

(** The double nearest to a non-negative integer [z], ties going to the
    even significand of 53 bits: the integer itself below [2^53], and
    [Infinity] when the rounded value reaches [2^1024]. *)
Definition toDouble (z : Z) : number :=
  if z <? 2 ^ 53 then Num z
  else
    let e := Z.log2 z - 52 in
    let q := z / 2 ^ e in
    let r := z mod 2 ^ e in
    let half := 2 ^ (e - 1) in
    let q' := if (half <? r) || ((r =? half) && Z.odd q) then q + 1 else q in
    if 2 ^ 1024 <=? q' * 2 ^ e then PlusInfinity else Num (q' * 2 ^ e).

(** The integer that a string of digits writes. *)
Definition digitsValue (digits : string) : Z :=
  match DecimalString.NilZero.uint_of_string digits with
  | Some d => Z.of_N (N.of_uint d)
  | None => 0
  end.

(** [parseInt(digits, 10)] on a string of digits: a double. *)
Definition parseInt (digits : string) : number := toDouble (digitsValue digits).

(** [x * k] for a positive integer [k], a product of doubles. *)
Definition times (x : number) (k : Z) : number :=
  match x with
  | Num z => toDouble (z * k)
  | PlusInfinity => PlusInfinity
  end.

(** [extractTTLFromHeaders(headers)]; [parseDate] stands for
    [new Date(s).getTime()], without a value when the date is invalid,
    and [now] is the reading of [Date.now()]. *)
Definition extractTTLFromHeaders (parseDate : string -> option Z)
    (headers : gmap string string) (now : Z) : option number :=
  let cacheControl := orElse (headers !! "cache-control") "" in
  match maxAgeMatch cacheControl with
  | Some digits => Some (times (parseInt digits) 1000)
  | None =>
      match headers !! "expires" with
      | Some (String a s) =>
          match parseDate (String a s) with
          | Some expiresTime =>
              if now <? expiresTime then Some (Num (expiresTime - now)) else None
          | None => None
          end
      | _ => None
      end
  end.

(** Beyond [2^53] the digits are rounded, and the product again; a number
    of more than 308 digits is [Infinity]. *)
Example max_age_rounded :
  extractTTLFromHeaders (fun _ => None)
    {[ "cache-control" := "max-age=9007199254740993" ]} 0
  = Some (Num 9007199254740992000) /\
  toDouble 9007199254740995 = Num 9007199254740996 /\
  toDouble (10 ^ 23) = Num 99999999999999991611392 /\
  times (toDouble (10 ^ 308)) 1000 = PlusInfinity /\
  toDouble (10 ^ 309) = PlusInfinity.
Proof. vm_compute. repeat split; reflexivity. Qed.

Lemma toDouble_exact z : z < 2 ^ 53 -> toDouble z = Num z.
Proof. intros Hz. unfold toDouble. by destruct (Z.ltb_spec z (2 ^ 53)); [|lia]. Qed.

Fixpoint allChars (p : ascii -> bool) (s : string) : bool :=
  match s with
  | EmptyString => true
  | String c s' => p c && allChars p s'
  end.

Lemma string_of_uint_digits d :
  allChars isDigit (DecimalString.NilEmpty.string_of_uint d) = true.
Proof.
  induction d; cbn [DecimalString.NilEmpty.string_of_uint allChars]; by rewrite ?IHd.
Qed.

Lemma toString10_digits n :
  allChars isDigit (toString10 n) = true /\ toString10 n <> EmptyString.
Proof.
  unfold toString10, DecimalString.NilZero.string_of_uint.
  destruct (N.to_uint (Z.to_N n)) as [|d|d|d|d|d|d|d|d|d|d] eqn:Hd;
    (split; [|done]); first [reflexivity | apply string_of_uint_digits].
Qed.

Lemma digitsValue_toString10 n : 0 <= n -> digitsValue (toString10 n) = n.
Proof.
  intros Hn. unfold digitsValue, toString10.
  assert (Hnonnil : N.to_uint (Z.to_N n) <> Decimal.Nil).
  { destruct (Z.to_N n) as [|q]; cbn; [discriminate|].
    apply DecimalPos.Unsigned.to_uint_nonnil. }
  rewrite (DecimalString.NilZero.usu _ Hnonnil), DecimalN.Unsigned.of_to. lia.
Qed.

(** Whether a text does not go on with a digit. *)
Definition noDigitAhead (rest : string) : Prop :=
  match rest with
  | EmptyString => True
  | String c _ => isDigit c = false
  end.

Lemma takeDigits_app digits rest :
  allChars isDigit digits = true -> noDigitAhead rest ->
  takeDigits (digits +:+ rest) = digits.
Proof.
  intros Hd Hrest. induction digits as [|c digits IH].
  - destruct rest as [|c rest]; [done|].
    change ("" +:+ String c rest) with (String c rest). cbn [takeDigits].
    unfold noDigitAhead in Hrest. by rewrite Hrest.
  - cbn [allChars] in Hd. apply andb_prop in Hd as [Hc Hd].
    change (String c digits +:+ rest) with (String c (digits +:+ rest)).
    cbn [takeDigits]. by rewrite Hc, IH.
Qed.

(** The equation of [maxAgeMatch]. *)
Lemma maxAgeMatch_cons c s :
  maxAgeMatch (String c s) =
  if startsWith "max-age=" (String c s) then
    match takeDigits (dropChars 8 (String c s)) with
    | EmptyString => maxAgeMatch s
    | digits => Some digits
    end
  else maxAgeMatch s.
Proof.
  cbn [maxAgeMatch]. destruct (startsWith "max-age=" (String c s)); [|done].
  by destruct (takeDigits (dropChars 8 (String c s))).
Qed.

(** [max-age=] does not overlap itself: an occurrence that begins in a
    text put before another occurrence lies within that text. *)
Lemma startsWith_maxAge_overlap b tail :
  startsWith "max-age=" (b +:+ "max-age=" +:+ tail) = true ->
  b = "" \/ startsWith "max-age=" b = true.
Proof.
  intros H.
  destruct b as [|c0 [|c1 [|c2 [|c3 [|c4 [|c5 [|c6 [|c7 b]]]]]]]]; [by left|right..];
    cbn in H |- *;
    repeat match type of H with
           | context [Ascii.eqb ?a ?c] => destruct (Ascii.eqb a c); cbn in H
           end; done.
Qed.

Lemma dropChars_maxAge after : dropChars 8 ("max-age=" +:+ after) = after.
Proof. reflexivity. Qed.

Lemma takeDigits_nil_app s tail :
  takeDigits s = "" -> takeDigits (s +:+ "max-age=" +:+ tail) = "".
Proof.
  destruct s as [|c s]; [done|].
  change (String c s +:+ "max-age=" +:+ tail) with (String c (s +:+ "max-age=" +:+ tail)).
  cbn [takeDigits]. by destruct (isDigit c).
Qed.

(** A text in which [/max-age=(\d+)/] finds nothing is passed over by the
    search for the first match. *)
Lemma maxAgeMatch_skip before tail :
  maxAgeMatch before = None ->
  maxAgeMatch (before +:+ "max-age=" +:+ tail) = maxAgeMatch ("max-age=" +:+ tail).
Proof.
  induction before as [|c before IH]; [done|].
  rewrite maxAgeMatch_cons. intros Hnone.
  change (String c before +:+ "max-age=" +:+ tail)
    with (String c (before +:+ "max-age=" +:+ tail)).
  rewrite maxAgeMatch_cons.
  change (String c (before +:+ "max-age=" +:+ tail))
    with (String c before +:+ "max-age=" +:+ tail).
  destruct (startsWith "max-age=" (String c before +:+ "max-age=" +:+ tail)) eqn:Hstart.
  - apply startsWith_maxAge_overlap in Hstart as [?|Hstart]; [done|].
    rewrite Hstart in Hnone.
    apply startsWith_spec in Hstart as [after Hafter].
    rewrite Hafter in Hnone |- *.
    rewrite dropChars_maxAge in Hnone.
    assert (Hdrop : dropChars 8 (("max-age=" +:+ after) +:+ "max-age=" +:+ tail)
                    = after +:+ "max-age=" +:+ tail) by reflexivity.
    rewrite Hdrop.
    destruct (takeDigits after) eqn:Hdigits; [|done].
    rewrite (takeDigits_nil_app after tail Hdigits).
    injection Hafter as _ Hbefore. by apply IH.
  - destruct (startsWith "max-age=" (String c before)); [|by apply IH].
    destruct (takeDigits (dropChars 8 (String c before))); [by apply IH|done].
Qed.

(** X15 -- the lifetime that a [max-age] directive gives a cached response.
    For a [cache-control] header in which the first match of
    [/max-age=(\d+)/] holds the decimal digits of [n], with [n * 1000]
    milliseconds from [now] below [2^53] (where the numbers of the code
    are the integers themselves), [extractTTLFromHeaders] returns
    [n * 1000], and [set] called with it stores an entry that expires [n]
    seconds later -- except for [max-age=0], where the lifetime zero is
    taken by [set] for a missing one and the entry lives for
    [defaultTTL]. *)
Theorem max_age_lifetime (parseDate : string -> option Z) (cfg : CacheConfig)
    (st : CacheService) (k : string) (v : Value) (headers : gmap string string)
    (before rest : string) (n now : Z) :
  0 <= n -> 0 <= now -> now + n * 1000 < 2 ^ 53 ->
  maxAgeMatch before = None ->
  noDigitAhead rest ->
  headers !! "cache-control" = Some (before +:+ "max-age=" +:+ toString10 n +:+ rest) ->
  extractTTLFromHeaders parseDate headers now = Some (Num (n * 1000)) /\
  exists entry,
    map_get k (cache (snd (set cfg st k v (Some (n * 1000)) now))) = Some entry /\
    expiresAt entry = now + (if n =? 0 then defaultTTL cfg else n * 1000).
Proof.
  intros Hn Hnow Hsmall Hbefore Hrest Hheader.
  destruct (toString10_digits n) as [Hdigits Hnonempty].
  assert (Hmatch : maxAgeMatch (before +:+ "max-age=" +:+ toString10 n +:+ rest)
                   = Some (toString10 n)).
  { rewrite maxAgeMatch_skip by done.
    change ("max-age=" +:+ toString10 n +:+ rest)
      with (String "m" ("ax-age=" +:+ toString10 n +:+ rest)).
    cbn [maxAgeMatch].
    change (startsWith "max-age=" (String "m" ("ax-age=" +:+ toString10 n +:+ rest)))
      with true.
    change (dropChars 8 (String "m" ("ax-age=" +:+ toString10 n +:+ rest)))
      with (toString10 n +:+ rest).
    rewrite takeDigits_app by done. by destruct (toString10 n). }
  split.
  - unfold extractTTLFromHeaders. rewrite Hheader. cbn zeta.
    assert (Hor : orElse (Some (before +:+ "max-age=" +:+ toString10 n +:+ rest)) ""
                  = before +:+ "max-age=" +:+ toString10 n +:+ rest).
    { unfold orElse. by destruct (before +:+ "max-age=" +:+ toString10 n +:+ rest). }
    rewrite Hor, Hmatch. unfold parseInt. rewrite digitsValue_toString10 by done.
    rewrite (toDouble_exact n) by lia. cbn [times]. by rewrite toDouble_exact by lia.
  - eexists. split; [apply set_entry|].
    cbn [expiresAt expirationOf]. destruct (Z.eqb_spec n 0) as [->|Hpos]; [done|].
    by destruct (Z.eqb_spec (n * 1000) 0); [lia|].
Qed.

(** An hour of lifetime behind two other directives, and [max-age=0]. *)
Lemma max_age_lifetime_witness :
  (extractTTLFromHeaders (fun _ => None)
     {[ "cache-control" := "must-revalidate, s-maxage=10, max-age=3600, public" ]} 5
   = Some (Num (3600 * 1000)) /\
   exists entry,
     map_get "k" (cache (snd (set defaultConfig emptyCache "k" (VNumber 1)
                                (Some (3600 * 1000)) 5))) = Some entry /\
     expiresAt entry = 5 + 3600 * 1000) /\
  (extractTTLFromHeaders (fun _ => None) {[ "cache-control" := "public, max-age=0" ]} 5
   = Some (Num (0 * 1000)) /\
   exists entry,
     map_get "k" (cache (snd (set defaultConfig emptyCache "k" (VNumber 1)
                                (Some (0 * 1000)) 5))) = Some entry /\
     expiresAt entry = 5 + 300000).
Proof.
  split.
  - apply (max_age_lifetime (fun _ => None) defaultConfig emptyCache "k" (VNumber 1)
             {[ "cache-control" := "must-revalidate, s-maxage=10, max-age=3600, public" ]}
             "must-revalidate, s-maxage=10, " ", public" 3600 5).
    + lia.
    + lia.
    + lia.
    + reflexivity.
    + reflexivity.
    + vm_compute. reflexivity.
  - apply (max_age_lifetime (fun _ => None) defaultConfig emptyCache "k" (VNumber 1)
             {[ "cache-control" := "public, max-age=0" ]} "public, " "" 0 5).
    + lia.
    + lia.
    + lia.
    + reflexivity.
    + exact I.
    + vm_compute. reflexivity.
Defined.

(** The first match decides: a [max-age=] without digits is passed over,
    and a later directive is not read. *)
Example max_age_first_match :
  extractTTLFromHeaders (fun _ => None)
    {[ "cache-control" := "max-age=, max-age=60, max-age=120" ]} 5
  = Some (Num 60000).
Proof. vm_compute. reflexivity. Qed.

(** A response that declares itself stale at once is one that
    [shouldCacheResponse] accepts. *)
Example max_age_zero_is_cached :
  shouldCacheResponse 200 {[ "cache-control" := "public, max-age=0" ]} = true.
Proof. vm_compute. reflexivity. Qed.


End Cache.

(* ===================================================================== *)
(** * Route registry: [routing/route-config.service.ts]                   *)
(* ===================================================================== *)
Module Routes.

(** [enum LoadBalancerAlgorithm] *)
Inductive LoadBalancerAlgorithm :=
| ROUND_ROBIN
| WEIGHTED_ROUND_ROBIN
| LEAST_CONNECTIONS
| LEAST_RESPONSE_TIME
| HEALTH_BASED
| RANDOM.

(** [interface RouteTarget] *)
Record RouteTarget := mkTarget {
  url : string;
  weight : Z;
  isHealthy : bool;
  lastHealthCheck : Z;
  responseTime : Z;
  errorCount : Z;
}.

(** [interface RouteConfig].  A method is the string of [enum HttpMethod];
    of [loadBalancer] the algorithm is kept, and the optional [rateLimit]
    and [headers] are left out. *)
Record RouteConfig := mkRoute {
  id : string;
  path : string;
  method : string;
  targets : list RouteTarget;
  algorithm : LoadBalancerAlgorithm;
  circuitBreaker : CircuitBreaker.CircuitBreakerConfig;
  timeout : Z;
  retries : Z;
  isActive : bool;
  createdAt : Z;
  updatedAt : Z;
}.

(** The [routes] map, in insertion order. *)
Definition RouteMap := list (string * RouteConfig).

(** [generateRouteKey(path, method)] *)
Definition generateRouteKey (path method : string) : string :=
  method +:+ ":" +:+ path.

Fixpoint map_get (k : string) (m : RouteMap) : option RouteConfig :=
  match m with
  | [] => None
  | (k', r) :: rest => if String.eqb k k' then Some r else map_get k rest
  end.

Fixpoint map_set (k : string) (r : RouteConfig) (m : RouteMap) : RouteMap :=
  match m with
  | [] => [(k, r)]
  | (k', r') :: rest =>
      if String.eqb k k' then (k, r) :: rest else (k', r') :: map_set k r rest
  end.

(** [getRoute(path, method)] *)
Definition getRoute (routes : RouteMap) (path method : string) : option RouteConfig :=
  map_get (generateRouteKey path method) routes.

(** [setRoute(config)]; [routeId] is the fresh [crypto.randomUUID()] and
    [now] the creation date that replace those of [config]. *)
Definition setRoute (routes : RouteMap) (config : RouteConfig) (routeId : string)
    (now : Z) : RouteConfig * RouteMap :=
  let route :=
    mkRoute routeId (path config) (method config) (targets config) (algorithm config)
      (circuitBreaker config) (timeout config) (retries config) (isActive config)
      now now in
  (route, map_set (generateRouteKey (path config) (method config)) route routes).

(** [getHealthyTargets(path, method)] *)
Definition getHealthyTargets (routes : RouteMap) (path method : string)
  : list RouteTarget :=
  match getRoute routes path method with
  | None => []
  | Some route => List.filter isHealthy (targets route)
  end.

(** The regular expression that [pathMatches] builds from a route path,
    as a list of tokens: [:name] becomes [([^/]+)], [*] becomes [.*], and
    a dot stays the dot of the expression.  The other characters stand for
    themselves; the translation is exact for route paths that hold none of
    the further metacharacters [\ ^ $ | ? + ( ) [ ] { }] outside a
    parameter name. *)
Inductive token :=
| TChar (c : ascii)
| TAny
| TParam
| TStar.

Definition isSlash (c : ascii) : bool := Ascii.eqb c "/".

(** The [.] of a JavaScript expression matches no line terminator. *)
Definition isLineTerminator (c : ascii) : bool :=
  Ascii.eqb c "010" || Ascii.eqb c "013".

(** One pass over the route path; [inParam] holds while the characters of
    a parameter name, up to the next [/], are being consumed. *)
Fixpoint compile (inParam : bool) (s : list ascii) : list token :=
  match s with
  | [] => []
  | c :: rest =>
      if inParam then
        if isSlash c then TChar c :: compile false rest else compile true rest
      else if Ascii.eqb c ":" then
        match rest with
        | c' :: _ => if isSlash c' then TChar c :: compile false rest
                     else TParam :: compile true rest
        | [] => [TChar c]
        end
      else if Ascii.eqb c "*" then TStar :: compile false rest
      else if Ascii.eqb c "." then TAny :: compile false rest
      else TChar c :: compile false rest
  end.

(** Whether the whole of [s] matches the tokens ([^pattern$]). *)
Fixpoint matchTokens (toks : list token) (s : list ascii) {struct toks} : bool :=
  match toks with
  | [] => match s with [] => true | _ :: _ => false end
  | TChar c :: rest =>
      match s with
      | c' :: s' => Ascii.eqb c c' && matchTokens rest s'
      | [] => false
      end
  | TAny :: rest =>
      match s with
      | c' :: s' => negb (isLineTerminator c') && matchTokens rest s'
      | [] => false
      end
  | TStar :: rest =>
      (fix star (s : list ascii) : bool :=
         matchTokens rest s ||
         match s with
         | c' :: s' => negb (isLineTerminator c') && star s'
         | [] => false
         end) s
  | TParam :: rest =>
      match s with
      | c' :: s' =>
          negb (isSlash c') &&
          (fix more (s : list ascii) : bool :=
             matchTokens rest s ||
             match s with
             | c'' :: s'' => negb (isSlash c'') && more s''
             | [] => false
             end) s'
      | [] => false
      end
  end.

(** [pathMatches(routePath, requestPath)] *)
Definition pathMatches (routePath requestPath : string) : bool :=
  matchTokens (compile false (list_ascii_of_string routePath))
    (list_ascii_of_string requestPath).

(** The pattern-matching loop of [findMatchingRoute]. *)
Fixpoint matchPattern (entries : RouteMap) (requestPath method' : string)
  : option RouteConfig :=
  match entries with
  | [] => None
  | (_, route) :: rest =>
      if String.eqb (method route) method' && isActive route
         && pathMatches (path route) requestPath
      then Some route
      else matchPattern rest requestPath method'
  end.

(** [findMatchingRoute(requestPath, method)] *)
Definition findMatchingRoute (routes : RouteMap) (requestPath method' : string)
  : option RouteConfig :=
  match getRoute routes requestPath method' with
  | Some exactMatch => Some exactMatch
  | None => matchPattern routes requestPath method'
  end.

(** The two routes of [initializeDefaultRoutes], with the identifiers and
    the date of their creation as parameters. *)
Definition defaultBreaker : CircuitBreaker.CircuitBreakerConfig :=
  CircuitBreaker.mkConfig true 5 30000 60000 None.

Definition usersConfig (now : Z) : RouteConfig :=
  mkRoute "" "/api/users" "GET"
    [mkTarget "http://user-service:3001/users" 1 true now 0 0;
     mkTarget "http://user-service-backup:3001/users" 1 true now 0 0]
    ROUND_ROBIN defaultBreaker 30000 3 true 0 0.

Definition ordersConfig (now : Z) : RouteConfig :=
  mkRoute "" "/api/orders" "GET"
    [mkTarget "http://order-service:3002/orders" 2 true now 0 0;
     mkTarget "http://order-service-v2:3002/orders" 1 true now 0 0]
    WEIGHTED_ROUND_ROBIN defaultBreaker 30000 3 true 0 0.

Definition initializeDefaultRoutes (usersId ordersId : string) (now : Z) : RouteMap :=
  let routes1 := snd (setRoute [] (usersConfig now) usersId now) in
  snd (setRoute routes1 (ordersConfig now) ordersId now).

(** ** Matching *)

Example pathMatches_cases :
  pathMatches "/api/users" "/api/users" = true /\
  pathMatches "/api/users/:id" "/api/users/42" = true /\
  pathMatches "/api/users/:id" "/api/users/42/posts" = false /\
  pathMatches "/api/users/:id/posts" "/api/users/42/posts" = true /\
  pathMatches "/files/*" "/files/a/b.txt" = true /\
  pathMatches "/api/users" "/api/users?page=1" = false.
Proof. vm_compute. repeat split. Qed.

Lemma matchPattern_sound entries requestPath method' route :
  matchPattern entries requestPath method' = Some route ->
  method route = method' /\ isActive route = true /\
  pathMatches (path route) requestPath = true /\
  route ∈ List.map snd entries.
Proof.
  induction entries as [|[k r] entries IH]; cbn; [discriminate|].
  destruct (String.eqb (method r) method' && isActive r
            && pathMatches (path r) requestPath) eqn:Htest.
  - intros [= <-]. apply andb_prop in Htest as [[Hm Ha]%andb_prop Hp].
    apply String.eqb_eq in Hm. repeat split; try done. apply list_elem_of_here.
  - intros Hrest. destruct (IH Hrest) as (? & ? & ? & ?).
    repeat split; try done. by apply list_elem_of_further.
Qed.

(** An inactive entry is passed over by the pattern loop. *)
Lemma matchPattern_skips_inactive k route entries requestPath method' :
  isActive route = false ->
  matchPattern ((k, route) :: entries) requestPath method' =
  matchPattern entries requestPath method'.
Proof. intros Hoff. cbn. rewrite Hoff. by rewrite andb_false_r. Qed.

(** C10 -- [findMatchingRoute] looks at [isActive] on the pattern-matching
    fallback only: the route stored under the exact key
    [(method, requestPath)] is returned whatever its [isActive] flag,
    while a route returned after the exact lookup has missed is active,
    has the requested method and matches the path as a pattern. *)
Theorem C10_exact_match_ignores_active (routes : RouteMap) (requestPath method' : string)
    (route : RouteConfig) :
  (getRoute routes requestPath method' = Some route ->
   findMatchingRoute routes requestPath method' = Some route)
  /\
  (getRoute routes requestPath method' = None ->
   findMatchingRoute routes requestPath method' = Some route ->
   isActive route = true /\ method route = method' /\
   pathMatches (path route) requestPath = true).
Proof.
  unfold findMatchingRoute. split.
  - by intros ->.
  - intros -> Hfound. apply matchPattern_sound in Hfound as (? & ? & ? & _). done.
Qed.

(** A registry holding one deactivated route with a parameter. *)
Definition retiredItem : RouteConfig :=
  mkRoute "r-1" "/api/items/:id" "GET" [] ROUND_ROBIN defaultBreaker 30000 3 false 0 0.

Definition retiredRoutes : RouteMap := snd (setRoute [] retiredItem "r-1" 0).

Lemma C10_exact_match_ignores_active_witness :
  isActive retiredItem = false /\
  findMatchingRoute retiredRoutes "/api/items/:id" "GET" = Some retiredItem /\
  findMatchingRoute retiredRoutes "/api/items/42" "GET" = None.
Proof.
  split; [reflexivity|]. split.
  - apply (proj1 (C10_exact_match_ignores_active retiredRoutes "/api/items/:id" "GET"
                    retiredItem)).
    reflexivity.
  - destruct (findMatchingRoute retiredRoutes "/api/items/42" "GET") as [r|] eqn:Hfound;
      [|reflexivity].
    destruct (proj2 (C10_exact_match_ignores_active retiredRoutes "/api/items/42" "GET" r)
                eq_refl Hfound) as (Hactive & _).
    apply matchPattern_sound in Hfound as (_ & _ & _ & Hin).
    apply list_elem_of_singleton in Hin as ->. discriminate.
Defined.

(** ** The remaining operations of the registry *)

Fixpoint map_delete (k : string) (m : RouteMap) : RouteMap :=
  match m with
  | [] => []
  | (k', r') :: rest =>
      if String.eqb k k' then map_delete k rest else (k', r') :: map_delete k rest
  end.

(** [getAllRoutes()] *)
Definition getAllRoutes (routes : RouteMap) : list RouteConfig :=
  List.filter isActive (List.map snd routes).

(** [removeRoute(path, method)]: the result of [Map.delete]. *)
Definition removeRoute (routes : RouteMap) (path method : string) : bool * RouteMap :=
  let routeKey := generateRouteKey path method in
  (bool_decide (is_Some (map_get routeKey routes)), map_delete routeKey routes).

(** [targets.find(test)] followed by an assignment to the target found:
    the first target that passes the test is changed where it stands. *)
Fixpoint updateFirst (test : RouteTarget -> bool) (change : RouteTarget -> RouteTarget)
    (ts : list RouteTarget) : list RouteTarget :=
  match ts with
  | [] => []
  | t :: rest => if test t then change t :: rest else t :: updateFirst test change rest
  end.

Definition withTargets (route : RouteConfig) (ts : list RouteTarget) : RouteConfig :=
  mkRoute (id route) (path route) (method route) ts (algorithm route)
    (circuitBreaker route) (timeout route) (retries route) (isActive route)
    (createdAt route) (updatedAt route).

(** [updateTargetHealth(path, method, targetUrl, isHealthy)] with
    [now = new Date()].  The route object is the one held by the map, so
    the assignment shows in the map, under the same key. *)
Definition updateTargetHealth (routes : RouteMap) (path method targetUrl : string)
    (healthy : bool) (now : Z) : RouteMap :=
  match getRoute routes path method with
  | None => routes
  | Some route =>
      map_set (generateRouteKey path method)
        (withTargets route
           (updateFirst (fun t => String.eqb (url t) targetUrl)
              (fun t => mkTarget (url t) (weight t) healthy now (responseTime t)
                          (if healthy then errorCount t else errorCount t + 1))
              (targets route)))
        routes
  end.

(** [updateTargetResponseTime(path, method, targetUrl, responseTime)] *)
Definition updateTargetResponseTime (routes : RouteMap) (path method targetUrl : string)
    (time : Z) : RouteMap :=
  match getRoute routes path method with
  | None => routes
  | Some route =>
      map_set (generateRouteKey path method)
        (withTargets route
           (updateFirst (fun t => String.eqb (url t) targetUrl)
              (fun t => mkTarget (url t) (weight t) (isHealthy t) (lastHealthCheck t)
                          time (errorCount t))
              (targets route)))
        routes
  end.

(** [enum HttpMethod] *)
Definition HttpMethod : list string :=
  ["GET"; "POST"; "PUT"; "DELETE"; "PATCH"; "HEAD"; "OPTIONS"].

Fixpoint colonFree (s : string) : bool :=
  match s with
  | EmptyString => true
  | String c s' => negb (Ascii.eqb c ":") && colonFree s'
  end.

Lemma HttpMethod_colonFree m : m ∈ HttpMethod -> colonFree m = true.
Proof.
  unfold HttpMethod. rewrite !elem_of_cons, elem_of_nil.
  intros [->|[->|[->|[->|[->|[->|[->|[]]]]]]]]; reflexivity.
Qed.

(** Route keys of two methods without a colon are equal only for equal
    paths and methods. *)
Lemma generateRouteKey_inj p1 m1 p2 m2 :
  colonFree m1 = true -> colonFree m2 = true ->
  generateRouteKey p1 m1 = generateRouteKey p2 m2 -> p1 = p2 /\ m1 = m2.
Proof.
  unfold generateRouteKey. revert m2.
  induction m1 as [|c1 m1 IH]; intros [|c2 m2]; cbn [colonFree];
    intros H1 H2 Heq; cbv [String.app] in Heq; fold String.app in Heq.
  - by injection Heq as ->.
  - injection Heq as <- _. done.
  - injection Heq as -> _. done.
  - apply andb_prop in H1 as [_ H1]. apply andb_prop in H2 as [_ H2].
    injection Heq as -> Heq. destruct (IH m2 H1 H2 Heq) as [-> ->]. done.
Qed.

Lemma route_get_set_eq k r m : map_get k (map_set k r m) = Some r.
Proof.
  induction m as [|[k' r'] m IH]; cbn.
  - by rewrite String.eqb_refl.
  - destruct (String.eqb k k') eqn:Hk; cbn; rewrite ?String.eqb_refl, ?Hk; done.
Qed.

Lemma route_get_set_ne k k' r m :
  k' <> k -> map_get k' (map_set k r m) = map_get k' m.
Proof.
  intros Hne. induction m as [|[k'' r''] m IH]; cbn.
  - by destruct (String.eqb_spec k' k).
  - destruct (String.eqb_spec k k'') as [->|Hk]; cbn.
    + by destruct (String.eqb_spec k' k'').
    + destruct (String.eqb_spec k' k''); [done|apply IH].
Qed.

Lemma route_get_delete_eq k m : map_get k (map_delete k m) = None.
Proof.
  induction m as [|[k' r'] m IH]; cbn; [done|].
  destruct (String.eqb k k') eqn:Hk; cbn; rewrite ?Hk; done.
Qed.

Lemma route_get_delete_ne k k' m :
  k' <> k -> map_get k' (map_delete k m) = map_get k' m.
Proof.
  intros Hne. induction m as [|[k'' r''] m IH]; cbn; [done|].
  destruct (String.eqb_spec k k'') as [->|Hk]; cbn.
  - destruct (String.eqb_spec k' k''); [done|apply IH].
  - destruct (String.eqb_spec k' k''); [done|apply IH].
Qed.

(** X16 -- the registry is a map from (path, method) pairs: for the methods
    of [HttpMethod], after [setRoute] the pair of the new configuration
    yields the stored route and every other pair yields what it did
    before; a following [removeRoute] of that pair answers [true], empties
    it and again leaves every other pair alone. *)
Theorem registry_round_trip (routes : RouteMap) (config : RouteConfig)
    (routeId : string) (now : Z) (path' method' : string) :
  method config ∈ HttpMethod -> method' ∈ HttpMethod ->
  let stored := setRoute routes config routeId now in
  let removed := removeRoute (snd stored) (path config) (method config) in
  getRoute (snd stored) path' method' =
    (if bool_decide (path' = path config /\ method' = method config)
     then Some (fst stored) else getRoute routes path' method') /\
  fst removed = true /\
  getRoute (snd removed) path' method' =
    (if bool_decide (path' = path config /\ method' = method config)
     then None else getRoute routes path' method').
Proof.
  intros Hm%HttpMethod_colonFree Hm'%HttpMethod_colonFree. cbn zeta.
  unfold removeRoute, setRoute, getRoute. cbn [fst snd].
  rewrite route_get_set_eq.
  case_bool_decide as Hsame.
  - destruct Hsame as [-> ->].
    rewrite route_get_set_eq, route_get_delete_eq.
    split; [done|]. split; [|done]. apply bool_decide_eq_true. eauto.
  - assert (Hne : generateRouteKey path' method' <>
                  generateRouteKey (path config) (method config)).
    { intros Heq. apply Hsame. by apply generateRouteKey_inj. }
    rewrite route_get_delete_ne, !route_get_set_ne by done.
    split; [done|]. split; [|done]. apply bool_decide_eq_true. eauto.
Qed.

(** ** Which route a request finds *)

(** The test of the pattern loop. *)
Definition candidate (requestPath method' : string) (route : RouteConfig) : bool :=
  String.eqb (method route) method' && isActive route
  && pathMatches (path route) requestPath.

(** The characters that [pathMatches] hands over to [new RegExp] with a
    meaning of their own in the expression. *)
Definition isSpecial (c : ascii) : bool :=
  existsb (Ascii.eqb c) (list_ascii_of_string "\^$|?+()[]{}").

(** Whether a route path holds none of them outside a parameter name,
    where the first replacement removes them; the pass is the one of
    [compile]. *)
Fixpoint tame (inParam : bool) (s : list ascii) : bool :=
  match s with
  | [] => true
  | c :: rest =>
      if inParam then
        if isSlash c then tame false rest else tame true rest
      else if Ascii.eqb c ":" then
        match rest with
        | c' :: _ => if isSlash c' then tame false rest else tame true rest
        | [] => true
        end
      else negb (isSpecial c) && tame false rest
  end.

(** The route paths for which the expression built by the code is the one
    of [compile]: for the others [new RegExp] reads a group, a class or a
    quantifier, or throws. *)
Definition wellFormed (routePath : string) : bool :=
  tame false (list_ascii_of_string routePath).

Example wellFormed_cases :
  wellFormed "/api/users" = true /\
  wellFormed "/api/users/:id/posts" = true /\
  wellFormed "/files/*" = true /\
  wellFormed "/v1.0/:na(me/x" = true /\
  wellFormed "/a(b" = false /\
  wellFormed "/items?" = false /\
  wellFormed "/a+b" = false.
Proof. vm_compute. repeat split; reflexivity. Qed.

(** X17 -- among overlapping patterns the order of registration decides.
    When the paths of the active routes with the requested method are
    well formed (so that every expression compiles and means what
    [pathMatches] reads in it) and no route is stored under the exact key,
    [findMatchingRoute] returns the first route of the map that is active,
    has the method and matches the path, and returns none only when the
    map holds no such route. *)
Theorem findMatchingRoute_first_match (routes : RouteMap) (requestPath method' : string) :
  Forall (fun entry =>
            String.eqb (method (snd entry)) method' && isActive (snd entry) = true ->
            wellFormed (path (snd entry)) = true) routes ->
  getRoute routes requestPath method' = None ->
  match findMatchingRoute routes requestPath method' with
  | Some route =>
      exists before k after,
        routes = before ++ (k, route) :: after /\
        candidate requestPath method' route = true /\
        wellFormed (path route) = true /\
        Forall (fun p => candidate requestPath method' (snd p) = false) before
  | None => Forall (fun p => candidate requestPath method' (snd p) = false) routes
  end.
Proof.
  unfold findMatchingRoute. intros Hwell ->.
  induction routes as [|[k r] routes IH]; cbn [matchPattern]; [constructor|].
  apply Forall_cons in Hwell as [Hr' Hwell]. cbn [snd] in Hr'.
  fold (candidate requestPath method' r).
  destruct (candidate requestPath method' r) eqn:Hr.
  - exists [], k, routes. split; [done|]. split; [done|]. split; [|constructor].
    apply Hr'. unfold candidate in Hr. by apply andb_prop in Hr as [-> _].
  - specialize (IH Hwell). destruct (matchPattern routes requestPath method') as [route|].
    + destruct IH as (before & k' & after & -> & Hc & Hw & Hbefore).
      exists ((k, r) :: before), k', after. split; [done|]. split; [done|].
      split; [done|]. by constructor.
    + by constructor.
Qed.

(** ** Patterns *)

(** The characters that mean something to [pathMatches] or to the regular
    expression it builds. *)
Definition isMeta (c : ascii) : bool :=
  existsb (Ascii.eqb c) (list_ascii_of_string ":*.\^$|?+()[]{}").

Definition plain (s : string) : Prop :=
  forallb (fun c => negb (isMeta c)) (list_ascii_of_string s) = true.

Definition slashFree (s : string) : Prop :=
  forallb (fun c => negb (isSlash c)) (list_ascii_of_string s) = true.

Definition oneLine (s : string) : Prop :=
  forallb (fun c => negb (isLineTerminator c)) (list_ascii_of_string s) = true.

Lemma list_ascii_of_string_app s1 s2 :
  list_ascii_of_string (s1 +:+ s2) = list_ascii_of_string s1 ++ list_ascii_of_string s2.
Proof.
  induction s1 as [|c s1 IH]; [done|].
  change (String c s1 +:+ s2) with (String c (s1 +:+ s2)).
  cbn [list_ascii_of_string app]. by rewrite IH.
Qed.

Lemma string_of_list_ascii_app l1 l2 :
  string_of_list_ascii (l1 ++ l2) = string_of_list_ascii l1 +:+ string_of_list_ascii l2.
Proof.
  induction l1 as [|c l1 IH]; [done|].
  cbn [app string_of_list_ascii]. rewrite IH. done.
Qed.

Lemma isMeta_false c :
  isMeta c = false ->
  Ascii.eqb c ":" = false /\ Ascii.eqb c "*" = false /\ Ascii.eqb c "." = false.
Proof.
  unfold isMeta. cbn [list_ascii_of_string existsb].
  intros H. repeat (apply orb_false_elim in H as [? H]). done.
Qed.

Lemma compile_plain_app l rest :
  forallb (fun c => negb (isMeta c)) l = true ->
  compile false (l ++ rest) = List.map TChar l ++ compile false rest.
Proof.
  induction l as [|c l IH]; [done|].
  cbn [forallb]. intros [Hc Hl]%andb_prop. apply negb_true_iff in Hc.
  apply isMeta_false in Hc as (H1 & H2 & H3).
  cbn [app compile List.map]. rewrite H1, H2, H3. by rewrite IH.
Qed.

Lemma compile_name l :
  forallb (fun c => negb (isSlash c)) l = true -> compile true l = [].
Proof.
  induction l as [|c l IH]; [done|].
  cbn [forallb compile]. intros [Hc Hl]%andb_prop. apply negb_true_iff in Hc.
  rewrite Hc. by apply IH.
Qed.

Lemma matchTokens_chars l toks s :
  matchTokens (List.map TChar l ++ toks) s = true <->
  exists rest, s = l ++ rest /\ matchTokens toks rest = true.
Proof.
  revert s. induction l as [|c l IH]; intros s; cbn [List.map app].
  - split; [by exists s|by intros (rest & -> & ?)].
  - cbn [matchTokens]. destruct s as [|c' s].
    + split; [done|by intros (rest & ? & _)].
    + rewrite andb_true_iff, IH. split.
      * intros [->%Ascii.eqb_eq (rest & -> & Hrest)]. by exists rest.
      * intros (rest & [= -> ->] & Hrest). split; [apply Ascii.eqb_refl|by exists rest].
Qed.

Lemma matchTokens_star s :
  matchTokens [TStar] s = forallb (fun c => negb (isLineTerminator c)) s.
Proof.
  cbn [matchTokens]. induction s as [|c s IH]; [done|].
  cbn [forallb]. rewrite IH. cbn [matchTokens orb]. done.
Qed.

Lemma matchTokens_param s :
  matchTokens [TParam] s =
  match s with
  | [] => false
  | c :: s' => forallb (fun c => negb (isSlash c)) (c :: s')
  end.
Proof.
  cbn [matchTokens]. destruct s as [|c s]; [done|]. cbn [forallb]. f_equal.
  induction s as [|c' s IH]; [done|].
  cbn [forallb]. rewrite IH. cbn [matchTokens orb]. done.
Qed.

(** X18 -- a route path without [:], [*], [.] or another metacharacter of
    regular expressions matches exactly itself: [pathMatches] is then
    equality of strings. *)
Theorem pathMatches_plain (routePath requestPath : string) :
  plain routePath ->
  pathMatches routePath requestPath = String.eqb routePath requestPath.
Proof.
  intros Hplain. unfold pathMatches.
  pose proof (compile_plain_app (list_ascii_of_string routePath) [] Hplain) as Hc.
  rewrite (app_nil_r (list_ascii_of_string routePath)) in Hc.
  change (compile false []) with (@nil token) in Hc. rewrite Hc.
  apply eq_true_iff_eq. rewrite String.eqb_eq, matchTokens_chars. split.
  - intros (rest & Heq & Hrest). destruct rest; [|done].
    rewrite app_nil_r in Heq.
    rewrite <- (string_of_list_ascii_of_string routePath),
            <- (string_of_list_ascii_of_string requestPath). by rewrite Heq.
  - intros ->. exists []. by rewrite app_nil_r.
Qed.

(** X19 -- the two wildcards after a plain prefix: [prefix*] matches the
    paths that extend the prefix by anything without a line terminator,
    and [prefix:name] those that extend it by one non-empty segment
    without a slash. *)
Theorem pathMatches_wildcards (prefix name requestPath : string) :
  plain prefix -> name <> EmptyString -> slashFree name ->
  (pathMatches (prefix +:+ "*") requestPath = true <->
   exists rest, requestPath = prefix +:+ rest /\ oneLine rest) /\
  (pathMatches (prefix +:+ ":" +:+ name) requestPath = true <->
   exists segment, requestPath = prefix +:+ segment /\ segment <> EmptyString /\
                   slashFree segment).
Proof.
  intros Hplain Hname Hslash.
  assert (Hback : forall l, requestPath = prefix +:+ string_of_list_ascii l <->
                            list_ascii_of_string requestPath =
                            list_ascii_of_string prefix ++ l).
  { intros l. split.
    - intros ->. by rewrite list_ascii_of_string_app, list_ascii_of_string_of_list_ascii.
    - intros Heq. rewrite <- (string_of_list_ascii_of_string requestPath), Heq.
      by rewrite string_of_list_ascii_app, string_of_list_ascii_of_string. }
  unfold pathMatches. rewrite !list_ascii_of_string_app, !compile_plain_app by done.
  rewrite !matchTokens_chars. split.
  - change (compile false (list_ascii_of_string "*")) with [TStar]. split.
    + intros (rest & Heq & Hrest). rewrite matchTokens_star in Hrest.
      exists (string_of_list_ascii rest). split; [by apply Hback|].
      unfold oneLine. by rewrite list_ascii_of_string_of_list_ascii.
    + intros (rest & -> & Hrest). exists (list_ascii_of_string rest).
      rewrite matchTokens_star. split; [by rewrite list_ascii_of_string_app|done].
  - assert (Hc : compile false (list_ascii_of_string ":" ++ list_ascii_of_string name)
                 = [TParam]).
    { destruct name as [|c name]; [done|]. unfold slashFree in Hslash.
      cbn [list_ascii_of_string forallb] in Hslash.
      apply andb_prop in Hslash as [Hc Hrest]. apply negb_true_iff in Hc.
      change (compile false (list_ascii_of_string ":" ++
                             list_ascii_of_string (String c name)))
        with (if isSlash c
              then TChar ":" :: compile false (c :: list_ascii_of_string name)
              else TParam :: compile true (c :: list_ascii_of_string name)).
      rewrite Hc. cbn [compile]. rewrite Hc.
      by rewrite (compile_name _ Hrest). }
    rewrite Hc. split.
    + intros (rest & Heq & Hrest). rewrite matchTokens_param in Hrest.
      destruct rest as [|c rest]; [done|].
      exists (string_of_list_ascii (c :: rest)). split; [by apply Hback|].
      split; [done|]. unfold slashFree. by rewrite list_ascii_of_string_of_list_ascii.
    + intros (segment & -> & Hne & Hseg). exists (list_ascii_of_string segment).
      rewrite matchTokens_param. split; [by rewrite list_ascii_of_string_app|].
      destruct segment as [|c segment]; [done|]. exact Hseg.
Qed.

(** ** Health flags *)

Lemma updateFirst_other test change ts t :
  test t = false -> (forall t0, test t0 = true -> test (change t0) = true) ->
  t ∈ updateFirst test change ts <-> t ∈ ts.
Proof.
  intros Ht Hkeep. induction ts as [|t0 ts IH]; cbn [updateFirst]; [done|].
  destruct (test t0) eqn:Ht0.
  - rewrite !elem_of_cons. split; intros [->|Hin]; eauto.
    + specialize (Hkeep _ Ht0). congruence.
    + congruence.
  - rewrite !elem_of_cons, IH. done.
Qed.

Lemma updateFirst_changed test change ts t :
  NoDup (List.map url ts) ->
  (forall t1 t2, test t1 = true -> test t2 = true -> url t1 = url t2) ->
  (forall t0, url (change t0) = url t0) ->
  t ∈ updateFirst test change ts -> test t = true ->
  exists t0, t0 ∈ ts /\ t = change t0.
Proof.
  intros Hnd Hsame Hurl. induction ts as [|t0 ts IH]; cbn [updateFirst]; [by intros ?%elem_of_nil|].
  cbn in Hnd. apply NoDup_cons in Hnd as [Hout Hnd].
  destruct (test t0) eqn:Ht0.
  - intros [->|Hin]%elem_of_cons Ht.
    + exists t0. split; [apply list_elem_of_here|done].
    + destruct Hout. rewrite (Hsame t0 t Ht0 Ht). by apply (list_elem_of_fmap_2 url).
  - intros [->|Hin]%elem_of_cons Ht; [congruence|].
    destruct (IH Hnd Hin Ht) as (t1 & Hin1 & ->).
    exists t1. split; [by apply list_elem_of_further|done].
Qed.

(** X20 -- [updateTargetHealth] and [getHealthyTargets] together: after a
    target of a stored route has been marked, the healthy targets of other
    addresses are those of before; and where the addresses of the route are
    distinct, marking an address unhealthy leaves no healthy target of that
    address. *)
Theorem updateTargetHealth_healthy_targets (routes : RouteMap)
    (path' method' targetUrl : string) (healthy : bool) (now : Z) (route : RouteConfig) :
  getRoute routes path' method' = Some route ->
  NoDup (List.map url (targets route)) ->
  let after := updateTargetHealth routes path' method' targetUrl healthy now in
  (forall t, url t <> targetUrl ->
     t ∈ getHealthyTargets after path' method' <->
     t ∈ getHealthyTargets routes path' method') /\
  (healthy = false ->
   forall t, t ∈ getHealthyTargets after path' method' -> url t <> targetUrl).
Proof.
  intros Hroute Hnd. cbn zeta. unfold updateTargetHealth, getHealthyTargets.
  rewrite Hroute. unfold getRoute in *. rewrite route_get_set_eq. cbn [targets withTargets].
  split.
  - intros t Ht. rewrite !list_elem_of_In, !List.filter_In, <- !list_elem_of_In.
    rewrite updateFirst_other; [done| |].
    + by apply String.eqb_neq.
    + done.
  - intros -> t. rewrite list_elem_of_In, List.filter_In, <- list_elem_of_In.
    intros [Hin Hhealthy] Hurl.
    match type of Hin with
    | _ ∈ updateFirst ?test ?change _ =>
        destruct (updateFirst_changed test change _ t Hnd) as (t0 & _ & Ht0)
    end; try done.
    + intros t1 t2 H1%String.eqb_eq H2%String.eqb_eq. congruence.
    + by apply String.eqb_eq.
    + by rewrite Ht0 in Hhealthy.
Qed.

Lemma registry_round_trip_witness :
  "GET" ∈ HttpMethod /\
  getRoute (snd (setRoute retiredRoutes (usersConfig 0) "r-2" 1)) "/api/users" "GET"
  = Some (fst (setRoute retiredRoutes (usersConfig 0) "r-2" 1)).
Proof.
  assert (Hget : "GET" ∈ HttpMethod) by apply list_elem_of_here.
  split; [exact Hget|].
  destruct (registry_round_trip retiredRoutes (usersConfig 0) "r-2" 1 "/api/users" "GET"
              Hget Hget) as (Hstored & _).
  exact Hstored.
Defined.

(** Two overlapping patterns and a route switched off, registered in this
    order. *)
Definition patternConfig (path' : string) (active : bool) : RouteConfig :=
  mkRoute "" path' "GET" [mkTarget "http://user-service:3001" 1 true 0 0 0]
    ROUND_ROBIN defaultBreaker 30000 3 active 0 0.

Definition patternRoutes : RouteMap :=
  let routes1 := snd (setRoute [] (patternConfig "/api/(old" false) "p-0" 0) in
  let routes2 := snd (setRoute routes1 (patternConfig "/api/users/:id" true) "p-1" 0) in
  snd (setRoute routes2 (patternConfig "/api/users/*" true) "p-2" 0).

Lemma findMatchingRoute_first_match_witness :
  getRoute patternRoutes "/api/users/42" "GET" = None /\
  exists before k after,
    patternRoutes =
    before ++ (k, fst (setRoute [] (patternConfig "/api/users/:id" true) "p-1" 0)) :: after /\
    length before = 1%nat /\ length after = 1%nat.
Proof.
  assert (Hexact : getRoute patternRoutes "/api/users/42" "GET" = None) by reflexivity.
  split; [exact Hexact|].
  assert (Hwell : Forall (fun entry =>
                    String.eqb (method (snd entry)) "GET" && isActive (snd entry) = true ->
                    wellFormed (path (snd entry)) = true) patternRoutes).
  { constructor; [by vm_compute|]. constructor; [intros _; by vm_compute|].
    constructor; [intros _; by vm_compute|]. constructor. }
  pose proof (findMatchingRoute_first_match patternRoutes "/api/users/42" "GET"
                Hwell Hexact) as Hfirst.
  assert (Hfound : findMatchingRoute patternRoutes "/api/users/42" "GET" =
                   Some (fst (setRoute [] (patternConfig "/api/users/:id" true) "p-1" 0)))
    by (vm_compute; reflexivity).
  rewrite Hfound in Hfirst.
  destruct Hfirst as (before & k & after & Heq & _ & _ & Hbefore).
  exists before, k, after. split; [exact Heq|].
  destruct before as [|e1 [|e2 before]].
  - apply (f_equal (fun l => List.map (fun entry => id (snd entry)) l)) in Heq.
    vm_compute in Heq. discriminate.
  - injection Heq as _ Heq. destruct after as [|e3 [|e4 after]].
    + vm_compute in Heq. discriminate.
    + split; reflexivity.
    + vm_compute in Heq. discriminate.
  - exfalso. apply Forall_cons in Hbefore as [_ Hbefore].
    apply Forall_cons in Hbefore as [He2 _].
    apply (f_equal (fun l => nth_error l 1)) in Heq. cbn in Heq.
    injection Heq as <-. vm_compute in He2. discriminate.
Defined.

Lemma pathMatches_plain_witness :
  plain "/api/users" /\ pathMatches "/api/users" "/api/users/42" = false.
Proof.
  split; [reflexivity|].
  rewrite (pathMatches_plain "/api/users" "/api/users/42"); reflexivity.
Defined.

Lemma pathMatches_wildcards_witness :
  plain "/api/users/" /\ "id" <> EmptyString /\ slashFree "id" /\
  pathMatches "/api/users/:id" "/api/users/42" = true.
Proof.
  split; [reflexivity|]. split; [discriminate|]. split; [reflexivity|].
  destruct (pathMatches_wildcards "/api/users/" "id" "/api/users/42") as (_ & Hparam);
    [reflexivity|discriminate|reflexivity|].
  apply Hparam. exists "42". split; [reflexivity|]. split; [discriminate|reflexivity].
Defined.

Lemma updateTargetHealth_healthy_targets_witness :
  NoDup (List.map url (targets (usersConfig 0))) /\
  forall t,
    t ∈ getHealthyTargets
          (updateTargetHealth (initializeDefaultRoutes "u" "o" 0) "/api/users" "GET"
             "http://user-service:3001/users" false 1) "/api/users" "GET" ->
    url t <> "http://user-service:3001/users".
Proof.
  assert (Hnd : NoDup (List.map url (targets (usersConfig 0)))).
  { cbn. apply NoDup_cons. split; [|apply NoDup_singleton].
    by intros ?%list_elem_of_singleton. }
  split; [exact Hnd|].
  apply (updateTargetHealth_healthy_targets (initializeDefaultRoutes "u" "o" 0)
           "/api/users" "GET" "http://user-service:3001/users" false 1
           (mkRoute "u" "/api/users" "GET" (targets (usersConfig 0)) ROUND_ROBIN
              defaultBreaker 30000 3 true 0 0) eq_refl Hnd).
  reflexivity.
Defined.


End Routes.

(* ===================================================================== *)
(** * Load balancer: [load-balancer/load-balancer.service.ts]             *)
(* ===================================================================== *)
Module LoadBalancer.

Import Routes.

(** The two maps of the service.  Counters and counts are the integers
    that JavaScript numbers hold exactly, below [2 ^ 53]. *)
Record LoadBalancerService := mkBalancer {
  roundRobinCounters : gmap string Z;
  connectionCounts : gmap string Z;
}.

Definition fresh : LoadBalancerService := mkBalancer ∅ ∅.

(** [targets[index]]: [undefined] outside the array. *)
Definition at_index (targets : list RouteTarget) (index : Z) : option RouteTarget :=
  if index <? 0 then None else targets !! Z.to_nat index.

(** A value of [Math.random()], as a fraction. *)
Record Random := mkRandom {
  numerator : Z;
  denominator : Z;
}.

(** [Math.random()] lies in [[0, 1)]. *)
Definition inUnitInterval (rnd : Random) : Prop :=
  0 <= numerator rnd < denominator rnd.

(** [roundRobinCounters.get(routeKey) || 0] *)
Definition getCounter (lb : LoadBalancerService) (routeKey : string) : Z :=
  default 0 (roundRobinCounters lb !! routeKey).

Definition setCounter (lb : LoadBalancerService) (routeKey : string) (v : Z)
  : LoadBalancerService :=
  mkBalancer (<[routeKey := v]> (roundRobinCounters lb)) (connectionCounts lb).

(** [getConnectionCount(targetUrl)] *)
Definition getConnectionCount (lb : LoadBalancerService) (targetUrl : string) : Z :=
  default 0 (connectionCounts lb !! targetUrl).

(** [incrementConnectionCount(targetUrl)] *)
Definition incrementConnectionCount (lb : LoadBalancerService) (targetUrl : string)
  : LoadBalancerService :=
  let current := getConnectionCount lb targetUrl in
  mkBalancer (roundRobinCounters lb) (<[targetUrl := current + 1]> (connectionCounts lb)).

(** [decrementConnectionCount(targetUrl)] *)
Definition decrementConnectionCount (lb : LoadBalancerService) (targetUrl : string)
  : LoadBalancerService :=
  let current := getConnectionCount lb targetUrl in
  mkBalancer (roundRobinCounters lb)
    (<[targetUrl := Z.max 0 (current - 1)]> (connectionCounts lb)).

(** [resetStats()] *)
Definition resetStats (lb : LoadBalancerService) : LoadBalancerService := mkBalancer ∅ ∅.

(** [roundRobinSelection(targets, routeKey)]; [%] keeps the sign of the
    counter. *)
Definition roundRobinSelection (lb : LoadBalancerService) (targets : list RouteTarget)
    (routeKey : string) : option RouteTarget * LoadBalancerService :=
  let counter := getCounter lb routeKey in
  let selectedIndex := Z.rem counter (Z.of_nat (length targets)) in
  (at_index targets selectedIndex, setCounter lb routeKey (counter + 1)).

(** [targets.reduce((sum, target) => sum + target.weight, 0)] *)
Definition totalWeight (targets : list RouteTarget) : Z :=
  fold_left (fun sum target => sum + weight target) targets 0.

(** The [for] loop of [weightedRoundRobinSelection]. *)
Fixpoint walk (weightedIndex : Z) (targets : list RouteTarget) : option RouteTarget :=
  match targets with
  | [] => None
  | target :: rest =>
      let weightedIndex' := weightedIndex - weight target in
      if weightedIndex' <=? 0 then Some target else walk weightedIndex' rest
  end.

(** [weightedRoundRobinSelection(targets, routeKey)].  With a total
    weight of zero [counter % totalWeight] is [NaN], no comparison of the
    loop holds, and the fallback returns the first target. *)
Definition weightedRoundRobinSelection (lb : LoadBalancerService)
    (targets : list RouteTarget) (routeKey : string)
  : option RouteTarget * LoadBalancerService :=
  let counter := getCounter lb routeKey in
  let found :=
    if totalWeight targets =? 0 then None
    else walk (Z.rem counter (totalWeight targets) + 1) targets in
  (match found with
   | Some target => Some target
   | None => head targets
   end,
   setCounter lb routeKey (counter + 1)).

(** The loop of [leastConnectionsSelection] over [targets.slice(1)]. *)
Fixpoint leastLoop (lb : LoadBalancerService) (rest : list RouteTarget)
    (selectedTarget : RouteTarget) (minConnections : Z) : RouteTarget :=
  match rest with
  | [] => selectedTarget
  | target :: rest' =>
      let connections := getConnectionCount lb (url target) in
      if connections <? minConnections then leastLoop lb rest' target connections
      else leastLoop lb rest' selectedTarget minConnections
  end.

(** [leastConnectionsSelection(targets)] *)
Definition leastConnectionsSelection (lb : LoadBalancerService)
    (targets : list RouteTarget) : option RouteTarget :=
  match targets with
  | [] => None
  | first :: rest => Some (leastLoop lb rest first (getConnectionCount lb (url first)))
  end.

(** [leastResponseTimeSelection(targets)]: a [reduce] without an initial
    value starts from the first element. *)
Definition leastResponseTimeSelection (targets : list RouteTarget) : option RouteTarget :=
  match targets with
  | [] => None
  | first :: rest =>
      Some (fold_left
              (fun best current =>
                 if responseTime current <? responseTime best then current else best)
              rest first)
  end.

(** The stable [sort] of [healthBasedSelection]: by ascending
    [errorCount]. *)
Fixpoint insertByErrors (t : RouteTarget) (l : list RouteTarget) : list RouteTarget :=
  match l with
  | [] => [t]
  | q :: rest =>
      if errorCount t <=? errorCount q then t :: q :: rest
      else q :: insertByErrors t rest
  end.

Definition sortByErrors (l : list RouteTarget) : list RouteTarget :=
  fold_right insertByErrors [] l.

(** [healthBasedSelection(targets)] *)
Definition healthBasedSelection (targets : list RouteTarget) : option RouteTarget :=
  head (sortByErrors targets).

(** [randomSelection(targets)], [rnd] being the value of
    [Math.random()]. *)
Definition randomSelection (targets : list RouteTarget) (rnd : Random)
  : option RouteTarget :=
  let randomIndex := numerator rnd * Z.of_nat (length targets) / denominator rnd in
  at_index targets randomIndex.

(** [selectTarget(targets, algorithm, routeKey)] *)
Definition selectTarget (lb : LoadBalancerService) (targets : list RouteTarget)
    (algorithm : LoadBalancerAlgorithm) (routeKey : string) (rnd : Random)
  : option RouteTarget * LoadBalancerService :=
  let healthyTargets := List.filter isHealthy targets in
  match healthyTargets with
  | [] => (None, lb)
  | _ :: _ =>
      match algorithm with
      | ROUND_ROBIN => roundRobinSelection lb healthyTargets routeKey
      | WEIGHTED_ROUND_ROBIN => weightedRoundRobinSelection lb healthyTargets routeKey
      | LEAST_CONNECTIONS => (leastConnectionsSelection lb healthyTargets, lb)
      | LEAST_RESPONSE_TIME => (leastResponseTimeSelection healthyTargets, lb)
      | HEALTH_BASED => (healthBasedSelection healthyTargets, lb)
      | RANDOM => (randomSelection healthyTargets rnd, lb)
      end
  end.

(** One selection per request, for the same targets. *)
Fixpoint selectEach (lb : LoadBalancerService) (targets : list RouteTarget)
    (algorithm : LoadBalancerAlgorithm) (routeKey : string) (draws : list Random)
  : list (option RouteTarget) * LoadBalancerService :=
  match draws with
  | [] => ([], lb)
  | rnd :: rest =>
      let '(t, lb1) := selectTarget lb targets algorithm routeKey rnd in
      let '(ts, lb2) := selectEach lb1 targets algorithm routeKey rest in
      (t :: ts, lb2)
  end.

(** ** Minima *)

(** [t] is the first element of [targets] with the least [metric]. *)
Definition firstMinimum (metric : RouteTarget -> Z) (targets : list RouteTarget)
    (t : RouteTarget) : Prop :=
  exists before after,
    targets = before ++ t :: after /\
    Forall (fun x => metric t < metric x) before /\
    Forall (fun x => metric t <= metric x) after.

Lemma firstMinimum_elem metric targets t : firstMinimum metric targets t -> t ∈ targets.
Proof.
  intros (before & after & -> & _). apply elem_of_app. right. apply list_elem_of_here.
Qed.

Lemma firstMinimum_least metric targets t :
  firstMinimum metric targets t -> Forall (fun x => metric t <= metric x) targets.
Proof.
  intros (before & after & -> & Hb & Ha). apply Forall_app. split.
  - eapply Forall_impl; [exact Hb|]. cbn. intros; lia.
  - constructor; [lia|done].
Qed.

Lemma firstMinimum_singleton metric t : firstMinimum metric [t] t.
Proof. exists [], []. split; [done|]. split; constructor. Qed.

Lemma reduce_firstMinimum metric rest : forall pre best,
  firstMinimum metric pre best ->
  firstMinimum metric (pre ++ rest)
    (fold_left (fun best current => if metric current <? metric best then current else best)
       rest best).
Proof.
  induction rest as [|current rest IH]; intros pre best Hbest; cbn [fold_left].
  - by rewrite app_nil_r.
  - replace (pre ++ current :: rest) with ((pre ++ [current]) ++ rest)
      by (by rewrite <- app_assoc).
    apply IH. destruct (Z.ltb_spec (metric current) (metric best)) as [Hlt|Hge].
    + exists pre, []. split; [done|]. split; [|constructor].
      eapply Forall_impl; [exact (firstMinimum_least _ _ _ Hbest)|]. cbn. intros; lia.
    + destruct Hbest as (before & after & -> & Hb & Ha).
      exists before, (after ++ [current]). split; [by rewrite <- app_assoc|].
      split; [done|]. apply Forall_app. split; [done|]. by constructor.
Qed.

Lemma leastLoop_reduce lb rest : forall selectedTarget,
  leastLoop lb rest selectedTarget (getConnectionCount lb (url selectedTarget)) =
  fold_left
    (fun best current =>
       if getConnectionCount lb (url current) <? getConnectionCount lb (url best)
       then current else best)
    rest selectedTarget.
Proof.
  induction rest as [|target rest IH]; intros selectedTarget; cbn [leastLoop fold_left];
    [done|].
  destruct (getConnectionCount lb (url target) <?
            getConnectionCount lb (url selectedTarget)); apply IH.
Qed.

Lemma sortByErrors_head l :
  match head (sortByErrors l) with
  | Some t => firstMinimum errorCount l t
  | None => l = []
  end.
Proof.
  induction l as [|x l IH]; [done|].
  cbn [sortByErrors fold_right]. fold (sortByErrors l).
  destruct (sortByErrors l) as [|q s]; cbn [head] in IH; cbn [insertByErrors].
  - subst l. cbn [head]. apply firstMinimum_singleton.
  - destruct (Z.leb_spec (errorCount x) (errorCount q)) as [Hle|Hgt]; cbn [head].
    + exists [], l. split; [done|]. split; [constructor|].
      eapply Forall_impl; [exact (firstMinimum_least _ _ _ IH)|]. cbn. intros; lia.
    + destruct IH as (before & after & -> & Hb & Ha).
      exists (x :: before), after. split; [done|]. split; [|done].
      constructor; [lia|done].
Qed.

(** The measure that an algorithm minimises, where it minimises one. *)
Definition measure (lb : LoadBalancerService) (algorithm : LoadBalancerAlgorithm)
  : option (RouteTarget -> Z) :=
  match algorithm with
  | LEAST_CONNECTIONS => Some (fun t => getConnectionCount lb (url t))
  | LEAST_RESPONSE_TIME => Some responseTime
  | HEALTH_BASED => Some errorCount
  | _ => None
  end.

(** X21 -- the three minimising algorithms break ties by position: least
    connections, least response time and health based selection each
    return the first of the healthy targets that has the least connection
    count, response time or error count, and none of them changes the state
    of the balancer. *)
Theorem selectTarget_first_minimum (lb : LoadBalancerService)
    (targets : list RouteTarget) (algorithm : LoadBalancerAlgorithm)
    (routeKey : string) (rnd : Random) (metric : RouteTarget -> Z) :
  measure lb algorithm = Some metric ->
  match fst (selectTarget lb targets algorithm routeKey rnd) with
  | Some t => firstMinimum metric (List.filter isHealthy targets) t
  | None => List.filter isHealthy targets = []
  end /\
  snd (selectTarget lb targets algorithm routeKey rnd) = lb.
Proof.
  intros Hmeasure. unfold selectTarget.
  destruct (List.filter isHealthy targets) as [|first rest]; [done|].
  destruct algorithm; try discriminate; injection Hmeasure as <-; cbn [fst snd];
    (split; [|done]).
  - unfold leastConnectionsSelection. rewrite leastLoop_reduce.
    apply (reduce_firstMinimum (fun t => getConnectionCount lb (url t)) rest [first]).
    apply firstMinimum_singleton.
  - unfold leastResponseTimeSelection.
    apply (reduce_firstMinimum responseTime rest [first]). apply firstMinimum_singleton.
  - unfold healthBasedSelection.
    pose proof (sortByErrors_head (first :: rest)) as Hhead.
    by destruct (head (sortByErrors (first :: rest))).
Qed.

(** ** Every selection is a healthy target *)

Lemma at_index_elem l i :
  0 <= i < Z.of_nat (length l) -> exists t, at_index l i = Some t /\ t ∈ l.
Proof.
  intros Hi. unfold at_index. destruct (Z.ltb_spec i 0); [lia|].
  destruct (lookup_lt_is_Some_2 l (Z.to_nat i)) as [t Ht]; [lia|].
  exists t. split; [done|]. by eapply list_elem_of_lookup_2.
Qed.

Lemma walk_elem w l t : walk w l = Some t -> t ∈ l.
Proof.
  revert w. induction l as [|x l IH]; intros w; cbn [walk]; [discriminate|].
  destruct (w - weight x <=? 0).
  - intros [= <-]. apply list_elem_of_here.
  - intros Hw. apply list_elem_of_further. by eapply IH.
Qed.

Lemma filter_healthy_elem t targets :
  t ∈ List.filter isHealthy targets <-> t ∈ targets /\ isHealthy t = true.
Proof. by rewrite !list_elem_of_In, List.filter_In. Qed.

Lemma filter_healthy_nil targets :
  List.filter isHealthy targets = [] -> Forall (fun t => isHealthy t = false) targets.
Proof.
  induction targets as [|t targets IH]; cbn [List.filter]; [constructor|].
  destruct (isHealthy t) eqn:Ht; [discriminate|]. intros Hnil. constructor; auto.
Qed.

(** With a healthy target in the list, every algorithm selects one. *)
Lemma selectTarget_some (lb : LoadBalancerService) (targets : list RouteTarget)
    (algorithm : LoadBalancerAlgorithm) (routeKey : string) (rnd : Random) :
  0 <= getCounter lb routeKey -> inUnitInterval rnd ->
  List.filter isHealthy targets <> [] ->
  exists t, fst (selectTarget lb targets algorithm routeKey rnd) = Some t /\
            t ∈ List.filter isHealthy targets.
Proof.
  intros Hcounter [Hnum Hden] Hne. unfold selectTarget.
  destruct (List.filter isHealthy targets) as [|first rest] eqn:Hhealthy; [done|].
  set (healthy := first :: rest).
  assert (Hlen : 0 < Z.of_nat (length healthy)) by (cbn; lia).
  destruct algorithm; cbn [fst].
  - unfold roundRobinSelection. cbn [fst].
    apply at_index_elem. by apply Z.rem_bound_pos.
  - unfold weightedRoundRobinSelection. cbn [fst].
    destruct (if totalWeight healthy =? 0 then None
              else walk (Z.rem (getCounter lb routeKey) (totalWeight healthy) + 1)
                     healthy) as [t|] eqn:Hfound.
    + exists t. split; [done|].
      destruct (totalWeight healthy =? 0); [discriminate|]. by eapply walk_elem.
    + exists first. split; [done|]. apply list_elem_of_here.
  - unfold leastConnectionsSelection, healthy. rewrite leastLoop_reduce.
    eexists. split; [done|].
    apply (firstMinimum_elem (fun t => getConnectionCount lb (url t))).
    apply (reduce_firstMinimum _ rest [first]). apply firstMinimum_singleton.
  - unfold leastResponseTimeSelection, healthy. eexists. split; [done|].
    apply (firstMinimum_elem responseTime).
    apply (reduce_firstMinimum _ rest [first]). apply firstMinimum_singleton.
  - unfold healthBasedSelection.
    pose proof (sortByErrors_head healthy) as Hhead.
    destruct (head (sortByErrors healthy)) as [t|]; [|done].
    exists t. split; [done|]. by eapply firstMinimum_elem.
  - unfold randomSelection. apply at_index_elem.
    split; [apply Z.div_pos; lia|]. apply Z.div_lt_upper_bound; [lia|]. nia.
Qed.

(** X22 -- whatever the algorithm, [selectTarget] returns a healthy target of
    the list it was given, and returns none only when the list holds no
    healthy target. *)
Theorem selectTarget_healthy (lb : LoadBalancerService) (targets : list RouteTarget)
    (algorithm : LoadBalancerAlgorithm) (routeKey : string) (rnd : Random) :
  0 <= getCounter lb routeKey -> inUnitInterval rnd ->
  match fst (selectTarget lb targets algorithm routeKey rnd) with
  | Some t => t ∈ targets /\ isHealthy t = true
  | None => Forall (fun t => isHealthy t = false) targets
  end.
Proof.
  intros Hcounter Hrnd.
  destruct (List.filter isHealthy targets) as [|first rest] eqn:Hhealthy.
  - unfold selectTarget. rewrite Hhealthy. cbn [fst]. by apply filter_healthy_nil.
  - destruct (selectTarget_some lb targets algorithm routeKey rnd Hcounter Hrnd)
      as (t & -> & Hin); [by rewrite Hhealthy|].
    by apply filter_healthy_elem.
Qed.

(** ** Rotation *)

(** The target that a counter designates in a list served in turn. *)
Definition pickAt (l : list RouteTarget) (counter : Z) : option RouteTarget :=
  at_index l (Z.rem counter (Z.of_nat (length l))).

Lemma getCounter_setCounter lb routeKey v : getCounter (setCounter lb routeKey v) routeKey = v.
Proof. unfold getCounter, setCounter. cbn. by rewrite lookup_insert_eq. Qed.

(** Selections of an algorithm that reads the counter and adds one. *)
Lemma selectEach_counting targets algorithm routeKey (pick : Z -> option RouteTarget) :
  (forall lb rnd,
     selectTarget lb targets algorithm routeKey rnd =
     (pick (getCounter lb routeKey),
      setCounter lb routeKey (getCounter lb routeKey + 1))) ->
  forall draws lb,
    fst (selectEach lb targets algorithm routeKey draws) =
      pick <$> seqZ (getCounter lb routeKey) (Z.of_nat (length draws)) /\
    getCounter (snd (selectEach lb targets algorithm routeKey draws)) routeKey =
      getCounter lb routeKey + Z.of_nat (length draws).
Proof.
  intros Hstep. induction draws as [|rnd draws IH]; intros lb.
  - cbn. split; [done|lia].
  - cbn [selectEach]. rewrite Hstep.
    destruct (IH (setCounter lb routeKey (getCounter lb routeKey + 1))) as [IHl IHc].
    destruct (selectEach (setCounter lb routeKey (getCounter lb routeKey + 1)) targets
                algorithm routeKey draws) as [ts lb2].
    cbn [fst snd] in *. rewrite getCounter_setCounter in IHl, IHc.
    rewrite seqZ_cons by (cbn [length]; lia).
    replace (Z.pred (Z.of_nat (length (rnd :: draws)))) with (Z.of_nat (length draws))
      by (cbn [length]; lia).
    cbn [fmap list_fmap]. split; [by rewrite IHl|]. cbn [length]. lia.
Qed.

Lemma rotate_perm (l : list RouteTarget) n : rotate n l ≡ₚ l.
Proof. unfold rotate. by rewrite Permutation_app_comm, take_drop. Qed.

(** A full turn through a list, from any counter. *)
Lemma pickAt_turn (l : list RouteTarget) (counter : Z) :
  0 <= counter -> l <> [] ->
  pickAt l <$> seqZ counter (Z.of_nat (length l)) =
  Some <$> rotate (Z.to_nat (counter `mod` Z.of_nat (length l))) l.
Proof.
  intros Hc Hl. assert (Hlen : 0 < Z.of_nat (length l)) by (destruct l; [done|cbn; lia]).
  apply list_eq. intros i. rewrite !list_lookup_fmap.
  destruct (decide (i < length l)%nat) as [Hi|Hi].
  - rewrite lookup_seqZ_lt by lia. rewrite lookup_rotate_r by done. cbn [fmap option_fmap option_map].
    unfold pickAt, at_index, rotate_nat_add.
    rewrite Z.rem_mod_nonneg by lia.
    pose proof (Z.mod_pos_bound (counter + Z.of_nat i) (Z.of_nat (length l)) Hlen).
    pose proof (Z.mod_pos_bound counter (Z.of_nat (length l)) Hlen).
    destruct (Z.ltb_spec ((counter + Z.of_nat i) `mod` Z.of_nat (length l)) 0); [lia|].
    rewrite Z2Nat.id by lia. rewrite Zplus_mod_idemp_l.
    destruct (lookup_lt_is_Some_2 l
                (Z.to_nat ((counter + Z.of_nat i) `mod` Z.of_nat (length l))))
      as [t Ht]; [lia|].
    by rewrite Ht.
  - rewrite lookup_seqZ_ge by lia.
    rewrite (lookup_ge_None_2 (rotate _ l)) by (rewrite length_rotate; lia). done.
Qed.

(** X23 -- round robin is fair over the healthy targets: from any counter,
    as many consecutive selections as there are healthy targets return
    them in their order, started at the counter's position and wrapped
    around, so each healthy target is returned exactly once. *)
Theorem round_robin_turn (lb : LoadBalancerService) (targets : list RouteTarget)
    (routeKey : string) (draws : list Random) :
  let healthyTargets := List.filter isHealthy targets in
  let turn := Z.to_nat (getCounter lb routeKey `mod` Z.of_nat (length healthyTargets)) in
  0 <= getCounter lb routeKey -> healthyTargets <> [] ->
  length draws = length healthyTargets ->
  fst (selectEach lb targets ROUND_ROBIN routeKey draws) =
    Some <$> rotate turn healthyTargets /\
  fst (selectEach lb targets ROUND_ROBIN routeKey draws) ≡ₚ Some <$> healthyTargets.
Proof.
  cbn zeta. intros Hc Hne Hlen.
  assert (Heq : fst (selectEach lb targets ROUND_ROBIN routeKey draws) =
                Some <$> rotate
                  (Z.to_nat (getCounter lb routeKey `mod`
                             Z.of_nat (length (List.filter isHealthy targets))))
                  (List.filter isHealthy targets)).
  { destruct (selectEach_counting targets ROUND_ROBIN routeKey
                (pickAt (List.filter isHealthy targets))) with (draws := draws) (lb := lb)
      as [Hsel _].
    - intros lb' rnd. unfold selectTarget.
      by destruct (List.filter isHealthy targets).
    - rewrite Hsel, Hlen. by apply pickAt_turn. }
  split; [exact Heq|]. rewrite Heq. by rewrite rotate_perm.
Qed.

(** ** Weights *)

(** Each target as many times as its weight. *)
Definition expand (targets : list RouteTarget) : list RouteTarget :=
  flat_map (fun t => replicate (Z.to_nat (weight t)) t) targets.

Lemma totalWeight_from targets a :
  fold_left (fun sum target => sum + weight target) targets a = a + totalWeight targets.
Proof.
  unfold totalWeight. revert a.
  induction targets as [|t targets IH]; intros a; cbn -[Z.add]; [lia|].
  rewrite (IH (a + _)), (IH (0 + _)). lia.
Qed.

Lemma totalWeight_cons t targets : totalWeight (t :: targets) = weight t + totalWeight targets.
Proof. unfold totalWeight at 1. cbn -[Z.add]. rewrite totalWeight_from. lia. Qed.

Lemma length_expand targets :
  Forall (fun t => 1 <= weight t) targets ->
  Z.of_nat (length (expand targets)) = totalWeight targets.
Proof.
  induction 1 as [|t targets Ht _ IH]; [done|].
  cbn [expand flat_map]. fold (expand targets).
  rewrite length_app, length_replicate, totalWeight_cons. lia.
Qed.

Lemma walk_expand targets :
  Forall (fun t => 1 <= weight t) targets ->
  forall r, 0 <= r < totalWeight targets ->
  walk (r + 1) targets = expand targets !! Z.to_nat r.
Proof.
  induction 1 as [|t targets Ht Hall IH]; intros r Hr.
  - unfold totalWeight in Hr. cbn in Hr. lia.
  - rewrite totalWeight_cons in Hr. cbn [walk expand flat_map]. fold (expand targets).
    destruct (Z.leb_spec (r + 1 - weight t) 0) as [Hin|Hout].
    + rewrite lookup_app_l by (rewrite length_replicate; lia).
      symmetry. apply lookup_replicate_2. lia.
    + rewrite lookup_app_r by (rewrite length_replicate; lia).
      rewrite length_replicate.
      replace (r + 1 - weight t) with ((r - weight t) + 1) by lia.
      rewrite IH by lia. f_equal. lia.
Qed.

(** X24 -- weighted round robin serves in proportion to the weights: with
    every healthy target of weight at least one, as many consecutive
    selections as the total weight return each healthy target as many
    times as its weight, in the order of the targets, started at the
    counter's position and wrapped around. *)
Theorem weighted_round_robin_turn (lb : LoadBalancerService)
    (targets : list RouteTarget) (routeKey : string) (draws : list Random) :
  let healthyTargets := List.filter isHealthy targets in
  let turn := Z.to_nat (getCounter lb routeKey `mod` totalWeight healthyTargets) in
  0 <= getCounter lb routeKey -> healthyTargets <> [] ->
  Forall (fun t => 1 <= weight t) healthyTargets ->
  Z.of_nat (length draws) = totalWeight healthyTargets ->
  fst (selectEach lb targets WEIGHTED_ROUND_ROBIN routeKey draws) =
    Some <$> rotate turn (expand healthyTargets) /\
  fst (selectEach lb targets WEIGHTED_ROUND_ROBIN routeKey draws) ≡ₚ
    Some <$> expand healthyTargets.
Proof.
  cbn zeta. intros Hc Hne Hweights Hlen.
  set (healthy := List.filter isHealthy targets) in *.
  pose proof (length_expand healthy Hweights) as Hexp.
  assert (Htotal : 0 < totalWeight healthy).
  { destruct healthy as [|t rest]; [done|]. rewrite totalWeight_cons.
    apply Forall_cons in Hweights as [Ht Hrest].
    pose proof (length_expand rest Hrest). lia. }
  assert (Heq : fst (selectEach lb targets WEIGHTED_ROUND_ROBIN routeKey draws) =
                Some <$> rotate (Z.to_nat (getCounter lb routeKey `mod` totalWeight healthy))
                           (expand healthy)).
  { pose (pick := fun counter : Z =>
              match (if totalWeight healthy =? 0 then None
                     else walk (Z.rem counter (totalWeight healthy) + 1) healthy) with
              | Some target => Some target
              | None => head healthy
              end).
    destruct (selectEach_counting targets WEIGHTED_ROUND_ROBIN routeKey pick)
      with (draws := draws) (lb := lb) as [Hsel _].
    - intros lb' rnd. unfold selectTarget. fold healthy.
      destruct healthy as [|t rest] eqn:Hh; [done|]. reflexivity.
    - rewrite Hsel, Hlen, <- Hexp.
      rewrite <- pickAt_turn; [|done|].
      + apply list_eq. intros i. rewrite !list_lookup_fmap.
        destruct (seqZ (getCounter lb routeKey) (Z.of_nat (length (expand healthy))) !! i)
          as [counter|] eqn:Hi; [|done].
        apply lookup_seqZ in Hi as [-> Hi]. cbn [fmap option_fmap option_map]. f_equal.
        unfold pick, pickAt, at_index. rewrite Hexp.
        destruct (Z.eqb_spec (totalWeight healthy) 0); [lia|].
        rewrite Z.rem_mod_nonneg by lia.
        pose proof (Z.mod_pos_bound (getCounter lb routeKey + Z.of_nat i)
                      (totalWeight healthy) Htotal) as Hbound.
        rewrite walk_expand by done.
        destruct (Z.ltb_spec ((getCounter lb routeKey + Z.of_nat i) `mod`
                              totalWeight healthy) 0); [lia|].
        destruct (lookup_lt_is_Some_2 (expand healthy)
                    (Z.to_nat ((getCounter lb routeKey + Z.of_nat i) `mod`
                               totalWeight healthy))) as [t Ht]; [lia|].
        by rewrite Ht.
      + intros Hnil. rewrite Hnil in Hexp. cbn in Hexp. lia. }
  split; [exact Heq|]. rewrite Heq. by rewrite rotate_perm.
Qed.

(** ** Connection counts *)

(** The public operations of the service. *)
Inductive Op :=
  | OpSelect (targets : list RouteTarget) (algorithm : LoadBalancerAlgorithm)
      (routeKey : string) (rnd : Random)
  | OpIncrement (targetUrl : string)
  | OpDecrement (targetUrl : string)
  | OpResetStats.

Definition step (lb : LoadBalancerService) (op : Op) : LoadBalancerService :=
  match op with
  | OpSelect targets algorithm routeKey rnd =>
      snd (selectTarget lb targets algorithm routeKey rnd)
  | OpIncrement targetUrl => incrementConnectionCount lb targetUrl
  | OpDecrement targetUrl => decrementConnectionCount lb targetUrl
  | OpResetStats => resetStats lb
  end.

Definition run (ops : list Op) : LoadBalancerService := fold_left step ops fresh.

Definition nonnegative (lb : LoadBalancerService) : Prop :=
  map_Forall (fun _ c => 0 <= c) (roundRobinCounters lb) /\
  map_Forall (fun _ c => 0 <= c) (connectionCounts lb).

Lemma nonnegative_getCounter lb routeKey : nonnegative lb -> 0 <= getCounter lb routeKey.
Proof.
  intros [Hc _]. unfold getCounter.
  destruct (roundRobinCounters lb !! routeKey) as [c|] eqn:Hk; cbn; [|lia].
  by apply (Hc routeKey).
Qed.

Lemma nonnegative_getConnectionCount lb targetUrl :
  nonnegative lb -> 0 <= getConnectionCount lb targetUrl.
Proof.
  intros [_ Hc]. unfold getConnectionCount.
  destruct (connectionCounts lb !! targetUrl) as [c|] eqn:Hk; cbn; [|lia].
  by apply (Hc targetUrl).
Qed.

Lemma nonnegative_setCounter lb routeKey v :
  0 <= v -> nonnegative lb -> nonnegative (setCounter lb routeKey v).
Proof.
  intros Hv [Hc Hn]. split; cbn; [|done]. by apply map_Forall_insert_2.
Qed.

Lemma nonnegative_step lb op : nonnegative lb -> nonnegative (step lb op).
Proof.
  intros Hlb. pose proof Hlb as [Hc Hn].
  destruct op as [targets algorithm routeKey rnd|targetUrl|targetUrl|]; cbn [step].
  - pose proof (nonnegative_getCounter lb routeKey Hlb).
    unfold selectTarget. destruct (List.filter isHealthy targets); [done|].
    destruct algorithm; cbn [snd roundRobinSelection weightedRoundRobinSelection];
      first [done | apply nonnegative_setCounter; [lia|done]].
  - pose proof (nonnegative_getConnectionCount lb targetUrl Hlb).
    split; cbn; [done|]. apply map_Forall_insert_2; [lia|done].
  - split; cbn; [done|]. apply map_Forall_insert_2; [lia|done].
  - split; cbn; apply map_Forall_empty.
Qed.

Lemma nonnegative_run ops : nonnegative (run ops).
Proof.
  unfold run. assert (H0 : nonnegative fresh) by (split; apply map_Forall_empty).
  revert H0. generalize fresh.
  induction ops as [|op ops IH]; intros lb Hlb; cbn [fold_left]; [done|].
  apply IH. by apply nonnegative_step.
Qed.

(** X25 -- connection counts in every reachable state of the balancer: no
    count and no round-robin counter is ever negative, a decrement that
    follows an increment of the same address restores every count, and a
    decrement at zero leaves zero. *)
Theorem connection_counts_balanced (ops : list Op) (targetUrl other : string) :
  let lb := run ops in
  0 <= getConnectionCount lb other /\
  0 <= getCounter lb other /\
  getConnectionCount
    (decrementConnectionCount (incrementConnectionCount lb targetUrl) targetUrl) other
  = getConnectionCount lb other /\
  (getConnectionCount lb targetUrl = 0 ->
   getConnectionCount (decrementConnectionCount lb targetUrl) targetUrl = 0).
Proof.
  cbn zeta. pose proof (nonnegative_run ops) as Hlb.
  pose proof (nonnegative_getConnectionCount (run ops) targetUrl Hlb) as Hcount.
  split; [by apply nonnegative_getConnectionCount|].
  split; [by apply nonnegative_getCounter|]. split.
  - unfold getConnectionCount at 1, decrementConnectionCount. cbn [connectionCounts].
    destruct (decide (other = targetUrl)) as [->|Hne].
    + rewrite lookup_insert_eq. cbn.
      unfold getConnectionCount at 1, incrementConnectionCount. cbn [connectionCounts].
      rewrite lookup_insert_eq. cbn. lia.
    + rewrite lookup_insert_ne by done.
      unfold incrementConnectionCount. cbn [connectionCounts].
      by rewrite lookup_insert_ne by done.
  - intros Hzero. unfold getConnectionCount at 1, decrementConnectionCount.
    cbn [connectionCounts]. rewrite lookup_insert_eq. cbn. lia.
Qed.

(** Three targets of weights 2, 1 and 1, the second unhealthy. *)
Definition pool : list RouteTarget :=
  [mkTarget "http://a" 2 true 0 30 4;
   mkTarget "http://b" 1 false 0 10 0;
   mkTarget "http://c" 1 true 0 20 1].

Definition half : Random := mkRandom 1 2.

Lemma selectTarget_first_minimum_witness :
  measure fresh LEAST_RESPONSE_TIME = Some responseTime /\
  firstMinimum responseTime (List.filter isHealthy pool)
    (mkTarget "http://c" 1 true 0 20 1).
Proof.
  split; [reflexivity|].
  exact (proj1 (selectTarget_first_minimum fresh pool LEAST_RESPONSE_TIME "GET:/api" half
                  responseTime eq_refl)).
Defined.

Lemma selectTarget_healthy_witness :
  0 <= getCounter fresh "GET:/api" /\ inUnitInterval half /\
  match fst (selectTarget fresh pool RANDOM "GET:/api" half) with
  | Some t => t ∈ pool /\ isHealthy t = true
  | None => Forall (fun t => isHealthy t = false) pool
  end.
Proof.
  assert (Hc : 0 <= getCounter fresh "GET:/api") by (vm_compute; discriminate).
  assert (Hr : inUnitInterval half) by (unfold inUnitInterval; cbn; lia).
  split; [exact Hc|]. split; [exact Hr|].
  exact (selectTarget_healthy fresh pool RANDOM "GET:/api" half Hc Hr).
Defined.

Lemma round_robin_turn_witness :
  0 <= getCounter fresh "GET:/api" /\
  fst (selectEach fresh pool ROUND_ROBIN "GET:/api" [half; half]) ≡ₚ
  Some <$> List.filter isHealthy pool.
Proof.
  assert (Hc : 0 <= getCounter fresh "GET:/api") by (vm_compute; discriminate).
  split; [exact Hc|].
  apply (round_robin_turn fresh pool "GET:/api" [half; half] Hc).
  - discriminate.
  - reflexivity.
Defined.

Lemma weighted_round_robin_turn_witness :
  0 <= getCounter fresh "GET:/api" /\
  fst (selectEach fresh pool WEIGHTED_ROUND_ROBIN "GET:/api" [half; half; half]) ≡ₚ
  Some <$> expand (List.filter isHealthy pool).
Proof.
  assert (Hc : 0 <= getCounter fresh "GET:/api") by (vm_compute; discriminate).
  split; [exact Hc|].
  apply (weighted_round_robin_turn fresh pool "GET:/api" [half; half; half] Hc).
  - discriminate.
  - repeat constructor; cbn; lia.
  - reflexivity.
Defined.

End LoadBalancer.

(* ===================================================================== *)
(** * Forwarder: [routing/proxy.service.ts]                               *)
(* ===================================================================== *)
Module Proxy.

Import CircuitBreaker.

(** The errors that travel through the forwarder and the handler.  The
    HTTP exceptions carry the message they were built with; the body of a
    [ServiceUnavailableException] is the breaker's fallback. *)
Inductive Error :=
| BadGatewayException (message : string)
| RequestTimeoutException (message : string)
| ServiceUnavailableException (body : Fallback)
| NotFoundException (message : string)
| TypeError (message : string)
| OtherError (message : string).

(** [error.message].  For a [ServiceUnavailableException] it is the
    [message] field of the default fallback, or the name of the exception
    for a configured body without such a field; the forwarder throws this
    exception before its loop and never reads its message. *)
Definition message (e : Error) : string :=
  match e with
  | BadGatewayException m | RequestTimeoutException m | NotFoundException m
  | TypeError m | OtherError m => m
  | ServiceUnavailableException (DefaultFallback _) => "Service temporarily unavailable"
  | ServiceUnavailableException (ConfiguredFallback _) => "Service Unavailable Exception"
  end.

(** [interface ProxyResponse], without its timings. *)
Record ProxyResponse := mkResponse {
  statusCode : Z;
  headers : gmap string string;
  body : string;
  targetUrl : string;
}.

(** What the [fetch] of one attempt does. *)
Inductive FetchOutcome :=
| Responded (status : Z) (responseHeaders : gmap string string) (responseBody : string)
| TimedOut
| FetchTypeError (message : string)
| FetchThrew (message : string).

(** [response.ok] *)
Definition ok (status : Z) : bool := (200 <=? status) && (status <=? 299).

(** [makeRequest]: [url] is the target URL built for the request, [o] the
    behaviour of [fetch]. *)
Definition makeRequest (url : string) (timeout : Z) (o : FetchOutcome)
  : ProxyResponse + Error :=
  match o with
  | Responded status responseHeaders responseBody =>
      if negb (ok status) && (500 <=? status) then
        inr (BadGatewayException ("Target service error: " +:+ toString10 status))
      else inl (mkResponse status responseHeaders responseBody url)
  | TimedOut =>
      inr (RequestTimeoutException
             ("Request timeout after " +:+ toString10 timeout +:+ "ms to " +:+ url))
  | FetchTypeError m =>
      if includes "fetch" m then
        inr (BadGatewayException ("Failed to connect to target service: " +:+ url))
      else inr (TypeError m)
  | FetchThrew m => inr (OtherError m)
  end.

(** [isCircuitBreakerEligibleError(error)] *)
Definition isCircuitBreakerEligibleError (e : Error) : bool :=
  match e with
  | BadGatewayException _ => true
  | RequestTimeoutException _ => true
  | TypeError m => includes "fetch" m
  | _ => false
  end.

(** [shouldRetry(error, attempt, maxRetries)] *)
Definition shouldRetry (e : Error) (attempt maxRetries : Z) : bool :=
  if maxRetries <=? attempt then false
  else if includes "4" (message e) then false
  else isCircuitBreakerEligibleError e.

(** One attempt as the environment plays it: what [fetch] does and the
    clock reading when the attempt is over. *)
Record Attempt := mkAttempt { outcome : FetchOutcome; finishedAt : Z }.

(** What a call of [forwardRequest] leaves: its result, the breakers, and
    the number of calls made to the upstream. *)
Record Forwarded := mkForwarded {
  result : ProxyResponse + Error;
  breakersAfter : gmap string CircuitBreakerInstance;
  upstreamCalls : nat;
}.

(** [circuitBreakerConfig && routeId] *)
Definition breakerArgs (circuitBreakerConfig : option CircuitBreakerConfig)
    (routeId : option string) : option (CircuitBreakerConfig * string) :=
  match circuitBreakerConfig, routeId with
  | Some cfg, Some (String a r) => Some (cfg, String a r)
  | _, _ => None
  end.

Section Forward.

(** The URL of the target and of the request ([buildTargetUrl]). *)
Variable targetBase : string.
Variable url : string.
Variable timeout : Z.
Variable retries : Z.
Variable args : option (CircuitBreakerConfig * string).
Variable upstream : Z -> Attempt.

(** The retry loop, [fuel] bounding the attempts left. *)
Fixpoint attempts (fuel : nat) (attempt : Z)
    (breakers : gmap string CircuitBreakerInstance)
    (lastError : option Error) (isCircuitBreakerError : bool) (calls : nat)
  : Forwarded :=
  match fuel with
  | O =>
      let breakers1 :=
        match args with
        | Some (cfg, routeId) =>
            if isCircuitBreakerError then
              let now := finishedAt (upstream (attempt - 1)) in
              recordFailure breakers routeId targetBase cfg now now now
            else breakers
        | None => breakers
        end in
      mkForwarded
        (inr (default (BadGatewayException "All retry attempts failed") lastError))
        breakers1 calls
  | S fuel' =>
      let now := finishedAt (upstream attempt) in
      match makeRequest url timeout (outcome (upstream attempt)) with
      | inl response =>
          let breakers1 :=
            match args with
            | Some (cfg, routeId) => recordSuccess breakers routeId targetBase cfg now now
            | None => breakers
            end in
          mkForwarded (inl response) breakers1 (S calls)
      | inr error =>
          let eligible := isCircuitBreakerEligibleError error in
          let breakers1 :=
            match args with
            | Some (cfg, routeId) =>
                if eligible then recordFailure breakers routeId targetBase cfg now now now
                else breakers
            | None => breakers
            end in
          if negb (shouldRetry error attempt retries) then
            mkForwarded (inr error) breakers1 (S calls)
          else attempts fuel' (attempt + 1) breakers1 (Some error) eligible (S calls)
      end
  end.

End Forward.

(** [forwardRequest(request, target, timeout, retries, circuitBreakerConfig?,
    routeId?)]; [startedAt] is the clock reading at the breaker check. *)
Definition forwardRequest (breakers : gmap string CircuitBreakerInstance)
    (targetBase url : string) (timeout retries : Z)
    (circuitBreakerConfig : option CircuitBreakerConfig) (routeId : option string)
    (startedAt : Z) (upstream : Z -> Attempt) : Forwarded :=
  let args := breakerArgs circuitBreakerConfig routeId in
  let loop breakers1 :=
    attempts targetBase url timeout retries args upstream (Z.to_nat retries) 1
      breakers1 None false 0 in
  match args with
  | Some (cfg, routeId') =>
      let '(canExecute, breakers1) :=
        canExecute breakers routeId' targetBase cfg startedAt startedAt in
      if negb canExecute then
        mkForwarded (inr (ServiceUnavailableException (getFallbackResponse cfg)))
          breakers1 0
      else loop breakers1
  | None => loop breakers
  end.

(** ** Retries *)

(** An upstream that behaves the same at every attempt, one second apart. *)
Definition always (o : FetchOutcome) : Z -> Attempt :=
  fun attempt => mkAttempt o (attempt * 1000).

Definition usersTarget : string := "http://user-service:3001/users".
Definition usersUrl : string := "http://user-service:3001/api/users".
Definition usersBreaker : CircuitBreakerConfig := mkConfig true 5 30000 60000 None.

(** A 4xx response is returned as it came. *)
Lemma makeRequest_client_error url timeout status responseHeaders responseBody :
  400 <= status < 500 ->
  makeRequest url timeout (Responded status responseHeaders responseBody) =
  inl (mkResponse status responseHeaders responseBody url).
Proof.
  intros Hst. unfold makeRequest.
  destruct (Z.leb_spec 500 status); [lia|]. by rewrite andb_false_r.
Qed.

(** A status of 500 or more is thrown as a breaker-eligible error. *)
Lemma makeRequest_server_error url timeout status responseHeaders responseBody :
  500 <= status ->
  makeRequest url timeout (Responded status responseHeaders responseBody) =
  inr (BadGatewayException ("Target service error: " +:+ toString10 status)).
Proof.
  intros Hst. unfold makeRequest, ok.
  destruct (Z.leb_spec 500 status); [|lia].
  destruct (Z.leb_spec status 299); [lia|]. by rewrite andb_false_r.
Qed.

(** A 4xx answer ends the loop at once: it is returned unchanged and no
    further attempt is made. *)
Lemma attempts_client_error targetBase url timeout retries args upstream fuel
    attempt breakers lastError isCircuitBreakerError calls status responseHeaders
    responseBody :
  outcome (upstream attempt) = Responded status responseHeaders responseBody ->
  400 <= status < 500 ->
  let forwarded :=
    attempts targetBase url timeout retries args upstream (S fuel) attempt breakers
      lastError isCircuitBreakerError calls in
  result forwarded = inl (mkResponse status responseHeaders responseBody url) /\
  upstreamCalls forwarded = S calls.
Proof.
  intros Hout Hst. cbn [attempts]. rewrite Hout, makeRequest_client_error by done.
  by split.
Qed.

(** With attempts left, an error is retried exactly when it is eligible
    and its message holds no character [4]. *)
Lemma shouldRetry_spec e attempt maxRetries :
  attempt < maxRetries ->
  shouldRetry e attempt maxRetries =
  negb (includes "4" (message e)) && isCircuitBreakerEligibleError e.
Proof.
  intros Hleft. unfold shouldRetry.
  destruct (Z.leb_spec maxRetries attempt); [lia|].
  by destruct (includes "4" (message e)).
Qed.

(** C5 at an upstream answering 504 to a forwarder allowed three
    attempts: the error is eligible for the breaker and attempts remain,
    yet [shouldRetry] refuses because the message holds a [4], and the
    forwarder gives up after one upstream call; an upstream answering 503
    is called three times. *)
Theorem C5_gateway_timeout_not_retried :
  let forwarded504 :=
    forwardRequest ∅ usersTarget usersUrl 30000 3 (Some usersBreaker) (Some "route-1") 0
      (always (Responded 504 ∅ "")) in
  let forwarded503 :=
    forwardRequest ∅ usersTarget usersUrl 30000 3 (Some usersBreaker) (Some "route-1") 0
      (always (Responded 503 ∅ "")) in
  makeRequest usersUrl 30000 (Responded 504 ∅ "") =
    inr (BadGatewayException "Target service error: 504") /\
  isCircuitBreakerEligibleError (BadGatewayException "Target service error: 504") = true /\
  shouldRetry (BadGatewayException "Target service error: 504") 1 3 = false /\
  result forwarded504 = inr (BadGatewayException "Target service error: 504") /\
  upstreamCalls forwarded504 = 1%nat /\
  upstreamCalls forwarded503 = 3%nat.
Proof. vm_compute. repeat split. Qed.

(** The same refusal for a timeout and for a connect error, when the
    configured timeout or the target URL holds a [4]. *)
Example timeout_not_retried :
  upstreamCalls
    (forwardRequest ∅ usersTarget usersUrl 4000 3 (Some usersBreaker) (Some "route-1") 0
       (always TimedOut)) = 1%nat /\
  upstreamCalls
    (forwardRequest ∅ usersTarget usersUrl 30000 3 (Some usersBreaker) (Some "route-1") 0
       (always TimedOut)) = 3%nat /\
  upstreamCalls
    (forwardRequest ∅ "http://10.0.0.4:3001" "http://10.0.0.4:3001/api/users" 30000 3
       (Some usersBreaker) (Some "route-1") 0
       (always (FetchTypeError "fetch failed"))) = 1%nat.
Proof. vm_compute. repeat split. Qed.

(** Without breaker arguments the loop leaves the breakers alone, and a
    response it returns has a status below 500. *)
Lemma attempts_without_breaker targetBase url timeout retries upstream fuel :
  forall attempt breakers lastError isCircuitBreakerError calls,
  breakersAfter (attempts targetBase url timeout retries None upstream fuel attempt
                   breakers lastError isCircuitBreakerError calls) = breakers.
Proof.
  induction fuel as [|fuel IH]; intros; cbn [attempts]; [done|].
  destruct (makeRequest url timeout (outcome (upstream attempt))) as [response|error];
    [done|].
  destruct (negb (shouldRetry error attempt retries)); [done|]. apply IH.
Qed.

Lemma makeRequest_response url timeout o response :
  makeRequest url timeout o = inl response -> statusCode response < 500.
Proof.
  destruct o as [status hs b| |m|m]; cbn; try discriminate.
  - unfold ok. destruct (Z.leb_spec 500 status), (Z.leb_spec 200 status),
      (Z.leb_spec status 299); cbn; try discriminate; intros [= <-]; cbn; lia.
  - destruct (includes "fetch" m); discriminate.
Qed.

Lemma attempts_response targetBase url timeout retries args upstream fuel :
  forall attempt breakers lastError isCircuitBreakerError calls response,
  result (attempts targetBase url timeout retries args upstream fuel attempt
            breakers lastError isCircuitBreakerError calls) = inl response ->
  statusCode response < 500.
Proof.
  induction fuel as [|fuel IH]; intros attempt breakers lastError isCB calls response;
    cbn [attempts]; [discriminate|].
  destruct (makeRequest url timeout (outcome (upstream attempt))) as [r|error] eqn:Hreq.
  - cbn. intros [= <-]. by eapply makeRequest_response.
  - destruct (negb (shouldRetry error attempt retries)); [discriminate|]. apply IH.
Qed.

(** [healthCheck(target, healthPath, timeout)]: [response.ok], and [false]
    whenever the [fetch] throws. *)
Definition healthCheck (o : FetchOutcome) : bool :=
  match o with
  | Responded status _ _ => ok status
  | _ => false
  end.

(** ** The retry loop *)

(** Neither the result nor the number of upstream calls of the loop
    depends on the breakers. *)
Lemma attempts_independent targetBase url timeout retries args upstream fuel :
  forall attempt breakers breakers' lastError isCB isCB' calls,
  result (attempts targetBase url timeout retries args upstream fuel attempt breakers
            lastError isCB calls) =
  result (attempts targetBase url timeout retries None upstream fuel attempt breakers'
            lastError isCB' calls) /\
  upstreamCalls (attempts targetBase url timeout retries args upstream fuel attempt
                   breakers lastError isCB calls) =
  upstreamCalls (attempts targetBase url timeout retries None upstream fuel attempt
                   breakers' lastError isCB' calls).
Proof.
  induction fuel as [|fuel IH]; intros; cbn [attempts]; [done|].
  destruct (makeRequest url timeout (outcome (upstream attempt))) as [response|error];
    [done|].
  destruct (negb (shouldRetry error attempt retries)); [done|]. apply IH.
Qed.

(** One turn of the loop without breaker arguments. *)
Lemma attempts_turn targetBase url timeout retries upstream fuel attempt breakers
    lastError isCB calls :
  attempts targetBase url timeout retries None upstream (S fuel) attempt breakers
    lastError isCB calls =
  match makeRequest url timeout (outcome (upstream attempt)) with
  | inl response => mkForwarded (inl response) breakers (S calls)
  | inr error =>
      if negb (shouldRetry error attempt retries) then
        mkForwarded (inr error) breakers (S calls)
      else
        attempts targetBase url timeout retries None upstream fuel (attempt + 1) breakers
          (Some error) (isCircuitBreakerEligibleError error) (S calls)
  end.
Proof. reflexivity. Qed.

(** The case of a single call, ended by [Hreq]. *)
Ltac single_call Hreq attempt :=
  exists 1%nat; cbn [result upstreamCalls];
  replace (attempt + Z.of_nat 1 - 1) with attempt by lia; rewrite Hreq;
  split; [lia|]; split; [lia|]; split; [lia|]; split; [reflexivity|];
  split; [intros; lia|].

(** The loop started with as many attempts left as [retries] allows. *)
Lemma attempts_trace targetBase url timeout retries upstream fuel :
  forall attempt breakers lastError isCB calls,
  attempt + Z.of_nat fuel = retries ->
  let forwarded :=
    attempts targetBase url timeout retries None upstream (S fuel) attempt breakers
      lastError isCB calls in
  exists n : nat,
    (1 <= n)%nat /\ upstreamCalls forwarded = (calls + n)%nat /\
    attempt + Z.of_nat n - 1 <= retries /\
    result forwarded =
      makeRequest url timeout (outcome (upstream (attempt + Z.of_nat n - 1))) /\
    (forall a, attempt <= a < attempt + Z.of_nat n - 1 ->
       exists e, makeRequest url timeout (outcome (upstream a)) = inr e /\
                 shouldRetry e a retries = true) /\
    (forall e, result forwarded = inr e ->
       shouldRetry e (attempt + Z.of_nat n - 1) retries = false).
Proof.
  induction fuel as [|fuel IH]; intros attempt breakers lastError isCB calls Hleft;
    cbn zeta; rewrite attempts_turn.
  - destruct (makeRequest url timeout (outcome (upstream attempt))) as [r|e] eqn:Hreq.
    + single_call Hreq attempt. intros e [=].
    + assert (Hlast : shouldRetry e attempt retries = false).
      { unfold shouldRetry. by destruct (Z.leb_spec retries attempt); [|lia]. }
      rewrite Hlast. cbn [negb]. single_call Hreq attempt. by intros e' [= <-].
  - destruct (makeRequest url timeout (outcome (upstream attempt))) as [r|e] eqn:Hreq.
    + single_call Hreq attempt. intros e [=].
    + destruct (shouldRetry e attempt retries) eqn:Hretry; cbn [negb].
      * destruct (IH (attempt + 1) breakers (Some e) (isCircuitBreakerEligibleError e)
                    (S calls)) as (n & Hn & Hcalls & Hbound & Hres & Hbefore & Hstop);
          [lia|].
        exists (S n).
        replace (attempt + Z.of_nat (S n) - 1) with (attempt + 1 + Z.of_nat n - 1) by lia.
        split; [lia|]. split; [rewrite Hcalls; lia|]. split; [lia|].
        split; [exact Hres|]. split; [|exact Hstop].
        intros a Ha. destruct (decide (a = attempt)) as [->|Hne]; [by exists e|].
        apply Hbefore. lia.
      * single_call Hreq attempt. by intros e' [= <-].
Qed.

(** The forwarder without breaker arguments either never calls the
    upstream, or returns what its last call produced. *)
Lemma forwardRequest_unguarded breakers targetBase url timeout retries startedAt upstream :
  let forwarded :=
    forwardRequest breakers targetBase url timeout retries None None startedAt upstream in
  (upstreamCalls forwarded = 0%nat /\
   result forwarded = inr (BadGatewayException "All retry attempts failed")) \/
  (1 <= Z.of_nat (upstreamCalls forwarded) <= retries /\
   result forwarded =
     makeRequest url timeout (outcome (upstream (Z.of_nat (upstreamCalls forwarded))))).
Proof.
  cbn zeta. unfold forwardRequest. cbn [breakerArgs].
  destruct (Z.to_nat retries) as [|fuel] eqn:Hfuel; [by left|]. right.
  destruct (attempts_trace targetBase url timeout retries upstream fuel 1 breakers
              None false 0%nat) as (n & Hn & Hcalls & Hbound & Hres & _); [lia|].
  cbn zeta in *. rewrite Hcalls.
  replace (1 + Z.of_nat n - 1) with (Z.of_nat (0 + n)) in * by lia.
  split; [lia|done].
Qed.

(** The errors that [makeRequest] throws. *)
Lemma makeRequest_error url timeout o e :
  makeRequest url timeout o = inr e ->
  match e with
  | BadGatewayException m =>
      (exists status, m = "Target service error: " +:+ toString10 status) \/
      m = "Failed to connect to target service: " +:+ url
  | RequestTimeoutException _ | TypeError _ | OtherError _ => True
  | ServiceUnavailableException _ | NotFoundException _ => False
  end.
Proof.
  destruct o as [status hs b| |m|m]; cbn [makeRequest].
  - destruct (negb (ok status) && (500 <=? status)); [|discriminate].
    intros [= <-]. left. by exists status.
  - by intros [= <-].
  - destruct (includes "fetch" m); intros [= <-]; [by right|done].
  - by intros [= <-].
Qed.


(** X27 -- the breaker decides admission and nothing else: when the
    forwarder is given a breaker configuration and a route id, a denial
    by [canExecute] ends in the fallback without any upstream call, and
    after an admission the result and the number of upstream calls are
    those of the forwarder without breaker arguments -- a breaker that
    opens during the loop stops no retry. *)
Theorem breaker_only_admits (breakers : gmap string CircuitBreakerInstance)
    (targetBase url : string) (timeout retries : Z) (cfg : CircuitBreakerConfig)
    (routeId : string) (startedAt : Z) (upstream : Z -> Attempt) :
  routeId <> EmptyString ->
  let guarded :=
    forwardRequest breakers targetBase url timeout retries (Some cfg) (Some routeId)
      startedAt upstream in
  let unguarded :=
    forwardRequest breakers targetBase url timeout retries None None startedAt upstream in
  if fst (canExecute breakers routeId targetBase cfg startedAt startedAt)
  then result guarded = result unguarded /\
       upstreamCalls guarded = upstreamCalls unguarded
  else result guarded = inr (ServiceUnavailableException (getFallbackResponse cfg)) /\
       upstreamCalls guarded = 0%nat.
Proof.
  intros Hid. cbn zeta. unfold forwardRequest.
  destruct routeId as [|a r]; [done|]. cbn [breakerArgs].
  destruct (canExecute breakers (String a r) targetBase cfg startedAt startedAt)
    as [[|] breakers1]; cbn [fst negb]; [|done].
  apply attempts_independent.
Qed.

(** An upstream that fails twice with 503 and then answers 200. *)
Definition recovering : Z -> Attempt :=
  fun attempt =>
    mkAttempt (if attempt <=? 2 then Responded 503 ∅ "" else Responded 200 ∅ "ok")
      (attempt * 1000).


Lemma breaker_only_admits_witness :
  "route-1" <> EmptyString /\
  upstreamCalls
    (forwardRequest ∅ usersTarget usersUrl 30000 3 (Some (mkConfig true 1 30000 60000 None))
       (Some "route-1") 0 recovering) = 3%nat.
Proof.
  split; [discriminate|].
  pose proof (breaker_only_admits ∅ usersTarget usersUrl 30000 3
                (mkConfig true 1 30000 60000 None) "route-1" 0 recovering) as Hgate.
  cbn zeta in Hgate.
  destruct (fst (canExecute ∅ "route-1" usersTarget (mkConfig true 1 30000 60000 None) 0 0))
    eqn:Hadmit; [|vm_compute in Hadmit; discriminate].
  destruct Hgate as [_ ->]; [discriminate|]. vm_compute. reflexivity.
Defined.


End Proxy.

(* ===================================================================== *)
(** * Health monitor: [routing/health-check.service.ts]                   *)
(* ===================================================================== *)
Module HealthCheck.

Import Routes.

(** [updateTargetHealthStatus(routeId, target, isCurrentlyHealthy,
    responseTime)] with [now = new Date()]: the target after the
    assignments. *)
Definition updateTargetHealthStatus (target : RouteTarget) (isCurrentlyHealthy : bool)
    (time now : Z) : RouteTarget :=
  if isCurrentlyHealthy then
    mkTarget (url target) (weight target)
      (if negb (isHealthy target) then true else isHealthy target)
      now time (Z.max 0 (errorCount target - 1))
  else
    mkTarget (url target) (weight target)
      (if isHealthy target then false else isHealthy target)
      now time (errorCount target + 1).

(** One probe as the environment plays it: what the [fetch] of
    [healthCheck] does, and the clock readings around it. *)
Record Probe := mkProbe {
  answer : Proxy.FetchOutcome;
  startTime : Z;
  endTime : Z;
}.

(** [checkTargetHealth(routeId, target, healthConfig)] *)
Definition checkTargetHealth (target : RouteTarget) (probe : Probe) : RouteTarget :=
  let isHealthy := Proxy.healthCheck (answer probe) in
  let responseTime := endTime probe - startTime probe in
  updateTargetHealthStatus target isHealthy responseTime (endTime probe).

(** The probes of one target, in the order of their completion. *)
Definition checkTargetHealths (target : RouteTarget) (probes : list Probe) : RouteTarget :=
  fold_left checkTargetHealth probes target.

Lemma checkTargetHealth_errors target probe :
  0 <= errorCount target -> 0 <= errorCount (checkTargetHealth target probe).
Proof.
  unfold checkTargetHealth, updateTargetHealthStatus.
  destruct (Proxy.healthCheck (answer probe)); cbn; lia.
Qed.

Lemma checkTargetHealths_errors probes : forall target,
  0 <= errorCount target -> 0 <= errorCount (checkTargetHealths target probes).
Proof.
  unfold checkTargetHealths.
  induction probes as [|probe probes IH]; intros target Ht; cbn [fold_left]; [done|].
  apply IH. by apply checkTargetHealth_errors.
Qed.

Lemma checkTargetHealths_identity probes : forall target,
  url (checkTargetHealths target probes) = url target /\
  weight (checkTargetHealths target probes) = weight target.
Proof.
  unfold checkTargetHealths.
  induction probes as [|probe probes IH]; intros target; cbn [fold_left]; [done|].
  destruct (IH (checkTargetHealth target probe)) as [-> ->].
  unfold checkTargetHealth, updateTargetHealthStatus.
  by destruct (Proxy.healthCheck (answer probe)).
Qed.

(** X28 -- the health flag of a target follows its last probe alone: after
    any probes, the target is healthy exactly when the last probe got a 2xx
    answer, whatever came before and whatever the thresholds of the health
    check configuration; its response time is the duration of that probe,
    its error count is never negative, and its address and weight are
    untouched. *)
Theorem health_follows_last_probe (target : RouteTarget) (probes : list Probe)
    (probe : Probe) :
  0 <= errorCount target ->
  let checked := checkTargetHealths target (probes ++ [probe]) in
  isHealthy checked = Proxy.healthCheck (answer probe) /\
  responseTime checked = endTime probe - startTime probe /\
  0 <= errorCount checked /\
  url checked = url target /\ weight checked = weight target.
Proof.
  intros Herrors. cbn zeta.
  split; [|split; [|split; [by apply checkTargetHealths_errors
                           |apply checkTargetHealths_identity]]];
    unfold checkTargetHealths; rewrite fold_left_app; cbn [fold_left];
    unfold checkTargetHealth at 1, updateTargetHealthStatus.
  - destruct (Proxy.healthCheck (answer probe)); cbn [isHealthy];
      by destruct (isHealthy (fold_left checkTargetHealth probes target)).
  - by destruct (Proxy.healthCheck (answer probe)).
Qed.

Lemma health_follows_last_probe_witness :
  let target := mkTarget "http://a" 1 true 0 0 0 in
  0 <= errorCount target /\
  isHealthy (checkTargetHealths target
               [mkProbe (Proxy.Responded 200 ∅ "") 0 5;
                mkProbe (Proxy.Responded 200 ∅ "") 10 15;
                mkProbe Proxy.TimedOut 20 5020]) = false.
Proof.
  cbn zeta. split; [cbn; lia|].
  apply (health_follows_last_probe (mkTarget "http://a" 1 true 0 0 0)
           [mkProbe (Proxy.Responded 200 ∅ "") 0 5;
            mkProbe (Proxy.Responded 200 ∅ "") 10 15]
           (mkProbe Proxy.TimedOut 20 5020)).
  cbn. lia.
Defined.

End HealthCheck.

(* ===================================================================== *)
(** * Request handler: [gateway.controller.ts]                            *)
(* ===================================================================== *)
Module Gateway.

Import Routes.

(** The parts of a [FastifyRequest] that the handler reads; [url] is the
    raw URL of the request, query string included. *)
Record Request := mkRequest {
  url : string;
  method : string;
  headers : gmap string string;
  body : string;
}.

(** What the handler sends: the upstream body on success, or the message
    of a failure body. *)
Inductive ReplyBody :=
| UpstreamBody (body : string)
| FailureBody (message : string).

Record Reply := mkReply { status : Z; sent : ReplyBody }.

(** The reply, the breakers and the number of upstream calls after one
    request has been handled. *)
Record Handled := mkHandled {
  reply : Reply;
  breakersAfter : gmap string CircuitBreaker.CircuitBreakerInstance;
  upstreamCalls : nat;
}.

(** [s.toUpperCase()] on one-byte characters. *)
Definition upper (c : ascii) : ascii :=
  let n := nat_of_ascii c in
  if (97 <=? n)%nat && (n <=? 122)%nat then ascii_of_nat (n - 32) else c.

Fixpoint toUpperCase (s : string) : string :=
  match s with
  | EmptyString => EmptyString
  | String c s' => String (upper c) (toUpperCase s')
  end.

(** [url.split('?')[0]] *)
Fixpoint beforeQuery (s : string) : string :=
  match s with
  | EmptyString => EmptyString
  | String c s' => if Ascii.eqb c "?" then EmptyString else String c (beforeQuery s')
  end.

(** [request.url.split('?')[0] || '/'], the [path] of the proxy request. *)
Definition proxyPath (url : string) : string := orElse (Some (beforeQuery url)) "/".

(** [shouldSkipGateway(url)] *)
Definition shouldSkipGateway (url : string) : bool :=
  existsb (fun p => startsWith p url)
    ["/health"; "/api/v1/auth"; "/metrics"; "/favicon.ico"].

Section Handler.

(** The load balancer's choice among the healthy targets, for a policy and
    a route key, and the target URL built by the forwarder for a target
    and a request path are taken as parameters. *)
Variable selectTarget : list RouteTarget -> LoadBalancerAlgorithm -> string -> option RouteTarget.
Variable buildTargetUrl : string -> string -> string.

(** [handleRequest]: the route is looked up with [request.url]; the
    forwarder is called with the target, [route.timeout] and
    [route.retries], and with neither breaker configuration nor route id.
    The update of the target's response time is left out. *)
Definition handleRequest (routes : RouteMap)
    (breakers : gmap string CircuitBreaker.CircuitBreakerInstance)
    (request : Request) (startedAt : Z) (upstream : Z -> Proxy.Attempt) : Handled :=
  let failed code m := mkHandled (mkReply code (FailureBody m)) breakers 0 in
  if shouldSkipGateway (url request) then failed 404 "Not Found"
  else
    match findMatchingRoute routes (url request) (toUpperCase (method request)) with
    | None =>
        failed 404 ("Route not found: " +:+ method request +:+ " " +:+ url request)
    | Some route =>
        match getHealthyTargets routes (path route) (Routes.method route) with
        | [] => failed 502 "No healthy backend services available"
        | healthyTargets =>
            let routeKey := Routes.method route +:+ ":" +:+ path route in
            match selectTarget healthyTargets (algorithm route) routeKey with
            | None => failed 502 "Unable to select backend target"
            | Some selectedTarget =>
                let forwarded :=
                  Proxy.forwardRequest breakers (Routes.url selectedTarget)
                    (buildTargetUrl (Routes.url selectedTarget) (proxyPath (url request)))
                    (timeout route) (retries route) None None startedAt upstream in
                let answer :=
                  match Proxy.result forwarded with
                  | inl response =>
                      mkReply (Proxy.statusCode response) (UpstreamBody (Proxy.body response))
                  | inr (Proxy.NotFoundException m) => mkReply 404 (FailureBody m)
                  | inr (Proxy.BadGatewayException m) => mkReply 502 (FailureBody m)
                  | inr _ => mkReply 500 (FailureBody "Internal server error")
                  end in
                mkHandled answer (Proxy.breakersAfter forwarded)
                  (Proxy.upstreamCalls forwarded)
            end
        end
    end.

End Handler.

(** ** Dispatch *)

Section Dispatch.

Variable selectTarget : list RouteTarget -> LoadBalancerAlgorithm -> string -> option RouteTarget.
Variable buildTargetUrl : string -> string -> string.

(** The handler never reads nor writes the breakers, and never answers
    503. *)
Lemma handleRequest_without_breaker routes breakers request startedAt upstream :
  let handled :=
    handleRequest selectTarget buildTargetUrl routes breakers request startedAt upstream in
  breakersAfter handled = breakers /\ status (reply handled) <> 503.
Proof.
  unfold handleRequest.
  destruct (shouldSkipGateway (url request)); [by split|].
  destruct (findMatchingRoute _ _ _) as [route|]; [|by split].
  destruct (getHealthyTargets _ _ _) as [|t ts]; [by split|].
  destruct (selectTarget _ _ _) as [target|]; [|by split].
  cbn [breakersAfter reply]. unfold Proxy.forwardRequest. cbn [Proxy.breakerArgs].
  split; [apply Proxy.attempts_without_breaker|].
  destruct (Proxy.result _) as [response|error] eqn:Hres.
  - apply Proxy.attempts_response in Hres. cbn. lia.
  - by destruct error.
Qed.

End Dispatch.

(** The registry as the service starts with it, a balancer that picks the
    first healthy target, and URLs built by concatenation. *)
Definition startRoutes : RouteMap := initializeDefaultRoutes "users-id" "orders-id" 0.
Definition pickFirst (ts : list RouteTarget) (_ : LoadBalancerAlgorithm) (_ : string)
  : option RouteTarget := head ts.
Definition concatUrl (base path : string) : string := base +:+ path.

Definition getUsers : Request := mkRequest "/api/users" "GET" ∅ "".
Definition getUsersPaged : Request := mkRequest "/api/users?page=1" "GET" ∅ "".

(** The breaker of the users route's first target after five failures in
    five milliseconds: OPEN until 30004. *)
Definition openBreakers : gmap string CircuitBreaker.CircuitBreakerInstance :=
  CircuitBreaker.recordFailures ∅ "users-id" "http://user-service:3001/users"
    defaultBreaker
    (List.map (fun t => CircuitBreaker.mkClock t t t) [0; 1; 2; 3; 4]).

Definition healthy : Z -> Proxy.Attempt :=
  Proxy.always (Proxy.Responded 200 ∅ "[]").

(** C4 at a request for the users route whose breaker configuration is
    enabled, while the breaker of the selected target is OPEN and
    [canExecute] denies: the handler passes no breaker configuration to
    the forwarder, the upstream is called and its answer is returned. *)
Theorem C4_dispatch_bypasses_breaker :
  CircuitBreaker.enabled (circuitBreaker (usersConfig 0)) = true /\
  CircuitBreaker.stateOf openBreakers
    (CircuitBreaker.generateKey "users-id" "http://user-service:3001/users")
  = CircuitBreaker.OPEN /\
  fst (CircuitBreaker.canExecute openBreakers "users-id" "http://user-service:3001/users"
         defaultBreaker 100 100) = false /\
  handleRequest pickFirst concatUrl startRoutes openBreakers getUsers 100 healthy =
  mkHandled (mkReply 200 (UpstreamBody "[]")) openBreakers 1.
Proof. vm_compute. repeat split. Qed.

(** What the forwarder does when it is given the breaker arguments. *)
Example forwarder_gate :
  Proxy.forwardRequest openBreakers "http://user-service:3001/users"
    "http://user-service:3001/api/users" 30000 3
    (Some defaultBreaker) (Some "users-id") 100 healthy =
  Proxy.mkForwarded
    (inr (Proxy.ServiceUnavailableException (CircuitBreaker.DefaultFallback 30)))
    openBreakers 0.
Proof. vm_compute. reflexivity. Qed.

(** C6 at the users route: the same request with a query string appended
    finds no route, because the handler matches on [request.url] while it
    forwards [request.url.split('?')[0]]. *)
Theorem C6_query_string_breaks_matching :
  findMatchingRoute startRoutes (url getUsers) "GET" <> None /\
  findMatchingRoute startRoutes (url getUsersPaged) "GET" = None /\
  proxyPath (url getUsersPaged) = url getUsers /\
  status (reply (handleRequest pickFirst concatUrl startRoutes ∅ getUsers 0 healthy)) = 200 /\
  reply (handleRequest pickFirst concatUrl startRoutes ∅ getUsersPaged 0 healthy) =
  mkReply 404 (FailureBody "Route not found: GET /api/users?page=1").
Proof. vm_compute. repeat split. discriminate. Qed.

(** ** Replies *)

Section Replies.

Variable selectTarget : list RouteTarget -> LoadBalancerAlgorithm -> string -> option RouteTarget.
Variable buildTargetUrl : string -> string -> string.

(** X29 -- what the handler can answer, for any balancer: a body of the
    upstream comes with a status below 500 and after at least one upstream
    call; every failure body comes with 404, 500 or 502; and the upstream
    is called only for a path that is not skipped, on a route found by
    [findMatchingRoute] and a target returned by the balancer for the
    healthy targets of that route, at most [retries] times. *)
Theorem handleRequest_replies (routes : RouteMap)
    (breakers : gmap string CircuitBreaker.CircuitBreakerInstance)
    (request : Request) (startedAt : Z) (upstream : Z -> Proxy.Attempt) :
  let handled :=
    handleRequest selectTarget buildTargetUrl routes breakers request startedAt upstream in
  match sent (reply handled) with
  | UpstreamBody _ => status (reply handled) < 500 /\ (0 < upstreamCalls handled)%nat
  | FailureBody _ =>
      status (reply handled) = 404 \/ status (reply handled) = 500 \/
      status (reply handled) = 502
  end /\
  ((0 < upstreamCalls handled)%nat ->
   shouldSkipGateway (url request) = false /\
   exists route target,
     findMatchingRoute routes (url request) (toUpperCase (method request)) = Some route /\
     selectTarget (getHealthyTargets routes (path route) (Routes.method route))
       (algorithm route) (Routes.method route +:+ ":" +:+ path route) = Some target /\
     Z.of_nat (upstreamCalls handled) <= retries route).
Proof.
  cbn zeta. unfold handleRequest.
  destruct (shouldSkipGateway (url request)); [cbn; split; [tauto|lia]|].
  destruct (findMatchingRoute _ _ _) as [route|] eqn:Hroute; [|cbn; split; [tauto|lia]].
  destruct (getHealthyTargets _ _ _) as [|t ts] eqn:Hhealthy; [cbn; split; [tauto|lia]|].
  destruct (selectTarget _ _ _) as [target|] eqn:Hselect; [|cbn; split; [tauto|lia]].
  cbn [reply upstreamCalls].
  set (forwarded := Proxy.forwardRequest _ _ _ _ _ _ _ _ _).
  pose proof (Proxy.forwardRequest_unguarded breakers (Routes.url target)
                (buildTargetUrl (Routes.url target) (proxyPath (url request)))
                (timeout route) (retries route) startedAt upstream) as Hcalls.
  cbn zeta in Hcalls. fold forwarded in Hcalls.
  split.
  - destruct (Proxy.result forwarded) as [response|error] eqn:Hres.
    + cbn [sent status]. split.
      * unfold forwarded, Proxy.forwardRequest in Hres. cbn [Proxy.breakerArgs] in Hres.
        by apply Proxy.attempts_response in Hres.
      * destruct Hcalls as [[_ ?]|[? _]]; [congruence|lia].
    + destruct error; cbn [sent status]; tauto.
  - intros Hcalled. split; [done|]. exists route, target.
    split; [done|]. split; [by rewrite Hhealthy|].
    destruct Hcalls as [[? _]|[? _]]; lia.
Qed.

End Replies.

Lemma getHealthyTargets_healthy routes path' method' t ts :
  getHealthyTargets routes path' method' = t :: ts ->
  List.filter isHealthy (t :: ts) <> [].
Proof.
  unfold getHealthyTargets. destruct (getRoute routes path' method') as [route|]; [|done].
  intros Hfilter.
  assert (Ht : In t (List.filter isHealthy (targets route))) by (rewrite Hfilter; by left).
  apply List.filter_In in Ht as [_ Ht]. cbn [List.filter]. by rewrite Ht.
Qed.

(** X30 -- with the balancer of the service in any state it can reach, the
    handler's answer "Unable to select backend target" never occurs: a
    route with a healthy target always gets one selected, whatever its
    algorithm. *)
Theorem selection_never_fails (ops : list LoadBalancer.Op) (rnd : LoadBalancer.Random)
    (buildTargetUrl : string -> string -> string) (routes : RouteMap)
    (breakers : gmap string CircuitBreaker.CircuitBreakerInstance)
    (request : Request) (startedAt : Z) (upstream : Z -> Proxy.Attempt) :
  LoadBalancer.inUnitInterval rnd ->
  let select := fun ts algorithm routeKey =>
    fst (LoadBalancer.selectTarget (LoadBalancer.run ops) ts algorithm routeKey rnd) in
  sent (reply (handleRequest select buildTargetUrl routes breakers request startedAt
                 upstream))
  <> FailureBody "Unable to select backend target".
Proof.
  intros Hrnd. cbn zeta. unfold handleRequest.
  destruct (shouldSkipGateway (url request)); [done|].
  destruct (findMatchingRoute _ _ _) as [route|] eqn:Hroute.
  2: { cbn [reply sent]. intros [= Heq]; cbv [String.app] in Heq; discriminate. }
  destruct (getHealthyTargets _ _ _) as [|t ts] eqn:Hhealthy; [done|].
  destruct (LoadBalancer.selectTarget_some (LoadBalancer.run ops) (t :: ts)
              (algorithm route) (Routes.method route +:+ ":" +:+ path route) rnd)
    as (target & -> & _).
  { apply LoadBalancer.nonnegative_getCounter, LoadBalancer.nonnegative_run. }
  { done. }
  { by eapply getHealthyTargets_healthy. }
  cbn [reply].
  set (forwarded := Proxy.forwardRequest _ _ _ _ _ _ _ _ _).
  pose proof (Proxy.forwardRequest_unguarded breakers (Routes.url target)
                (buildTargetUrl (Routes.url target) (proxyPath (url request)))
                (timeout route) (retries route) startedAt upstream) as Hcalls.
  cbn zeta in Hcalls. fold forwarded in Hcalls.
  destruct (Proxy.result forwarded) as [response|error] eqn:Hres; [done|].
  assert (Hshape : error = Proxy.BadGatewayException "All retry attempts failed" \/
                   exists o, Proxy.makeRequest
                               (buildTargetUrl (Routes.url target) (proxyPath (url request)))
                               (timeout route) o = inr error).
  { destruct Hcalls as [[_ Hnone]|[_ Hlast]]; [left; congruence|right].
    eexists. by rewrite <- Hlast. }
  destruct Hshape as [->|[o Ho]]; [done|].
  apply Proxy.makeRequest_error in Ho.
  destruct error as [m|m|b|m|m|m]; cbn [sent]; try done.
  destruct Ho as [[st ->]| ->]; intros [= Heq]; cbv [String.app] in Heq; discriminate.
Qed.

Lemma handleRequest_replies_witness :
  (0 < upstreamCalls
         (handleRequest pickFirst concatUrl startRoutes ∅ getUsers 0 healthy))%nat /\
  shouldSkipGateway (url getUsers) = false.
Proof.
  assert (Hcalled : (0 < upstreamCalls
            (handleRequest pickFirst concatUrl startRoutes ∅ getUsers 0 healthy))%nat)
    by (vm_compute; lia).
  split; [exact Hcalled|].
  destruct (handleRequest_replies pickFirst concatUrl startRoutes ∅ getUsers 0 healthy)
    as [_ Honly].
  by destruct (Honly Hcalled).
Defined.

Lemma selection_never_fails_witness :
  LoadBalancer.inUnitInterval LoadBalancer.half /\
  sent (reply (handleRequest
                 (fun ts algorithm routeKey =>
                    fst (LoadBalancer.selectTarget (LoadBalancer.run []) ts algorithm
                           routeKey LoadBalancer.half))
                 concatUrl startRoutes ∅ getUsers 0 healthy))
  <> FailureBody "Unable to select backend target".
Proof.
  assert (Hr : LoadBalancer.inUnitInterval LoadBalancer.half)
    by (unfold LoadBalancer.inUnitInterval; cbn; lia).
  split; [exact Hr|].
  exact (selection_never_fails [] LoadBalancer.half concatUrl startRoutes ∅ getUsers 0
           healthy Hr).
Defined.


End Gateway.
